(** * The router's navigation pipeline (modules/@angular/router/src/router.ts)

    A shallow embedding of [Router.scheduleNavigation] and [Router.runNavigate],
    of [PreActivation] (the guard-phase diff, [checkGuards], [resolveData]) and
    of [ActivateRoutes] (the commit-phase diff), with the properties the
    specification states about them.

    Conventions of the embedding.
    - A JavaScript exception is the [Throw] result of the error monad [Res];
      reading a property of [null] or [undefined] throws [TypeError].
    - An object used as a dictionary and walked with [forEach] is an
      association list in insertion order (outlet names are not integer-like,
      so [for ... in] visits the keys in insertion order).
    - Object identity ([===] on route configs and on activated routes) is
      equality of an identity tag carried by the record.
    - An observable is the finite sequence of notifications it delivers to
      its subscriber ([Notifs]), and subscribing to the guards of a check is
      a run that logs the guards it invokes ([Run]).
    - [runNavigate] is cut into turns at its suspension points ([Stage]); the
      turns of the navigations in flight interleave ([Router.exec]).
    - What activation does to the mounted UI is a log of operations and an
      updated outlet map, both kept when activation throws half-way. *)

From Stdlib Require Import Ascii.
From stdpp Require Import gmap strings list pretty.

Set Warnings "-register-all".

Set Default Proof Using "Type".
Open Scope string_scope.
Open Scope list_scope.

(** ** Values, errors *)

Inductive JsVal :=
  | JBool (b : bool)
  | JUndefined
  | JNum (n : Z)
  | JStr (s : string).

(** [result === true] *)
Definition is_true_val (v : JsVal) : bool :=
  match v with JBool true => true | _ => false end.

Definition Err := string.

Inductive Res (A : Type) :=
  | Ok (a : A)
  | Throw (e : Err).
Arguments Ok {A} a.
Arguments Throw {A} e.

#[global] Instance Res_ret : MRet Res := fun A a => Ok a.
#[global] Instance Res_bind : MBind Res := fun A B k r =>
  match r with Ok a => k a | Throw e => Throw e end.

Definition TypeError : Err := "TypeError".

(** ** Dictionaries in insertion order *)

Section Assoc.
Context {V : Type}.

Fixpoint assoc_get (k : string) (m : list (string * V)) : option V :=
  match m with
  | [] => None
  | (k', v) :: m' => if String.eqb k k' then Some v else assoc_get k m'
  end.

(** [m[k] = v]: an existing key keeps its place, a new one goes last. *)
Fixpoint assoc_set (k : string) (v : V) (m : list (string * V)) : list (string * V) :=
  match m with
  | [] => [(k, v)]
  | (k', v') :: m' =>
      if String.eqb k k' then (k, v) :: m' else (k', v') :: assoc_set k v m'
  end.

(** [delete m[k]] *)
Fixpoint assoc_del (k : string) (m : list (string * V)) : list (string * V) :=
  match m with
  | [] => []
  | (k', v') :: m' =>
      if String.eqb k k' then assoc_del k m' else (k', v') :: assoc_del k m'
  end.
End Assoc.

(** ** The route tree *)

Definition Token := string.
Definition Component := string.

(** A mounted component instance (the handle a can-deactivate guard gets). *)
Definition Instance := nat.

(** An entry of the route table.  [rc_id] stands for the identity of the
    config object; the guard lists are optional properties. *)
Record Route := mkRoute {
  rc_id : nat;
  canActivate : option (list Token);
  canActivateChild : option (list Token);
  canDeactivate : option (list Token)
}.

(** [_resolve] stands for [_resolve.current], the named resolvers of the
    route. *)
Record ActivatedRouteSnapshot := mkSnapshot {
  outlet : string;
  component : option Component;
  params : gmap string string;
  _routeConfig : option Route;
  _resolve : list (string * Token)
}.

Inductive TreeNode (A : Type) :=
  | Node (value : A) (children : list (TreeNode A)).
Arguments Node {A} value children.

Definition value {A} (n : TreeNode A) : A := match n with Node v _ => v end.
Definition children {A} (n : TreeNode A) : list (TreeNode A) :=
  match n with Node _ cs => cs end.

Record RouterStateSnapshot := mkStateSnapshot {
  snap_root : TreeNode ActivatedRouteSnapshot;
  snap_queryParams : gmap string string;
  snap_fragment : option string
}.

(** [future._routeConfig === curr._routeConfig] *)
Definition same_routeConfig (a b : option Route) : bool :=
  match a, b with
  | None, None => true
  | Some x, Some y => Nat.eqb (rc_id x) (rc_id y)
  | _, _ => false
  end.

(** Modelled from the spec: [shallowEqual] is declared in utils/collection;
    two parameter bags are identical when they have the same keys and the
    same value at every key. *)
Definition shallowEqual (a b : gmap string string) : bool := bool_decide (a = b).

(** [nodeChildrenAsMap] *)
Definition nodeChildrenAsMap {A} (outletOf : A -> string) (node : option (TreeNode A))
  : list (string * TreeNode A) :=
  match node with
  | Some n => foldl (fun m c => assoc_set (outletOf (value c)) c m) [] (children n)
  | None => []
  end.

(** ** Outlets

    Modelled from the spec: the [RouterOutlet] directive and [RouterOutletMap]
    are declared outside this file (directives/router_outlet, router_outlet_map).
    The spec's slot registry maps a slot name to an occupancy record
    {isActivated, mounted component handle, nested registry}; the record
    below has the fields router.ts reads: [isActivated], [component],
    [activatedRoute] (a reference to the live route) and [outletMap]. *)

Inductive RouterOutlet :=
  | mkOutlet (activated : option (Instance * nat))
             (outletMap : option (list (string * RouterOutlet))).

Abbreviation RouterOutletMap := (list (string * RouterOutlet)).

Definition activated (o : RouterOutlet) : option (Instance * nat) :=
  match o with mkOutlet a _ => a end.
Definition outletMap (o : RouterOutlet) : option RouterOutletMap :=
  match o with mkOutlet _ m => m end.
Definition isActivated (o : RouterOutlet) : bool :=
  match activated o with Some _ => true | None => false end.
Definition outlet_component (o : RouterOutlet) : option Instance :=
  fst <$> activated o.
Definition outlet_activatedRoute (o : RouterOutlet) : option nat :=
  snd <$> activated o.

(** The mounted components of an outlet in teardown order, as the
    specification words it: descendants first, deepest first, the outlet's
    own component last. *)
Fixpoint teardown (o : RouterOutlet) : list (Instance * nat) :=
  match o with
  | mkOutlet None _ => []
  | mkOutlet (Some a) nested =>
      match nested with
      | Some m =>
          (fix each (m : RouterOutletMap) : list (Instance * nat) :=
             match m with
             | [] => []
             | (_, v) :: m' => teardown v ++ each m'
             end) m
      | None => []
      end ++ [a]
  end.

Definition teardownMap (m : RouterOutletMap) : list (Instance * nat) :=
  flat_map (fun kv => teardown (snd kv)) m.

(** The invariant of the slot registry: an activated outlet has a nested
    registry, and so have the activated outlets below it. *)
Fixpoint registered (o : RouterOutlet) : Prop :=
  match o with
  | mkOutlet None _ => True
  | mkOutlet (Some _) None => False
  | mkOutlet (Some _) (Some m) =>
      (fix each (m : RouterOutletMap) : Prop :=
         match m with
         | [] => True
         | (_, v) :: m' => registered v /\ each m'
         end) m
  end.

Definition registeredMap (m : RouterOutletMap) : Prop :=
  Forall (fun kv => registered (snd kv)) m.

(** ** Pending checks *)

(** What [CanDeactivate.route] holds at run time: the declared snapshot, the
    tree node that [traverseChildRoutes] passes for a vacated slot, or
    [undefined] (a live route that was never advanced). *)
Inductive DeactivatedRoute :=
  | DSnapshot (s : ActivatedRouteSnapshot)
  | DTreeNode (n : TreeNode ActivatedRouteSnapshot)
  | DUndefined.

Inductive Check :=
  | CanActivate (path : list ActivatedRouteSnapshot)
  | CanDeactivate (comp : option Instance) (route : DeactivatedRoute).

(** ** PreActivation: the guard-phase diff *)

Module PreActivation.
Section Traverse.
(** The current snapshot of every live route, by reference
    ([v.activatedRoute.snapshot]). *)
Variable live : gmap nat ActivatedRouteSnapshot.

Definition live_route (ref : nat) : DeactivatedRoute :=
  match live !! ref with Some s => DSnapshot s | None => DUndefined end.

(** [deactivateOutletAndItChildren] on an outlet that exists; the inner
    loop is [deactivateOutletMap] on its nested map. *)
Fixpoint deactivateOutlet (route : DeactivatedRoute) (o : RouterOutlet)
    (checks : list Check) {struct o} : Res (list Check) :=
  match o with
  | mkOutlet None _ => Ok checks
  | mkOutlet (Some (inst, _)) None => Throw TypeError
  | mkOutlet (Some (inst, _)) (Some m) =>
      checks' ←
        (fix each (m : RouterOutletMap) (checks : list Check) : Res (list Check) :=
           match m with
           | [] => Ok checks
           | (_, v) :: m' =>
               match v with
               | mkOutlet None _ => each m' checks
               | mkOutlet (Some (_, ref)) _ =>
                   checks' ← deactivateOutlet (live_route ref) v checks;
                   each m' checks'
               end
           end) m checks;
      Ok (checks' ++ [CanDeactivate (Some inst) route])
  end.

Definition deactivateOutletAndItChildren (route : DeactivatedRoute)
    (o : option RouterOutlet) (checks : list Check) : Res (list Check) :=
  match o with
  | Some o => deactivateOutlet route o checks
  | None => Ok checks
  end.

Fixpoint deactivateOutlets (m : RouterOutletMap) (checks : list Check)
  : Res (list Check) :=
  match m with
  | [] => Ok checks
  | (_, v) :: m' =>
      if isActivated v then
        checks' ← deactivateOutletAndItChildren
                     (match outlet_activatedRoute v with
                      | Some ref => live_route ref
                      | None => DUndefined
                      end) (Some v) checks;
        deactivateOutlets m' checks'
      else deactivateOutlets m' checks
  end.

Definition deactivateOutletMap (om : option RouterOutletMap) (checks : list Check)
  : Res (list Check) :=
  match om with
  | Some m => deactivateOutlets m checks
  | None => Throw TypeError
  end.

(** The two loops of [traverseChildRoutes]: over the future children, then
    over what is left of [prevChildren]. *)
Fixpoint deactivateLeftovers (prev : list (string * TreeNode ActivatedRouteSnapshot))
    (om : option RouterOutletMap) (checks : list Check) : Res (list Check) :=
  match prev with
  | [] => Ok checks
  | (k, v) :: prev' =>
      match om with
      | None => Throw TypeError
      | Some m =>
          checks' ← deactivateOutletAndItChildren (DTreeNode v) (assoc_get k m) checks;
          deactivateLeftovers prev' om checks'
      end
  end.

Definition childLoop
    (traverseRoutes : TreeNode ActivatedRouteSnapshot ->
                      option (TreeNode ActivatedRouteSnapshot) ->
                      option RouterOutletMap -> list ActivatedRouteSnapshot ->
                      list Check -> Res (list Check))
    (om : option RouterOutletMap) (futurePath : list ActivatedRouteSnapshot) :=
  fix loop (cs : list (TreeNode ActivatedRouteSnapshot))
           (prevChildren : list (string * TreeNode ActivatedRouteSnapshot))
           (checks : list Check) : Res (list Check) :=
    match cs with
    | [] => deactivateLeftovers prevChildren om checks
    | c :: cs' =>
        checks' ← traverseRoutes c (assoc_get (outlet (value c)) prevChildren) om
                     (futurePath ++ [value c]) checks;
        loop cs' (assoc_del (outlet (value c)) prevChildren) checks'
    end.

Fixpoint traverseRoutes (futureNode : TreeNode ActivatedRouteSnapshot)
    (currNode : option (TreeNode ActivatedRouteSnapshot))
    (parentOutletMap : option RouterOutletMap)
    (futurePath : list ActivatedRouteSnapshot)
    (checks : list Check) {struct futureNode} : Res (list Check) :=
  match futureNode with
  | Node future cs =>
      let curr := value <$> currNode in
      let outlet' :=
        match parentOutletMap with
        | Some m => assoc_get (outlet future) m
        | None => None
        end in
      let reuse :=
        match curr with
        | Some c => same_routeConfig (_routeConfig future) (_routeConfig c)
        | None => false
        end in
      if reuse then
        checks1 ←
          match curr with
          | Some c =>
              if negb (shallowEqual (params future) (params c)) then
                match outlet' with
                | Some o =>
                    Ok (checks ++ [CanDeactivate (outlet_component o) (DSnapshot c);
                                   CanActivate futurePath])
                | None => Throw TypeError
                end
              else Ok checks
          | None => Ok checks
          end;
        match component future with
        | Some _ =>
            childLoop traverseRoutes
              (match outlet' with Some o => outletMap o | None => None end)
              futurePath cs (nodeChildrenAsMap outlet currNode) checks1
        | None =>
            childLoop traverseRoutes parentOutletMap futurePath cs
              (nodeChildrenAsMap outlet currNode) checks1
        end
      else
        checks1 ←
          match curr with
          | Some c =>
              match component c with
              | Some _ => deactivateOutletAndItChildren (DSnapshot c) outlet' checks
              | None => deactivateOutletMap parentOutletMap checks
              end
          | None => Ok checks
          end;
        let checks2 := checks1 ++ [CanActivate futurePath] in
        match component future with
        | Some _ =>
            childLoop traverseRoutes
              (match outlet' with Some o => outletMap o | None => None end)
              futurePath cs [] checks2
        | None =>
            childLoop traverseRoutes parentOutletMap futurePath cs [] checks2
        end
  end.

Definition traverseChildRoutes (futureNode : TreeNode ActivatedRouteSnapshot)
    (currNode : option (TreeNode ActivatedRouteSnapshot))
    (om : option RouterOutletMap) (futurePath : list ActivatedRouteSnapshot)
    (checks : list Check) : Res (list Check) :=
  childLoop traverseRoutes om futurePath (children futureNode)
    (nodeChildrenAsMap outlet currNode) checks.

(** The deactivate-checks of a teardown. *)
Definition teardownChecks (l : list (Instance * nat)) : list Check :=
  map (fun a => CanDeactivate (Some (fst a)) (live_route (snd a))) l.

(** What deactivating an outlet for [route] records. *)
Definition outletChecks (route : DeactivatedRoute) (o : RouterOutlet) : list Check :=
  match o with
  | mkOutlet (Some a) (Some m) =>
      teardownChecks (teardownMap m) ++ [CanDeactivate (Some (fst a)) route]
  | _ => []
  end.


(** The outlet of the parent registry at the slot of a node, and the
    registry its children are diffed under: the nested registry of that
    outlet when the node has a component, the parent registry itself when
    it is componentless. *)
Definition slotOutlet (parentOutletMap : option RouterOutletMap)
    (future : ActivatedRouteSnapshot) : option RouterOutlet :=
  match parentOutletMap with
  | Some m => assoc_get (outlet future) m
  | None => None
  end.

Definition childRegistry (parentOutletMap : option RouterOutletMap)
    (future : ActivatedRouteSnapshot) : option RouterOutletMap :=
  match component future with
  | Some _ =>
      match slotOutlet parentOutletMap future with
      | Some o => outletMap o
      | None => None
      end
  | None => parentOutletMap
  end.

(** [traverse]: the checks of a fresh [PreActivation]. *)
Definition traverse (future : RouterStateSnapshot) (curr : option RouterStateSnapshot)
    (parentOutletMap : option RouterOutletMap) : Res (list Check) :=
  let futureRoot := snap_root future in
  let currRoot := snap_root <$> curr in
  traverseChildRoutes futureRoot currRoot parentOutletMap [value futureRoot] [].
End Traverse.

(** *** Observables

    rxjs is a collaborator; the operators router.ts composes ([of], [from],
    [map], [mergeAll], [every]) are modelled on observables that deliver
    their notifications when subscribed: some values, then completion or an
    error.  [every] delivers [false] at the first value that fails the test
    and ends the subscription there, so that nothing upstream runs after it;
    it delivers [true] on completion and passes an error on. *)

Record Notifs (A : Type) := mkNotifs {
  emitted : list A;
  failure : option Err
}.
Arguments mkNotifs {A} emitted failure.
Arguments emitted {A} n.
Arguments failure {A} n.

(** [Observable.of(v)] *)
Definition of_val {A} (v : A) : Notifs A := mkNotifs [v] None.
Definition of_error {A} (e : Err) : Notifs A := mkNotifs [] (Some e).

(** A guard being invoked: which hook, with which token, on what. *)
Inductive GuardCall :=
  | CallCanActivate (c : Token) (future : ActivatedRouteSnapshot)
  | CallCanActivateChild (c : Token) (future : ActivatedRouteSnapshot)
  | CallCanDeactivate (c : Token) (comp : option Instance) (curr : ActivatedRouteSnapshot).

(** Subscribing runs guards; the calls made so far are threaded through. *)
Definition Source (A : Type) := list GuardCall -> Notifs A * list GuardCall.
Definition Run (A : Type) := list GuardCall -> Res A * list GuardCall.

(** An observable that delivers the one result of a run. *)
Definition of_run (r : Run bool) : Source JsVal := fun log =>
  match r log with
  | (Ok b, log') => (of_val (JBool b), log')
  | (Throw e, log') => (of_error e, log')
  end.

(** [observables.mergeAll().every(result => result === true)] *)
Fixpoint andObservables (observables : list (Source JsVal)) : Run bool := fun log =>
  match observables with
  | [] => (Ok true, log)
  | o :: rest =>
      let '(n, log') := o log in
      if forallb is_true_val (emitted n) then
        match failure n with
        | Some e => (Throw e, log')
        | None => andObservables rest log'
        end
      else (Ok false, log')
  end.

Section Guards.
(** What the guard looked up for a token returns, through
    [wrapIntoObservable]: a plain value [v] is [of_val v]; a throw of
    [getToken] or of the guard, or a rejected promise, is [of_error]. *)
Variable guard : GuardCall -> Notifs JsVal.

Definition invoke (call : GuardCall) : Source JsVal := fun log =>
  (guard call, log ++ [call]).

Definition runCanActivate (future : ActivatedRouteSnapshot) : Run bool :=
  match _routeConfig future with
  | None => fun log => (Ok true, log)
  | Some rc =>
      match canActivate rc with
      | None | Some [] => fun log => (Ok true, log)
      | Some canActivate =>
          andObservables (map (fun c => invoke (CallCanActivate c future)) canActivate)
      end
  end.

Definition extractCanActivateChild (p : ActivatedRouteSnapshot)
  : option (ActivatedRouteSnapshot * list Token) :=
  match _routeConfig p with
  | None => None
  | Some rc =>
      match canActivateChild rc with
      | None | Some [] => None
      | Some canActivateChild => Some (p, canActivateChild)
      end
  end.

(** [path] is not empty here: [checkGuards] reads [s.route] first. *)
Definition runCanActivateChild (path : list ActivatedRouteSnapshot)
    (future : ActivatedRouteSnapshot) : Run bool :=
  let canActivateChildGuards :=
    omap extractCanActivateChild (rev (removelast path)) in
  andObservables
    (map (fun d =>
            of_run (andObservables
                      (map (fun c => invoke (CallCanActivateChild c future)) (snd d))))
         canActivateChildGuards).

Definition runCanDeactivate (comp : option Instance) (curr : DeactivatedRoute)
  : Run bool :=
  match curr with
  | DSnapshot curr =>
      match _routeConfig curr with
      | None => fun log => (Ok true, log)
      | Some rc =>
          match canDeactivate rc with
          | None | Some [] => fun log => (Ok true, log)
          | Some canDeactivate =>
              andObservables
                (map (fun c => invoke (CallCanDeactivate c comp curr)) canDeactivate)
          end
      end
  | DTreeNode _ | DUndefined => fun log => (Ok true, log)
  end.

(** The projection of [checkGuards]'s [map]. *)
Definition guardsOf (s : Check) : Source JsVal :=
  match s with
  | CanActivate path =>
      match last path with
      | Some route =>
          of_run (andObservables [of_run (runCanActivate route);
                                  of_run (runCanActivateChild path route)])
      | None => fun log => (of_error TypeError, log)
      end
  | CanDeactivate comp route => of_run (runCanDeactivate comp route)
  end.

Definition checkGuards (checks : list Check) : Run bool :=
  match checks with
  | [] => fun log => (Ok true, log)
  | _ => andObservables (map guardsOf checks)
  end.

(** *** The predicates of a check, as the specification lists them

    An activate-check runs the node's own can-activate predicates, then
    the can-activate-child predicates of its strict ancestors, nearest
    ancestor first; a deactivate-check runs the can-deactivate predicates
    of the outgoing route. *)
Definition tokens (l : option (list Token)) : list Token := default [] l.

Definition ownPredicates (node : ActivatedRouteSnapshot) : list GuardCall :=
  match _routeConfig node with
  | Some rc => map (fun c => CallCanActivate c node) (tokens (canActivate rc))
  | None => []
  end.

Definition childPredicates (node ancestor : ActivatedRouteSnapshot) : list GuardCall :=
  match _routeConfig ancestor with
  | Some rc => map (fun c => CallCanActivateChild c node) (tokens (canActivateChild rc))
  | None => []
  end.

Definition activatePredicates (ancestors : list ActivatedRouteSnapshot)
    (node : ActivatedRouteSnapshot) : list GuardCall :=
  ownPredicates node ++ flat_map (childPredicates node) (rev ancestors).

Definition predicatesOf (s : Check) : list GuardCall :=
  match s with
  | CanActivate path =>
      match last path with
      | Some node => activatePredicates (removelast path) node
      | None => []
      end
  | CanDeactivate comp (DSnapshot curr) =>
      match _routeConfig curr with
      | Some rc => map (fun c => CallCanDeactivate c comp curr) (tokens (canDeactivate rc))
      | None => []
      end
  | CanDeactivate _ _ => []
  end.

(** Running predicates one after the other until one is not [true]. *)
Definition runAll (calls : list GuardCall) : Run bool :=
  andObservables (map invoke calls).

(** A predicate evaluates to [true]: every value it delivers is [true] and
    it does not fail. *)
Definition evaluatesTrue (call : GuardCall) : Prop :=
  forallb is_true_val (emitted (guard call)) = true /\ failure (guard call) = None.


(** Every activate-check has a node to activate. *)
Definition hasRoute (s : Check) : Prop :=
  match s with CanActivate path => path <> [] | CanDeactivate _ _ => True end.
End Guards.
End PreActivation.

(** *** Data resolvers *)

Module Resolve.
Section Resolve.
(** What the resolver looked up for a token delivers for a route. *)
Variable resolver : Token -> ActivatedRouteSnapshot -> Res JsVal.

(** [resolveNode].  [waitForMap] (utils/collection) waits for all the named
    resolvers of a node and fails when one of them fails. *)
Fixpoint resolveNode (resolve : list (string * Token)) (future : ActivatedRouteSnapshot)
  : Res (list (string * JsVal)) :=
  match resolve with
  | [] => Ok []
  | (k, v) :: rest =>
      r ← resolver v future;
      rs ← resolveNode rest future;
      Ok (assoc_set k r rs)
  end.

(** [resolveData]: the resolved bag of every activate-check's route, which
    the source merges into that route's data. *)
Fixpoint resolveData (checks : list Check)
  : Res (list (ActivatedRouteSnapshot * list (string * JsVal))) :=
  match checks with
  | [] => Ok []
  | CanActivate path :: rest =>
      match last path with
      | Some route =>
          d ← resolveNode (_resolve route) route;
          ds ← resolveData rest;
          Ok ((route, d) :: ds)
      | None => Throw TypeError
      end
  | CanDeactivate _ _ :: rest => resolveData rest
  end.
End Resolve.
End Resolve.

(** ** ActivateRoutes: the commit-phase diff *)

(** The live route.  [ar_ref] is the identity of the object; its current
    snapshot is a cell of the world below.  [ar_outlet] and [ar_component]
    are the source's [outlet] and [component]. *)
Record ActivatedRoute := mkActivatedRoute {
  ar_ref : nat;
  ar_outlet : string;
  ar_component : option Component;
  _futureSnapshot : ActivatedRouteSnapshot
}.

Record RouterState := mkRouterState {
  rs_root : TreeNode ActivatedRoute;
  rs_snapshot : RouterStateSnapshot
}.

(** What activation does to the mounted UI and to the observable cells. *)
Inductive Op :=
  | OpPushQueryParams (q : gmap string string)
  | OpPushFragment (f : option string)
  | OpAdvance (ref : nat)
  | OpActivate (ref : nat) (comp : Component) (inst : Instance)
  | OpDeactivate (inst : Instance).

Record World := mkWorld {
  w_live : gmap nat ActivatedRouteSnapshot;
  w_queryParams : gmap string string;
  w_fragment : option string;
  w_next : Instance;
  w_ops : list Op
}.

Definition emit (op : Op) (w : World) : World :=
  mkWorld (w_live w) (w_queryParams w) (w_fragment w) (w_next w) (w_ops w ++ [op]).

Definition emits (ops : list Op) (w : World) : World :=
  mkWorld (w_live w) (w_queryParams w) (w_fragment w) (w_next w) (w_ops w ++ ops).

(** Modelled from the spec: [RouterOutlet.deactivate] is declared with the
    directive; after it the slot is not activated and, by the invariant of
    the slot registry, has no nested registry. *)
Definition vacate (o : RouterOutlet) : RouterOutlet :=
  match activated o with Some _ => mkOutlet None None | None => o end.

(** The unmounts of a teardown. *)
Definition unmounts (l : list (Instance * nat)) : list Op :=
  map (fun a => OpDeactivate (fst a)) l.

(** Modelled from the spec: [advanceActivatedRoute] is declared in
    router_state; it advances the route's observable cell to the new
    snapshot. *)
Definition advanceActivatedRoute (route : ActivatedRoute) (w : World) : World :=
  emit (OpAdvance (ar_ref route))
    (mkWorld (<[ar_ref route := _futureSnapshot route]> (w_live w))
       (w_queryParams w) (w_fragment w) (w_next w) (w_ops w)).

Definition pushQueryParamsAndFragment (state : RouterState) (w : World) : World :=
  let w1 :=
    if negb (shallowEqual (snap_queryParams (rs_snapshot state)) (w_queryParams w)) then
      emit (OpPushQueryParams (snap_queryParams (rs_snapshot state)))
        (mkWorld (w_live w) (snap_queryParams (rs_snapshot state)) (w_fragment w)
           (w_next w) (w_ops w))
    else w in
  if negb (bool_decide (snap_fragment (rs_snapshot state) = w_fragment w1)) then
    emit (OpPushFragment (snap_fragment (rs_snapshot state)))
      (mkWorld (w_live w1) (w_queryParams w1) (snap_fragment (rs_snapshot state))
         (w_next w1) (w_ops w1))
  else w1.

Module ActivateRoutes.
Section Activate.
(** The UI-mount primitive: the outlets the view of a component registers
    in the outlet map it is given, and the name of the primary outlet
    (shared.ts). *)
Variable template : Component -> list string.
Variable PRIMARY_OUTLET : string.

(** A step of activation: the outlet map and the world as it leaves them,
    and the exception it ends with, if any. *)
Definition Step (A : Type) := (A * World * option Err)%type.

Definition getOutlet (om : option RouterOutletMap) (route : ActivatedRoute)
  : Res RouterOutlet :=
  match om with
  | None => Throw TypeError
  | Some m =>
      match assoc_get (ar_outlet route) m with
      | Some o => Ok o
      | None =>
          match ar_component route with
          | None => Throw TypeError
          | Some componentName =>
              if String.eqb (ar_outlet route) PRIMARY_OUTLET then
                Throw ("Cannot find primary outlet to load '" +:+ componentName +:+ "'")
              else
                Throw ("Cannot find the outlet " +:+ ar_outlet route +:+ " to load '"
                         +:+ componentName +:+ "'")
          end
      end
  end.

(** [deactivateOutletAndItChildren] on an outlet that exists; the inner
    loop is [deactivateOutletMap] on its nested map. *)
Fixpoint deactivateOutlet (o : RouterOutlet) (w : World) {struct o} : Step RouterOutlet :=
  match o with
  | mkOutlet None _ => (o, w, None)
  | mkOutlet (Some (inst, ref)) None => (o, w, Some TypeError)
  | mkOutlet (Some (inst, ref)) (Some m) =>
      let '(m', w', e) :=
        (fix each (m : RouterOutletMap) (w : World) : Step RouterOutletMap :=
           match m with
           | [] => ([], w, None)
           | (k, v) :: rest =>
               let '(v', w1, e) := deactivateOutlet v w in
               match e with
               | Some _ => ((k, v') :: rest, w1, e)
               | None =>
                   let '(rest', w2, e2) := each rest w1 in
                   ((k, v') :: rest', w2, e2)
               end
           end) m w in
      match e with
      | Some _ => (mkOutlet (Some (inst, ref)) (Some m'), w', e)
      | None => (mkOutlet None None, emit (OpDeactivate inst) w', None)
      end
  end.

Fixpoint deactivateOutlets (m : RouterOutletMap) (w : World) : Step RouterOutletMap :=
  match m with
  | [] => ([], w, None)
  | (k, v) :: rest =>
      let '(v', w1, e) := deactivateOutlet v w in
      match e with
      | Some _ => ((k, v') :: rest, w1, e)
      | None =>
          let '(rest', w2, e2) := deactivateOutlets rest w1 in
          ((k, v') :: rest', w2, e2)
      end
  end.

Definition deactivateOutletMap (om : option RouterOutletMap) (w : World)
  : Step (option RouterOutletMap) :=
  match om with
  | None => (None, w, Some TypeError)
  | Some m => let '(m', w', e) := deactivateOutlets m w in (Some m', w', e)
  end.

(** [deactivateOutletAndItChildren(outletMap._outlets[k])], in place. *)
Definition deactivateOutletAt (k : string) (om : option RouterOutletMap) (w : World)
  : Step (option RouterOutletMap) :=
  match om with
  | None => (None, w, Some TypeError)
  | Some m =>
      match assoc_get k m with
      | None => (om, w, None)
      | Some o =>
          let '(o', w', e) := deactivateOutlet o w in
          (Some (assoc_set k o' m), w', e)
      end
  end.

Fixpoint deactivateLeftovers (prev : list (string * TreeNode ActivatedRoute))
    (om : option RouterOutletMap) (w : World) : Step (option RouterOutletMap) :=
  match prev with
  | [] => (om, w, None)
  | (k, _) :: prev' =>
      let '(om', w', e) := deactivateOutletAt k om w in
      match e with
      | Some _ => (om', w', e)
      | None => deactivateLeftovers prev' om' w'
      end
  end.

Definition childLoop
    (activateRoutes : TreeNode ActivatedRoute -> option (TreeNode ActivatedRoute) ->
                      option RouterOutletMap -> World -> Step (option RouterOutletMap)) :=
  fix loop (cs : list (TreeNode ActivatedRoute))
           (prevChildren : list (string * TreeNode ActivatedRoute))
           (om : option RouterOutletMap) (w : World) : Step (option RouterOutletMap) :=
    match cs with
    | [] => deactivateLeftovers prevChildren om w
    | c :: cs' =>
        let '(om', w', e) :=
          activateRoutes c (assoc_get (ar_outlet (value c)) prevChildren) om w in
        match e with
        | Some _ => (om', w', e)
        | None => loop cs' (assoc_del (ar_outlet (value c)) prevChildren) om' w'
        end
    end.

(** Store the nested map back into the outlet a node went through. *)
Definition withOutletMap (name : string) (o : RouterOutlet)
    (parent : option RouterOutletMap) (nested : option RouterOutletMap)
  : option RouterOutletMap :=
  (fun m => assoc_set name (mkOutlet (activated o) nested) m) <$> parent.

(** [outlet.activate(future, ..., outletMap)] followed by the registration
    of the outlets of the mounted view in the fresh [outletMap].  The
    providers and the factory resolver [placeComponentIntoOutlet] prepares
    for the mount do not bear on the outlet map and are left out. *)
Definition placeComponentIntoOutlet (comp : Component) (future : ActivatedRoute)
    (w : World) : RouterOutlet * World :=
  let inst := w_next w in
  (mkOutlet (Some (inst, ar_ref future))
     (Some (map (fun name => (name, mkOutlet None None)) (template comp))),
   emit (OpActivate (ar_ref future) comp inst)
     (mkWorld (w_live w) (w_queryParams w) (w_fragment w) (S inst) (w_ops w))).

Fixpoint activateRoutes (futureNode : TreeNode ActivatedRoute)
    (currNode : option (TreeNode ActivatedRoute))
    (parentOutletMap : option RouterOutletMap) (w : World) {struct futureNode}
  : Step (option RouterOutletMap) :=
  match futureNode with
  | Node future cs =>
      let curr := value <$> currNode in
      let reuse :=
        match curr with
        | Some c => Nat.eqb (ar_ref future) (ar_ref c)
        | None => false
        end in
      if reuse then
        let w1 := advanceActivatedRoute future w in
        match ar_component future with
        | Some _ =>
            match getOutlet parentOutletMap future with
            | Throw e => (parentOutletMap, w1, Some e)
            | Ok outlet' =>
                let '(nested, w2, e) :=
                  childLoop activateRoutes cs (nodeChildrenAsMap ar_outlet currNode)
                    (outletMap outlet') w1 in
                (withOutletMap (ar_outlet future) outlet' parentOutletMap nested, w2, e)
            end
        | None =>
            childLoop activateRoutes cs (nodeChildrenAsMap ar_outlet currNode)
              parentOutletMap w1
        end
      else
        let '(om1, w1, e1) :=
          match curr with
          | Some c =>
              match ar_component c with
              | Some _ =>
                  match getOutlet parentOutletMap future with
                  | Throw e => (parentOutletMap, w, Some e)
                  | Ok _ => deactivateOutletAt (ar_outlet future) parentOutletMap w
                  end
              | None => deactivateOutletMap parentOutletMap w
              end
          | None => (parentOutletMap, w, None)
          end in
        match e1 with
        | Some _ => (om1, w1, e1)
        | None =>
            match ar_component future with
            | Some comp =>
                let w2 := advanceActivatedRoute future w1 in
                match getOutlet om1 future with
                | Throw e => (om1, w2, Some e)
                | Ok _ =>
                    let '(outlet', w3) := placeComponentIntoOutlet comp future w2 in
                    let '(nested, w4, e) :=
                      childLoop activateRoutes cs [] (outletMap outlet') w3 in
                    (withOutletMap (ar_outlet future) outlet' om1 nested, w4, e)
                end
            | None =>
                let w2 := advanceActivatedRoute future w1 in
                childLoop activateRoutes cs [] om1 w2
            end
        end
  end.

Definition activateChildRoutes (futureNode : TreeNode ActivatedRoute)
    (currNode : option (TreeNode ActivatedRoute)) (om : option RouterOutletMap)
    (w : World) : Step (option RouterOutletMap) :=
  childLoop activateRoutes (children futureNode) (nodeChildrenAsMap ar_outlet currNode)
    om w.

Definition activate (futureState : RouterState) (currState : option RouterState)
    (parentOutletMap : option RouterOutletMap) (w : World)
  : Step (option RouterOutletMap) :=
  let futureRoot := rs_root futureState in
  let currRoot := rs_root <$> currState in
  let w1 := pushQueryParamsAndFragment futureState w in
  let w2 := advanceActivatedRoute (value futureRoot) w1 in
  activateChildRoutes futureRoot currRoot parentOutletMap w2.
End Activate.
End ActivateRoutes.

(** ** The Router *)

Inductive Event :=
  | NavigationStart (id : nat) (url : string)
  | NavigationEnd (id : nat) (url : string) (urlAfterRedirects : string)
  | NavigationCancel (id : nat) (url : string)
  | NavigationError (id : nat) (url : string) (error : Err)
  | RoutesRecognized (id : nat) (url : string) (urlAfterRedirects : string)
      (state : RouterStateSnapshot).

(** Modelled from the spec: the location collaborator (@angular/common), at
    the interface the spec gives it: [go] pushes a path, [replaceState]
    replaces the current one, [isCurrentPathEqualTo] compares with it.  The
    calls made are kept. *)
Inductive LocationCall :=
  | LocGo (path : string)
  | LocReplaceState (path : string).

Record Location := mkLocation {
  loc_path : string;
  loc_calls : list LocationCall
}.

Definition go (path : string) (l : Location) : Location :=
  mkLocation path (loc_calls l ++ [LocGo path]).
Definition replaceState (path : string) (l : Location) : Location :=
  mkLocation path (loc_calls l ++ [LocReplaceState path]).
Definition isCurrentPathEqualTo (path : string) (l : Location) : bool :=
  String.eqb (loc_path l) path.

(** How the promise of a navigation settles. *)
Inductive Settled :=
  | Resolved (b : bool)
  | Rejected (e : Err).

(** The collaborators of the router: the URL codec, redirects, recognition,
    the first resolve pass, the construction of the new router state, the
    guards and resolvers behind their tokens, the mount primitive and the
    name of the primary outlet. *)
Record Collaborators (UrlTree : Type) := mkCollaborators {
  serializeUrl : UrlTree -> string;
  applyRedirects : UrlTree -> Res UrlTree;
  recognize : UrlTree -> Res RouterStateSnapshot;
  resolve : RouterStateSnapshot -> Res RouterStateSnapshot;
  createRouterState : RouterStateSnapshot -> RouterState -> RouterState;
  guard : PreActivation.GuardCall -> PreActivation.Notifs JsVal;
  resolver : Token -> ActivatedRouteSnapshot -> Res JsVal;
  template : Component -> list string;
  PRIMARY_OUTLET : string
}.
Arguments serializeUrl {UrlTree} c url.
Arguments applyRedirects {UrlTree} c url.
Arguments recognize {UrlTree} c url.
Arguments resolve {UrlTree} c snapshot.
Arguments createRouterState {UrlTree} c snapshot prev.
Arguments guard {UrlTree} c call.
Arguments resolver {UrlTree} c token route.
Arguments template {UrlTree} c comp.
Arguments PRIMARY_OUTLET {UrlTree} c.

Module Router.
Section Router.
Context {UrlTree : Type}.
Variable C : Collaborators UrlTree.

Record Router := mkRouter {
  currentUrlTree : UrlTree;
  currentRouterState : RouterState;
  navigationId : nat;
  routerEvents : list Event;
  location : Location;
  outletMap : RouterOutletMap;
  world : World;
  guardCalls : list PreActivation.GuardCall
}.

Definition next (ev : Event) (r : Router) : Router :=
  mkRouter (currentUrlTree r) (currentRouterState r) (navigationId r)
    (routerEvents r ++ [ev]) (location r) (outletMap r) (world r) (guardCalls r).

Definition setLocation (l : Location) (r : Router) : Router :=
  mkRouter (currentUrlTree r) (currentRouterState r) (navigationId r)
    (routerEvents r) l (outletMap r) (world r) (guardCalls r).

Definition setCurrent (state : RouterState) (url : UrlTree) (r : Router) : Router :=
  mkRouter url state (navigationId r) (routerEvents r) (location r) (outletMap r)
    (world r) (guardCalls r).

(** The stage a running pipeline waits in, with what that stage will
    deliver; the last two are the promise of [forEach], settled. *)
Inductive Stage :=
  | Redirecting (pending : Res UrlTree)
  | Recognizing (appliedUrl : UrlTree) (pending : Res RouterStateSnapshot)
  | Resolving (appliedUrl : UrlTree) (pending : Res RouterStateSnapshot)
  | Guarding (appliedUrl : UrlTree) (state : RouterState) (checks : list Check)
      (pending : Res bool)
  | ResolvingData (appliedUrl : UrlTree) (state : RouterState)
      (pending : Res (list (ActivatedRouteSnapshot * list (string * JsVal))))
  | ForEachResolved (appliedUrl : UrlTree) (navigationIsSuccessful : bool)
  | ForEachRejected (e : Err).

Inductive Phase :=
  | Scheduled
  | Running (storedState : RouterState) (storedUrl : UrlTree) (stage : Stage)
  | Done (result : Settled).

Record Navigation := mkNavigation {
  nav_id : nat;
  nav_url : UrlTree;
  nav_preventPushState : bool;
  nav_phase : Phase
}.

Definition setPhase (p : Phase) (n : Navigation) : Navigation :=
  mkNavigation (nav_id n) (nav_url n) (nav_preventPushState n) p.

(** [scheduleNavigation]: the pipeline itself runs in a later turn. *)
Definition scheduleNavigation (url : UrlTree) (preventPushState : bool) (r : Router)
  : Navigation * Router :=
  let id := S (navigationId r) in
  let r1 := mkRouter (currentUrlTree r) (currentRouterState r) id (routerEvents r)
              (location r) (outletMap r) (world r) (guardCalls r) in
  (mkNavigation id url preventPushState Scheduled,
   next (NavigationStart id (serializeUrl C url)) r1).

(** The callback of [forEach]. *)
Definition forEachCallback (n : Navigation) (storedState : RouterState)
    (appliedUrl : UrlTree) (state : RouterState) (shouldActivate : bool) (r : Router)
  : Stage * Router :=
  if negb shouldActivate || negb (Nat.eqb (nav_id n) (navigationId r)) then
    (ForEachResolved appliedUrl false,
     next (NavigationCancel (nav_id n) (serializeUrl C (nav_url n))) r)
  else
    let '(om, w, e) :=
      ActivateRoutes.activate (template C) (PRIMARY_OUTLET C) state (Some storedState)
        (Some (outletMap r)) (world r) in
    let r2 := mkRouter appliedUrl state (navigationId r) (routerEvents r) (location r)
                (default (outletMap r) om) w (guardCalls r) in
    match e with
    | Some e => (ForEachRejected e, r2)
    | None =>
        let r3 :=
          if negb (nav_preventPushState n) then
            let path := serializeUrl C appliedUrl in
            if isCurrentPathEqualTo path (location r) then
              setLocation (replaceState path (location r)) r2
            else setLocation (go path (location r)) r2
          else r2 in
        (ForEachResolved appliedUrl true, r3)
    end.

(** One turn of [runNavigate]: from a suspension point to the next. *)
Definition step (n : Navigation) (r : Router) : Navigation * Router :=
  match nav_phase n with
  | Scheduled =>
      if negb (Nat.eqb (nav_id n) (navigationId r)) then
        let r1 := setLocation (go (serializeUrl C (currentUrlTree r)) (location r)) r in
        (setPhase (Done (Resolved false)) n,
         next (NavigationCancel (nav_id n) (serializeUrl C (nav_url n))) r1)
      else
        (setPhase (Running (currentRouterState r) (currentUrlTree r)
                     (Redirecting (applyRedirects C (nav_url n)))) n, r)
  | Running storedState storedUrl stage =>
      let running s := setPhase (Running storedState storedUrl s) n in
      match stage with
      | Redirecting (Throw e) | Recognizing _ (Throw e) | Resolving _ (Throw e)
      | Guarding _ _ _ (Throw e) | ResolvingData _ _ (Throw e) =>
          (running (ForEachRejected e), r)
      | Redirecting (Ok u) => (running (Recognizing u (recognize C u)), r)
      | Recognizing appliedUrl (Ok newRouterStateSnapshot) =>
          (running (Resolving appliedUrl (resolve C newRouterStateSnapshot)),
           next (RoutesRecognized (nav_id n) (serializeUrl C (nav_url n))
                   (serializeUrl C appliedUrl) newRouterStateSnapshot) r)
      | Resolving appliedUrl (Ok routerStateSnapshot) =>
          let state := createRouterState C routerStateSnapshot (currentRouterState r) in
          match PreActivation.traverse (w_live (world r)) (rs_snapshot state)
                  (Some (rs_snapshot (currentRouterState r))) (Some (outletMap r)) with
          | Throw e => (running (ForEachRejected e), r)
          | Ok checks =>
              let '(verdict, calls) :=
                PreActivation.checkGuards (guard C) checks (guardCalls r) in
              (running (Guarding appliedUrl state checks verdict),
               mkRouter (currentUrlTree r) (currentRouterState r) (navigationId r)
                 (routerEvents r) (location r) (outletMap r) (world r) calls)
          end
      | Guarding appliedUrl state checks (Ok shouldActivate) =>
          if shouldActivate then
            (running (ResolvingData appliedUrl state (Resolve.resolveData (resolver C) checks)), r)
          else
            let '(s, r1) := forEachCallback n storedState appliedUrl state false r in
            (running s, r1)
      | ResolvingData appliedUrl state (Ok _) =>
          let '(s, r1) := forEachCallback n storedState appliedUrl state true r in
          (running s, r1)
      | ForEachResolved appliedUrl navigationIsSuccessful =>
          (setPhase (Done (Resolved navigationIsSuccessful)) n,
           next (NavigationEnd (nav_id n) (serializeUrl C (nav_url n))
                   (serializeUrl C appliedUrl)) r)
      | ForEachRejected e =>
          (setPhase (Done (Rejected e)) n,
           next (NavigationError (nav_id n) (serializeUrl C (nav_url n)) e)
             (setCurrent storedState storedUrl r))
      end
  | Done _ => (n, r)
  end.

(** The authoritative pair. *)
Definition current (r : Router) : RouterState * UrlTree :=
  (currentRouterState r, currentUrlTree r).

(** What the stage a navigation is in throws, or rejects with, on its
    next turn. *)
Definition failsWith (n : Navigation) (r : Router) : option Err :=
  match nav_phase n with
  | Running storedState _ stage =>
      match stage with
      | Redirecting (Throw e) | Recognizing _ (Throw e) | Resolving _ (Throw e)
      | Guarding _ _ _ (Throw e) | ResolvingData _ _ (Throw e) => Some e
      | Resolving _ (Ok routerStateSnapshot) =>
          match PreActivation.traverse (w_live (world r))
                  (rs_snapshot (createRouterState C routerStateSnapshot
                                  (currentRouterState r)))
                  (Some (rs_snapshot (currentRouterState r))) (Some (outletMap r)) with
          | Throw e => Some e
          | Ok _ => None
          end
      | ResolvingData _ state (Ok _) =>
          if Nat.eqb (nav_id n) (navigationId r) then
            snd (ActivateRoutes.activate (template C) (PRIMARY_OUTLET C) state
                   (Some storedState) (Some (outletMap r)) (world r))
          else None
      | _ => None
      end
  | _ => None
  end.



(** The turn from [n] to [n'] is the callback of [forEach] committing. *)
Definition commits (n n' : Navigation) : Prop :=
  match nav_phase n, nav_phase n' with
  | Running _ _ (ResolvingData _ _ (Ok _)), Running _ _ (ForEachResolved _ true) => True
  | _, _ => False
  end.


(** *** Several navigations in flight

    Turns of different navigations interleave at the suspension points, and
    new navigations are issued in between. *)
Inductive Action :=
  | Navigate (url : UrlTree) (preventPushState : bool)
  | Advance (i : nat).

Record System := mkSystem {
  router : Router;
  navigations : list Navigation
}.

Definition act (a : Action) (s : System) : System :=
  match a with
  | Navigate url preventPushState =>
      let '(n, r) := scheduleNavigation url preventPushState (router s) in
      mkSystem r (navigations s ++ [n])
  | Advance i =>
      match navigations s !! i with
      | Some n =>
          let '(n', r) := step n (router s) in
          mkSystem r (<[i := n']> (navigations s))
      | None => s
      end
  end.

Definition exec (acts : list Action) (s : System) : System :=
  foldl (fun s a => act a s) s acts.


End Router.
Arguments Router : clear implicits.
Arguments Stage : clear implicits.
Arguments Phase : clear implicits.
Arguments Navigation : clear implicits.
Arguments Action : clear implicits.
Arguments System : clear implicits.
End Router.

(** ** Unchanged trees

    A new tree in which every node reuses the previous node of its slot with
    the same parameters, siblings being in different slots; and the same for
    trees of live routes. *)

Fixpoint sameRoutes (f c : TreeNode ActivatedRouteSnapshot) {struct f} : Prop :=
  match f, c with
  | Node fv fcs, Node cv ccs =>
      same_routeConfig (_routeConfig fv) (_routeConfig cv) = true
      /\ shallowEqual (params fv) (params cv) = true
      /\ outlet fv = outlet cv
      /\ NoDup (map (fun n => outlet (value n)) ccs)
      /\ (fix all (fcs ccs : list (TreeNode ActivatedRouteSnapshot)) : Prop :=
            match fcs, ccs with
            | [], [] => True
            | f1 :: fcs', c1 :: ccs' => sameRoutes f1 c1 /\ all fcs' ccs'
            | _, _ => False
            end) fcs ccs
  end.




(** ** A scenario: /team/33/user/11 and /team/33/user/22

    The route table has [team/:id] with a child [user/:name]; the team
    component and the user component are mounted in primary outlets. *)

Definition event_id (ev : Event) : nat :=
  match ev with
  | NavigationStart id _ | NavigationEnd id _ _ | NavigationCancel id _
  | NavigationError id _ _ | RoutesRecognized id _ _ _ => id
  end.

(** The events of one navigation, in order. *)
Definition eventsOf (id : nat) (events : list Event) : list Event :=
  filter (fun ev => event_id ev = id) events.

Module Scenario.
Definition teamConfig : Route := mkRoute 1 None (Some ["TeamChildGuard"]) None.
Definition userConfig : Route :=
  mkRoute 2 (Some ["Auth"; "Deny"; "Late"]) None (Some ["Leave"]).
(** A componentless route, and a route with a component for the same slot. *)
Definition groupConfig : Route := mkRoute 3 None None None.
Definition homeConfig : Route := mkRoute 4 None None None.

Definition root : ActivatedRouteSnapshot :=
  mkSnapshot "primary" (Some "RootCmp") ∅ None [].
Definition team (id : string) : ActivatedRouteSnapshot :=
  mkSnapshot "primary" (Some "TeamCmp") {["id" := id]} (Some teamConfig) [].
Definition user (name : string) : ActivatedRouteSnapshot :=
  mkSnapshot "primary" (Some "UserCmp") {["name" := name]} (Some userConfig) [].
Definition group (id : string) : ActivatedRouteSnapshot :=
  mkSnapshot "primary" None {["id" := id]} (Some groupConfig) [].
Definition home : ActivatedRouteSnapshot :=
  mkSnapshot "primary" (Some "HomeCmp") ∅ (Some homeConfig) [].

Definition teamUser (name : string) : TreeNode ActivatedRouteSnapshot :=
  Node root [Node (team "33") [Node (user name) []]].

Definition stateSnapshot (t : TreeNode ActivatedRouteSnapshot) : RouterStateSnapshot :=
  mkStateSnapshot t ∅ None.

(** The live routes are numbered by the route config they stand for. *)
Definition refOf (s : ActivatedRouteSnapshot) : nat :=
  match _routeConfig s with Some rc => rc_id rc | None => 0 end.

Definition liveRoute (s : ActivatedRouteSnapshot) : ActivatedRoute :=
  mkActivatedRoute (refOf s) (outlet s) (component s) s.

Fixpoint liveTree (t : TreeNode ActivatedRouteSnapshot) : TreeNode ActivatedRoute :=
  match t with
  | Node v cs => Node (liveRoute v) (map liveTree cs)
  end.

Definition liveState (t : TreeNode ActivatedRouteSnapshot) : RouterState :=
  mkRouterState (liveTree t) (stateSnapshot t).

(** /team/33/user/11 mounted: the team component (instance 10) in the
    primary outlet of the root, the user component (instance 11) in the
    primary outlet of the team view. *)
Definition live11 : gmap nat ActivatedRouteSnapshot :=
  {[0 := root; 1 := team "33"; 2 := user "11"]}.

Definition userOutlet : RouterOutlet := mkOutlet (Some (11, 2)) (Some []).
Definition teamOutlet : RouterOutlet :=
  mkOutlet (Some (10, 1)) (Some [("primary", userOutlet)]).
Definition mounted11 : RouterOutletMap := [("primary", teamOutlet)].

(** The same, with a team view that has no outlet. *)
Definition mountedWithoutUserOutlet : RouterOutletMap :=
  [("primary", mkOutlet (Some (10, 1)) (Some []))].

(** /group/1 mounted: [group/:id] is componentless and its only child, a
    panel, goes to the outlet named aux; the root view has that outlet and
    no primary one. *)
Definition panelConfig : Route := mkRoute 5 None None None.
Definition panel : ActivatedRouteSnapshot :=
  mkSnapshot "aux" (Some "PanelCmp") ∅ (Some panelConfig) [].
Definition groupPanel (id : string) : TreeNode ActivatedRouteSnapshot :=
  Node root [Node (group id) [Node panel []]].
Definition liveGroup1 : gmap nat ActivatedRouteSnapshot :=
  {[0 := root; 3 := group "1"; 5 := panel]}.
Definition mountedGroup : RouterOutletMap :=
  [("aux", mkOutlet (Some (10, 5)) (Some []))].

(** Guards: every guard allows, but [Deny]. *)
Definition allowAll (call : PreActivation.GuardCall) : PreActivation.Notifs JsVal :=
  PreActivation.of_val (JBool true).
Definition denying (call : PreActivation.GuardCall) : PreActivation.Notifs JsVal :=
  match call with
  | PreActivation.CallCanActivate "Deny" _ => PreActivation.of_val (JBool false)
  | _ => PreActivation.of_val (JBool true)
  end.

Definition collaborators (guard : PreActivation.GuardCall -> PreActivation.Notifs JsVal)
  : Collaborators string :=
  {| serializeUrl := fun url => url;
     applyRedirects := fun url =>
       if String.eqb url "/broken" then Throw "load failed" else Ok url;
     recognize := fun url =>
       if String.eqb url "/team/33/user/11" then Ok (stateSnapshot (teamUser "11"))
       else if String.eqb url "/team/33/user/22" then Ok (stateSnapshot (teamUser "22"))
       else if String.eqb url "/home" then Ok (stateSnapshot (Node root [Node home []]))
       else Throw "Cannot match any routes";
     resolve := fun snapshot => Ok snapshot;
     createRouterState := fun snapshot _ =>
       mkRouterState (liveTree (snap_root snapshot)) snapshot;
     guard := guard;
     resolver := fun _ _ => Ok JUndefined;
     template := fun comp =>
       if String.eqb comp "RootCmp" || String.eqb comp "TeamCmp" then ["primary"]
       else [];
     PRIMARY_OUTLET := "primary" |}.

(** The router before its first navigation. *)
Definition initial : Router.Router string :=
  Router.mkRouter "" (liveState (Node root [])) 0 [] (mkLocation "" [])
    [("primary", mkOutlet None None)] (mkWorld ∅ ∅ None 10 []) [].

Definition start : Router.System string := Router.mkSystem initial [].

(** The router at /team/33/user/11. *)
Definition at11 : Router.Router string :=
  Router.mkRouter "/team/33/user/11" (liveState (teamUser "11")) 1
    [] (mkLocation "/team/33/user/11" []) mounted11 (mkWorld live11 ∅ None 12 []) [].

(** A navigation to /team/33/user/22 whose guard check has delivered
    [false], and one whose redirects have failed. *)
Definition denied : Router.Navigation string :=
  Router.mkNavigation 2 "/team/33/user/22" false
    (Router.Running (liveState (teamUser "11")) "/team/33/user/11"
       (Router.Guarding "/team/33/user/22" (liveState (teamUser "22"))
          [CanDeactivate (Some 11) (DSnapshot (user "11"));
           CanActivate [root; team "33"; user "22"]]
          (Ok false))).


Definition turns (i k : nat) : list (Router.Action string) :=
  replicate k (Router.Advance i).

(** The checks from /team/33/user/11 to /team/33/user/22. *)
Definition checks22 : list Check :=
  [CanDeactivate (Some 11) (DSnapshot (user "11"));
   CanActivate [root; team "33"; user "22"]].

(** The router at /group/1, and a navigation to /group/2 about to be
    diffed against it. *)
Definition atGroup1 : Router.Router string :=
  Router.mkRouter "/group/1" (liveState (groupPanel "1")) 2
    [] (mkLocation "/group/1" []) mountedGroup (mkWorld liveGroup1 ∅ None 11 []) [].

Definition resolvedGroup2 : Router.Navigation string :=
  Router.mkNavigation 2 "/group/2" false
    (Router.Running (liveState (groupPanel "1")) "/group/1"
       (Router.Resolving "/group/2" (Ok (stateSnapshot (groupPanel "2"))))).

(** Two navigations issued back to back, none run yet. *)
Definition first : Router.Navigation string :=
  Router.mkNavigation 1 "/team/33/user/11" false Router.Scheduled.

Definition twoIssued : Router.System string :=
  Router.exec (collaborators allowAll)
    [Router.Navigate "/team/33/user/11" false; Router.Navigate "/team/33/user/22" false]
    start.


End Scenario.

(** ** The nodes of a tree and their paths

    Both diffs visit the new tree in pre-order: a node, then its children
    from left to right. *)

Fixpoint preorder {A} (t : TreeNode A) : list A :=
  match t with
  | Node v cs => v :: flat_map preorder cs
  end.

(** The paths from the root to the nodes of [t], in pre-order; [path] is the
    path to [t] itself, as [traverseRoutes] receives it in [futurePath]. *)
Fixpoint pathsBelow (path : list ActivatedRouteSnapshot)
    (t : TreeNode ActivatedRouteSnapshot) : list (list ActivatedRouteSnapshot) :=
  match t with
  | Node v cs => path :: flat_map (fun c => pathsBelow (path ++ [value c]) c) cs
  end.

(** The paths [traverse] hands to the children of the root and below. *)
Definition pathsOf (root : TreeNode ActivatedRouteSnapshot)
  : list (list ActivatedRouteSnapshot) :=
  flat_map (fun c => pathsBelow ([value root] ++ [value c]) c) (children root).

(** The paths of the activate-checks among some checks. *)
Definition activatePaths (checks : list Check) : list (list ActivatedRouteSnapshot) :=
  omap (fun s => match s with CanActivate path => Some path | _ => None end) checks.

Definition isDeactivate (s : Check) : Prop :=
  match s with CanDeactivate _ _ => True | CanActivate _ => False end.

(** The routes advanced and the components mounted by some operations. *)
Definition advanced (ops : list Op) : list nat :=
  omap (fun op => match op with OpAdvance ref => Some ref | _ => None end) ops.

Definition mounted (ops : list Op) : list (nat * Component) :=
  omap (fun op => match op with OpActivate ref comp _ => Some (ref, comp) | _ => None end)
    ops.

Definition unmounted (ops : list Op) : list Instance :=
  omap (fun op => match op with OpDeactivate inst => Some inst | _ => None end) ops.

Definition isUnmount (op : Op) : Prop :=
  match op with OpDeactivate _ => True | _ => False end.

(** The live routes of a tree, by reference, in pre-order. *)
Definition refsOf (t : TreeNode ActivatedRoute) : list nat := map ar_ref (preorder t).

(** From [w] to [w'] the routes of [target] were advanced, in this order,
    and all of them unless activation threw. *)
Definition advancesWithin (target : list nat) (w w' : World) (e : option Err) : Prop :=
  exists ops,
    w_ops w' = w_ops w ++ ops
    /\ advanced ops `prefix_of` target
    /\ (e = None -> advanced ops = target).

(** The component nodes of a tree of live routes, in pre-order. *)
Definition componentsOf (t : TreeNode ActivatedRoute) : list (nat * Component) :=
  omap (fun r => match ar_component r with
                 | Some comp => Some (ar_ref r, comp)
                 | None => None
                 end) (preorder t).

(** Every component node of the tree finds an outlet at its slot: [slots]
    are the outlets of the registry the node is activated under; the view
    of a component registers the outlets of its template, and a
    componentless node hands the registry of its parent down. *)
Fixpoint fits (template : Component -> list string) (slots : list string)
    (t : TreeNode ActivatedRoute) {struct t} : Prop :=
  match t with
  | Node v cs =>
      match ar_component v with
      | Some comp =>
          ar_outlet v ∈ slots
          /\ (fix all (cs : list (TreeNode ActivatedRoute)) : Prop :=
                match cs with
                | [] => True
                | c :: cs' => fits template (template comp) c /\ all cs'
                end) cs
      | None =>
          (fix all (cs : list (TreeNode ActivatedRoute)) : Prop :=
             match cs with
             | [] => True
             | c :: cs' => fits template slots c /\ all cs'
             end) cs
      end
  end.

(** The outcome of a fresh activation of the trees [fs] under the registry
    [m]: it has not thrown, the registry has the outlets it had, the
    components of the trees were mounted in pre-order and nothing was
    unmounted. *)
Definition mountsAll (fs : list (TreeNode ActivatedRoute)) (m : RouterOutletMap) (w : World)
    (res : option RouterOutletMap * World * option Err) : Prop :=
  exists m' w' ops,
    res = (Some m', w', None)
    /\ map fst m' = map fst m
    /\ w_ops w' = w_ops w ++ ops
    /\ mounted ops = flat_map componentsOf fs
    /\ unmounted ops = [].

(** What a step of activation makes of the registry it is given: there is
    one after it if there was one before, and it satisfies the invariant
    of the slot registry if it did before. *)
Definition keepsRegistered (pom om : option RouterOutletMap) : Prop :=
  match pom with
  | Some m => exists m', om = Some m' /\ (registeredMap m -> registeredMap m')
  | None => om = None
  end.

(** ** What guards and resolvers return

    [wrapIntoObservable] takes what a guard returned: an observable, a
    promise or a plain value.  A promise is taken as it settles; it delivers
    in a later turn than a plain value does, which the notifications of
    [Notifs] do not order, so the properties below are about guards that
    return plain values or throw. *)

Inductive Returned (A : Type) :=
  | RetObservable (o : PreActivation.Notifs A)
  | RetPromise (p : Res A)
  | RetValue (v : A).
Arguments RetObservable {A} o.
Arguments RetPromise {A} p.
Arguments RetValue {A} v.

(** [Observable.fromPromise] *)
Definition fromPromise {A} (p : Res A) : PreActivation.Notifs A :=
  match p with
  | Ok v => PreActivation.of_val v
  | Throw e => PreActivation.of_error e
  end.

Definition wrapIntoObservable {A} (value : Returned A) : PreActivation.Notifs A :=
  match value with
  | RetObservable o => o
  | RetPromise p => fromPromise p
  | RetValue v => PreActivation.of_val v
  end.

(** The projection of the [map] in [runCanActivate], [runCanActivateChild]
    and [runCanDeactivate]: look the guard up and call it ([guardFn], which
    throws when either does), then wrap what it returned; [map] turns a
    throw of its projection into an error of the observable. *)
Definition wrapped (guardFn : PreActivation.GuardCall -> Res (Returned JsVal))
    (call : PreActivation.GuardCall) : PreActivation.Notifs JsVal :=
  match guardFn call with
  | Ok returned => wrapIntoObservable returned
  | Throw e => PreActivation.of_error e
  end.

(** The guards consulted when each delivers the one value [verdict] gives:
    all up to the first whose value is not [true]. *)
Fixpoint untilDenied (verdict : PreActivation.GuardCall -> JsVal)
    (calls : list PreActivation.GuardCall) : list PreActivation.GuardCall :=
  match calls with
  | [] => []
  | c :: rest => c :: if is_true_val (verdict c) then untilDenied verdict rest else []
  end.

(** What a resolver delivers for a route, when it does. *)
Definition delivered (resolver : Token -> ActivatedRouteSnapshot -> Res JsVal)
    (route : ActivatedRouteSnapshot) (t : Token) : option JsVal :=
  match resolver t route with Ok v => Some v | Throw _ => None end.

(** ** Events of one navigation *)

Inductive EventKind := Started | Recognized | Canceled | Ended | Failed.

Definition kindOf (ev : Event) : EventKind :=
  match ev with
  | NavigationStart _ _ => Started
  | RoutesRecognized _ _ _ _ => Recognized
  | NavigationCancel _ _ => Canceled
  | NavigationEnd _ _ _ => Ended
  | NavigationError _ _ _ => Failed
  end.

(** The kinds of the events a navigation has emitted so far. *)
Definition trace (id : nat) (events : list Event) : list EventKind :=
  kindOf <$> eventsOf id events.

(** [toString] of the event classes.  [showState] is the [toString] of
    [RouterStateSnapshot], declared in router_state; an id prints in decimal
    and [error] stands for the text of what was thrown. *)
Definition Event_toString (showState : RouterStateSnapshot -> string) (ev : Event)
  : string :=
  match ev with
  | NavigationStart id url =>
      "NavigationStart(id: " +:+ pretty id +:+ ", url: '" +:+ url +:+ "')"
  | NavigationEnd id url urlAfterRedirects =>
      "NavigationEnd(id: " +:+ pretty id +:+ ", url: '" +:+ url
        +:+ "', urlAfterRedirects: '" +:+ urlAfterRedirects +:+ "')"
  | NavigationCancel id url =>
      "NavigationCancel(id: " +:+ pretty id +:+ ", url: '" +:+ url +:+ "')"
  | NavigationError id url error =>
      "NavigationError(id: " +:+ pretty id +:+ ", url: '" +:+ url +:+ "', error: "
        +:+ error +:+ ")"
  | RoutesRecognized id url urlAfterRedirects state =>
      "RoutesRecognized(id: " +:+ pretty id +:+ ", url: '" +:+ url
        +:+ "', urlAfterRedirects: '" +:+ urlAfterRedirects +:+ "', state: "
        +:+ showState state +:+ ")"
  end.

(** A string without a comma, and what a string has before its first
    comma: the printed id of an event ends at the first comma. *)
Fixpoint noComma (s : string) : Prop :=
  match s with
  | EmptyString => True
  | String c s' => c <> ","%char /\ noComma s'
  end.

Fixpoint untilComma (s : string) : string :=
  match s with
  | EmptyString => EmptyString
  | String c s' => if Ascii.eqb c "," then EmptyString else String c (untilComma s')
  end.

(** ** The navigations of a router *)

Module Protocol.
Section Protocol.
Context {UrlTree : Type}.
Variable C : Collaborators UrlTree.

(** The events a navigation has emitted when it is in a given phase. *)
Definition traceAt (p : Router.Phase UrlTree) (t : list EventKind) : Prop :=
  match p with
  | Router.Scheduled => t = [Started]
  | Router.Running _ _ stage =>
      match stage with
      | Router.Redirecting _ | Router.Recognizing _ _ => t = [Started]
      | Router.Resolving _ _ | Router.Guarding _ _ _ _ | Router.ResolvingData _ _ _ =>
          t = [Started; Recognized]
      | Router.ForEachResolved _ true => t = [Started; Recognized]
      | Router.ForEachResolved _ false => t = [Started; Recognized; Canceled]
      | Router.ForEachRejected _ => t = [Started] \/ t = [Started; Recognized]
      end
  | Router.Done (Resolved true) => t = [Started; Recognized; Ended]
  | Router.Done (Resolved false) =>
      t = [Started; Canceled] \/ t = [Started; Recognized; Canceled; Ended]
  | Router.Done (Rejected _) => t = [Started; Failed] \/ t = [Started; Recognized; Failed]
  end.

(** The navigations in flight have different ids, none above the counter,
    and no event is of a navigation that is still to be issued. *)
Definition wellNumbered (s : Router.System UrlTree) : Prop :=
  NoDup (Router.nav_id <$> Router.navigations s)
  /\ Forall (fun n => Router.nav_id n <= Router.navigationId (Router.router s))
       (Router.navigations s)
  /\ Forall (fun ev => event_id ev <= Router.navigationId (Router.router s))
       (Router.routerEvents (Router.router s)).

(** ... and each has emitted what its phase says. *)
Definition onProtocol (s : Router.System UrlTree) : Prop :=
  Forall (fun n => traceAt (Router.nav_phase n)
                     (trace (Router.nav_id n) (Router.routerEvents (Router.router s))))
    (Router.navigations s).

(** [k] turns of one navigation, with nothing else happening in between. *)
Fixpoint runTurns (k : nat) (n : Router.Navigation UrlTree) (r : Router.Router UrlTree)
  : Router.Navigation UrlTree * Router.Router UrlTree :=
  match k with
  | 0 => (n, r)
  | S k' => let '(n', r') := Router.step C n r in runTurns k' n' r'
  end.

(** The turn of a navigation in which [forEach]'s callback may commit. *)
Definition atCommit (n : Router.Navigation UrlTree) : Prop :=
  match Router.nav_phase n with
  | Router.Running _ _ (Router.ResolvingData _ _ (Ok _)) => True
  | _ => False
  end.

(** The turn of a navigation in which the guards are run. *)
Definition atDiff (n : Router.Navigation UrlTree) : Prop :=
  match Router.nav_phase n with
  | Router.Running _ _ (Router.Resolving _ (Ok _)) => True
  | _ => False
  end.
End Protocol.
End Protocol.

(** ** The entry points of the router

    [urlSerializer.parse] and [UrlTree.toString] are collaborators
    (url_tree); [parse] throws on a string that is no URL. *)

Record LocationChange := mkLocationChange {
  change_url : string;
  change_pop : bool
}.

Module Api.
Section Api.
Context {UrlTree : Type}.
Variable C : Collaborators UrlTree.
Variable parse : string -> Res UrlTree.
Variable toString : UrlTree -> string.

(** [navigateByUrl], on a string or on a tree. *)
Definition navigateByUrl (url : string + UrlTree) (s : Router.System UrlTree)
  : Res (Router.System UrlTree) :=
  match url with
  | inr tree => Ok (Router.act C (Router.Navigate tree false) s)
  | inl str =>
      urlTree ← parse str;
      Ok (Router.act C (Router.Navigate urlTree false) s)
  end.

(** The callback [setUpLocationChangeListener] subscribes to the location. *)
Definition onLocationChange (change : LocationChange) (s : Router.System UrlTree)
  : Res (Router.System UrlTree) :=
  tree ← parse (change_url change);
  if negb (String.eqb (toString (Router.currentUrlTree (Router.router s))) (toString tree))
  then Ok (Router.act C (Router.Navigate tree (change_pop change)) s)
  else Ok s.
End Api.
End Api.

(** ** More scenarios *)

Module Cases.
Import Scenario.

(** The router before its first navigation: the state is only a root and
    the root view has registered its primary outlet. *)
Definition emptyOutlets : RouterOutletMap := [("primary", mkOutlet None None)].
Definition emptyWorld : World := mkWorld ∅ ∅ None 10 [].

(** Views that register no outlet. *)
Definition noOutlets (comp : Component) : list string := [].

(** Guards that return plain values: [Deny] returns a string and every
    other guard [true]. *)
Definition answers (call : PreActivation.GuardCall) : JsVal :=
  match call with
  | PreActivation.CallCanActivate "Deny" _ => JStr "no"
  | _ => JBool true
  end.

Definition answering (call : PreActivation.GuardCall) : Res (Returned JsVal) :=
  Ok (RetValue (answers call)).

(** The same guards, with an [Auth] that throws. *)
Definition throwing (call : PreActivation.GuardCall) : Res (Returned JsVal) :=
  match call with
  | PreActivation.CallCanActivate "Auth" _ => Throw "not signed in"
  | _ => answering call
  end.

(** A route with two resolvers, entered from /team/33/user/11. *)
Definition profileConfig : Route := mkRoute 6 None None None.
Definition profile : ActivatedRouteSnapshot :=
  mkSnapshot "primary" (Some "ProfileCmp") ∅ (Some profileConfig)
    [("user", "UserResolver"); ("prefs", "PrefsResolver")].
Definition resolvers (t : Token) (route : ActivatedRouteSnapshot) : Res JsVal :=
  if String.eqb t "UserResolver" then Ok (JStr "alice") else Ok (JNum 7).
Definition profileChecks : list Check :=
  [CanDeactivate (Some 11) (DSnapshot (user "11")); CanActivate [root; profile]].

(** /team/33 against /team/33/user/11: the slot of the user is left empty. *)
Definition teamOnly : TreeNode ActivatedRouteSnapshot := Node (team "33") [].
Definition teamWithUser : TreeNode ActivatedRouteSnapshot :=
  Node (team "33") [Node (user "11") []].

(** A navigation to the URL the router is at, recognized and resolved. *)
Definition again : Router.Navigation string :=
  Router.mkNavigation 1 "/team/33/user/11" false
    (Router.Running (liveState (teamUser "11")) "/team/33/user/11"
       (Router.Resolving "/team/33/user/11" (Ok (stateSnapshot (teamUser "11"))))).

(** The browser goes back to /team/33/user/22; URLs are their own trees. *)
Definition backTo22 : LocationChange := mkLocationChange "/team/33/user/22" true.
Definition parseAny (url : string) : Res string := Ok url.
Definition printTree (tree : string) : string := tree.
Definition showNothing (state : RouterStateSnapshot) : string := "".

(** The router when the first navigation has been issued and nothing has
    run yet. *)
Definition issued : Router.Router string :=
  Router.router
    (Router.act (collaborators allowAll) (Router.Navigate "/team/33/user/11" false) start).

(** Three navigations, their turns interleaved. *)
Definition interleaved : list (Router.Action string) :=
  [Router.Navigate "/team/33/user/11" false; Router.Advance 0; Router.Advance 0;
   Router.Navigate "/broken" false; Router.Advance 1; Router.Advance 0;
   Router.Navigate "/team/33/user/22" false]
  ++ turns 2 7 ++ turns 0 7 ++ turns 1 7.
End Cases.

(** * Properties *)

Lemma bind_Ok {A B} (r : Res A) (k : A -> Res B) (b : B) :
  r ≫= k = Ok b -> exists a, r = Ok a /\ k a = Ok b.
Proof. destruct r as [a|e]; [eauto|done]. Qed.

(** ** Trees and dictionaries *)

Section TreeInduction.
Context {A : Type}.
Variable P : TreeNode A -> Prop.
Hypothesis step : forall v cs, Forall P cs -> P (Node v cs).

Lemma TreeNode_nested_ind (t : TreeNode A) : P t.
Proof using P step.
  revert t. fix IH 1. intros [v cs]. apply step.
  induction cs as [|c cs IHcs]; constructor; [apply IH|apply IHcs].
Qed.
End TreeInduction.

Section AssocFacts.
Context {V : Type}.
Implicit Types (m : list (string * V)).

Lemma assoc_get_set k (v : V) m : assoc_get k (assoc_set k v m) = Some v.
Proof.
  induction m as [|[k' v'] m IH]; cbn [assoc_set assoc_get].
  - by rewrite String.eqb_refl.
  - destruct (String.eqb k k') eqn:Hk; cbn [assoc_get]; rewrite ?String.eqb_refl, ?Hk; done.
Qed.


Lemma assoc_del_fresh k m : k ∉ map fst m -> assoc_del k m = m.
Proof.
  induction m as [|[k' v'] m IH]; cbn [assoc_del map fst]; [done|].
  rewrite not_elem_of_cons. intros [Hne Hnin].
  destruct (String.eqb k k') eqn:Hk.
  - by apply String.eqb_eq in Hk.
  - by rewrite IH.
Qed.

Lemma assoc_set_fresh k (v : V) m :
  k ∉ map fst m -> assoc_set k v m = m ++ [(k, v)].
Proof.
  induction m as [|[k' v'] m IH]; cbn [assoc_set map fst]; [done|].
  rewrite not_elem_of_cons. intros [Hne Hnin].
  destruct (String.eqb k k') eqn:Hk.
  - by apply String.eqb_eq in Hk.
  - by rewrite IH.
Qed.
End AssocFacts.

(** With one child per slot, [nodeChildrenAsMap] lists the children by slot,
    in order. *)
Lemma nodeChildrenAsMap_NoDup {A} (outletOf : A -> string) v cs :
  NoDup (map (fun n => outletOf (value n)) cs) ->
  nodeChildrenAsMap outletOf (Some (Node v cs))
  = map (fun n => (outletOf (value n), n)) cs.
Proof.
  cbn [nodeChildrenAsMap children].
  enough (forall acc,
    NoDup (map fst acc ++ map (fun n => outletOf (value n)) cs) ->
    foldl (fun m c => assoc_set (outletOf (value c)) c m) acc cs
    = acc ++ map (fun n => (outletOf (value n), n)) cs) as H.
  { intros Hnd. by apply (H []). }
  induction cs as [|c cs IH]; intros acc Hnd; cbn [foldl map].
  { by rewrite app_nil_r. }
  cbn [map] in Hnd. rewrite IH.
  - rewrite assoc_set_fresh, <- app_assoc; [done|].
    apply NoDup_app in Hnd as (_ & Hd & _). intros Hin. apply (Hd _ Hin). left.
  - rewrite assoc_set_fresh.
    + rewrite map_app. cbn [map fst]. by rewrite <- app_assoc.
    + apply NoDup_app in Hnd as (_ & Hd & _). intros Hin. apply (Hd _ Hin). left.
Qed.

Lemma sameRoutes_Node fv fcs cv ccs :
  sameRoutes (Node fv fcs) (Node cv ccs) <->
  same_routeConfig (_routeConfig fv) (_routeConfig cv) = true
  /\ shallowEqual (params fv) (params cv) = true
  /\ outlet fv = outlet cv
  /\ NoDup (map (fun n => outlet (value n)) ccs)
  /\ Forall2 sameRoutes fcs ccs.
Proof.
  cbn [sameRoutes]. do 4 (apply and_iff_compat_l).
  revert ccs. induction fcs as [|f fcs IH]; intros [|c ccs].
  - split; [intros _; constructor|done].
  - split; [done|by inversion 1].
  - split; [done|by inversion 1].
  - rewrite IH. split; [intros [? ?]; by constructor|by inversion 1].
Qed.


(** ** Guard evaluation *)

Module GuardFacts.
Import PreActivation.
Section Guards.
Variable guard : GuardCall -> Notifs JsVal.

Lemma andObservables_nested xs rest log :
  andObservables (of_run (andObservables xs) :: rest) log
  = andObservables (xs ++ rest) log.
Proof.
  revert log. induction xs as [|x xs IH]; intros log; [reflexivity|].
  specialize (IH) . simpl. unfold of_run at 1. simpl.
  destruct (x log) as [n log'] eqn:Hx.
  destruct (forallb is_true_val (emitted n)); [|reflexivity].
  destruct (failure n); [reflexivity|].
  rewrite <- IH. simpl. unfold of_run. reflexivity.
Qed.

Lemma andObservables_app_ext xs a b :
  (forall log, andObservables a log = andObservables b log) ->
  forall log, andObservables (xs ++ a) log = andObservables (xs ++ b) log.
Proof.
  intros Hab. induction xs as [|x xs IH]; intros log; [apply Hab|].
  simpl. destruct (x log) as [n log']. destruct (forallb _ _); [|reflexivity].
  destruct (failure n); [reflexivity|]. apply IH.
Qed.

Lemma andObservables_concat {A} (f : A -> list (Source JsVal)) ds rest log :
  andObservables (map (fun d => of_run (andObservables (f d))) ds ++ rest) log
  = andObservables (concat (map f ds) ++ rest) log.
Proof.
  revert log. induction ds as [|d ds IH]; intros log; [reflexivity|].
  cbn [map concat app]. rewrite andObservables_nested, <- app_assoc.
  apply andObservables_app_ext. exact IH.
Qed.

Lemma runCanActivate_runAll node log :
  runCanActivate guard node log = runAll guard (ownPredicates node) log.
Proof.
  unfold runCanActivate, runAll, ownPredicates.
  destruct (_routeConfig node) as [rc|]; [|reflexivity].
  destruct (canActivate rc) as [[|c l]|]; try reflexivity.
  unfold tokens, default. by rewrite map_map.
Qed.

Lemma flat_map_childPredicates node l :
  concat (map (fun d => map (fun c => invoke guard (CallCanActivateChild c node)) (snd d))
            (omap extractCanActivateChild l))
  = map (invoke guard) (flat_map (childPredicates node) l).
Proof.
  induction l as [|p l IH]; [reflexivity|].
  cbn [omap list_omap flat_map]. rewrite map_app, <- IH.
  unfold extractCanActivateChild, childPredicates.
  destruct (_routeConfig p) as [rc|]; [|reflexivity].
  destruct (canActivateChild rc) as [[|c cs]|]; try reflexivity.
  cbn [map concat snd tokens default]. by rewrite map_map.
Qed.

Lemma runCanActivateChild_runAll path node log :
  runCanActivateChild guard path node log
  = runAll guard (flat_map (childPredicates node) (rev (removelast path))) log.
Proof.
  unfold runCanActivateChild, runAll.
  rewrite <- flat_map_childPredicates.
  pose proof (andObservables_concat
    (fun d : ActivatedRouteSnapshot * list Token =>
       map (fun c => invoke guard (CallCanActivateChild c node)) (snd d))
    (omap extractCanActivateChild (rev (removelast path))) [] log) as H.
  rewrite !app_nil_r in H. exact H.
Qed.

Lemma runCanDeactivate_runAll comp route log :
  runCanDeactivate guard comp route log
  = runAll guard (predicatesOf (CanDeactivate comp route)) log.
Proof.
  unfold runCanDeactivate, runAll, predicatesOf.
  destruct route as [curr| |]; try reflexivity.
  destruct (_routeConfig curr) as [rc|]; [|reflexivity].
  destruct (canDeactivate rc) as [[|c l]|]; try reflexivity.
  unfold tokens, default. by rewrite map_map.
Qed.

Lemma of_run_ext (r1 r2 : Run bool) log :
  r1 log = r2 log -> of_run r1 log = of_run r2 log.
Proof. unfold of_run. by intros ->. Qed.

Lemma andObservables_cons_ext (o1 o2 : Source JsVal) rest log :
  o1 log = o2 log ->
  andObservables (o1 :: rest) log = andObservables (o2 :: rest) log.
Proof. simpl. by intros ->. Qed.

(** The observable [checkGuards] builds for a check runs the predicates of
    that check, in their listed order. *)
Lemma guardsOf_runAll s log :
  hasRoute s ->
  guardsOf guard s log = of_run (runAll guard (predicatesOf s)) log.
Proof.
  destruct s as [path|comp route]; intros Hs; cbn [guardsOf predicatesOf].
  - destruct (last path) as [node|] eqn:Hlast.
    2:{ apply last_None in Hlast. by destruct Hs. }
    apply of_run_ext. unfold activatePredicates, runAll. rewrite map_app.
    change [of_run (runCanActivate guard node);
            of_run (runCanActivateChild guard path node)]
      with ([of_run (runCanActivate guard node)]
              ++ [of_run (runCanActivateChild guard path node)]).
    transitivity (andObservables
      (of_run (andObservables (map (invoke guard) (ownPredicates node)))
         :: [of_run (runCanActivateChild guard path node)]) log).
    { apply andObservables_cons_ext, of_run_ext, runCanActivate_runAll. }
    rewrite andObservables_nested.
    apply andObservables_app_ext. intros log'.
    transitivity (andObservables
      [of_run (andObservables (map (invoke guard)
         (flat_map (childPredicates node) (rev (removelast path)))))] log').
    { apply andObservables_cons_ext, of_run_ext, runCanActivateChild_runAll. }
    rewrite andObservables_nested. by rewrite app_nil_r.
  - apply of_run_ext, runCanDeactivate_runAll.
Qed.

Lemma checkGuards_runAll checks log :
  Forall hasRoute checks ->
  checkGuards guard checks log = runAll guard (flat_map predicatesOf checks) log.
Proof.
  intros Hwf.
  assert (andObservables (map (guardsOf guard) checks) log
          = runAll guard (flat_map predicatesOf checks) log) as H.
  { revert log. induction Hwf as [|s checks Hs Hwf IH]; intros log; [reflexivity|].
    cbn [map flat_map]. unfold runAll. rewrite map_app.
    transitivity (andObservables
      (of_run (andObservables (map (invoke guard) (predicatesOf s)))
         :: map (guardsOf guard) checks) log).
    { apply andObservables_cons_ext, guardsOf_runAll, Hs. }
    rewrite andObservables_nested. apply andObservables_app_ext, IH. }
  destruct checks; [reflexivity|exact H].
Qed.

Lemma runAll_pass calls log :
  Forall (evaluatesTrue guard) calls ->
  runAll guard calls log = (Ok true, log ++ calls).
Proof.
  intros H. revert log. induction H as [|c calls [Hv Hf] _ IH]; intros log.
  - by rewrite app_nil_r.
  - unfold runAll in *. cbn [map andObservables]. unfold invoke at 1.
    rewrite Hv, Hf, IH, <- app_assoc. reflexivity.
Qed.



(** The calls a run makes extend the calls made before it. *)
Lemma runAll_calls_prefix calls log :
  exists made, snd (runAll guard calls log) = log ++ made /\ made `prefix_of` calls.
Proof.
  revert log. induction calls as [|c calls IH]; intros log.
  - exists []. by rewrite app_nil_r.
  - unfold runAll in *. cbn [map andObservables]. unfold invoke at 1.
    destruct (forallb _ _).
    + destruct (failure _).
      * exists [c]. split; [done|]. by apply prefix_cons, prefix_nil.
      * destruct (IH (log ++ [c])) as (made & -> & Hp).
        exists (c :: made). split; [by rewrite <- app_assoc|by apply prefix_cons].
    + exists [c]. split; [done|]. by apply prefix_cons, prefix_nil.
Qed.


End Guards.
End GuardFacts.

(** ** Outlet registries *)

Section OutletInduction.
Variable P : RouterOutlet -> Prop.
Hypothesis step :
  forall a nested,
    (forall m, nested = Some m -> Forall (fun kv => P (snd kv)) m) ->
    P (mkOutlet a nested).

Lemma RouterOutlet_nested_ind (o : RouterOutlet) : P o.
Proof using P step.
  revert o. fix IH 1. intros [a nested]. apply step.
  destruct nested as [m0|]; intros m Hm; [|discriminate].
  assert (Forall (fun kv => P (snd kv)) m0) as H0.
  { clear Hm. induction m0 as [|[k v] m0 IHm]; constructor; [apply IH|apply IHm]. }
  congruence.
Qed.
End OutletInduction.

Lemma teardown_activated a m :
  teardown (mkOutlet (Some a) (Some m)) = teardownMap m ++ [a].
Proof.
  cbn [teardown]. f_equal. unfold teardownMap.
  induction m as [|[k v] m IH]; [reflexivity|]. cbn [flat_map snd]. by rewrite IH.
Qed.

Lemma registered_activated a m :
  registered (mkOutlet (Some a) (Some m)) <-> registeredMap m.
Proof.
  cbn [registered]. unfold registeredMap.
  induction m as [|[k v] m IH]; [by split; [constructor|]|].
  rewrite Forall_cons. cbn [snd]. by rewrite IH.
Qed.

(** Every activated outlet of a registry is in its teardown. *)
Lemma teardownMap_covers m k o a :
  (k, o) ∈ m -> activated o = Some a -> a ∈ teardownMap m.
Proof.
  intros Hin Ha. unfold teardownMap. apply list_elem_of_In, in_flat_map.
  exists (k, o). split; [by apply list_elem_of_In|]. cbn [snd].
  destruct o as [a' nested]. simpl in Ha. subst a'. apply list_elem_of_In.
  cbn [teardown]. apply elem_of_app. right. by apply list_elem_of_singleton.
Qed.

(** ** The guard-phase diff *)

Module TraverseFacts.
Import PreActivation.
Section Traverse.
Variable live : gmap nat ActivatedRouteSnapshot.

Lemma deactivateOutlet_eq route a nested checks :
  deactivateOutlet live route (mkOutlet a nested) checks
  = match a with
    | None => Ok checks
    | Some (inst, _) =>
        checks' ← deactivateOutletMap live nested checks;
        Ok (checks' ++ [CanDeactivate (Some inst) route])
    end.
Proof.
  destruct a as [[inst ref]|]; [|reflexivity].
  destruct nested as [m|]; [|reflexivity].
  cbn [deactivateOutlet deactivateOutletMap]. f_equal.
  revert checks. induction m as [|[k v] m IH]; intros checks; [reflexivity|].
  cbn [deactivateOutlets]. destruct v as [[[i r]|] n]; cbn [isActivated activated].
  - cbn [outlet_activatedRoute activated fmap option_fmap option_map snd
         deactivateOutletAndItChildren].
    destruct (deactivateOutlet live (live_route live r) _ checks); [apply IH|reflexivity].
  - apply IH.
Qed.

Lemma deactivateOutlets_by_outlet m checks :
  Forall (fun kv => registered (snd kv) -> forall route checks,
            deactivateOutlet live route (snd kv) checks
            = Ok (checks ++ outletChecks live route (snd kv))) m ->
  registeredMap m ->
  deactivateOutlets live m checks = Ok (checks ++ teardownChecks live (teardownMap m)).
Proof.
  intros HP Hm. revert checks.
  induction m as [|[k v] m IH]; intros checks.
  { by rewrite app_nil_r. }
  apply Forall_cons in Hm as [Hv Hm]. apply Forall_cons in HP as [HPv HP].
  cbn [snd] in *. specialize (IH HP Hm). specialize (HPv Hv).
  cbn [deactivateOutlets]. unfold teardownMap. cbn [flat_map snd]. fold (teardownMap m).
  unfold teardownChecks. rewrite map_app. fold (teardownChecks live (teardownMap m)).
  destruct v as [[[inst ref]|] nested]; cbn [isActivated activated].
  - cbn [outlet_activatedRoute activated fmap option_fmap option_map snd
         deactivateOutletAndItChildren].
    rewrite HPv. cbn [mbind Res_bind]. rewrite IH, <- app_assoc. do 2 f_equal.
    destruct nested as [n|]; [|done].
    rewrite teardown_activated, map_app. reflexivity.
  - rewrite IH. reflexivity.
Qed.

Lemma deactivateOutlet_teardown o :
  registered o ->
  forall route checks,
    deactivateOutlet live route o checks = Ok (checks ++ outletChecks live route o).
Proof.
  induction o as [a nested IH] using RouterOutlet_nested_ind.
  intros Ho route checks. rewrite deactivateOutlet_eq.
  destruct a as [[inst ref]|]; [|by rewrite app_nil_r].
  destruct nested as [m|]; [|done].
  apply registered_activated in Ho. cbn [deactivateOutletMap].
  rewrite (deactivateOutlets_by_outlet m checks (IH m eq_refl) Ho).
  cbn [mbind Res_bind outletChecks fst]. by rewrite <- app_assoc.
Qed.

Lemma deactivateOutlets_teardown m checks :
  registeredMap m ->
  deactivateOutlets live m checks = Ok (checks ++ teardownChecks live (teardownMap m)).
Proof.
  intros Hm. apply deactivateOutlets_by_outlet; [|done].
  apply Forall_forall. intros kv _. apply deactivateOutlet_teardown.
Qed.

(** [traverseRoutes], with its two loops folded back into
    [traverseChildRoutes]. *)
Lemma traverseRoutes_eq futureNode currNode pom path checks :
  traverseRoutes live futureNode currNode pom path checks
  = let future := value futureNode in
    match currNode with
    | Some currNode' =>
        let curr := value currNode' in
        if same_routeConfig (_routeConfig future) (_routeConfig curr) then
          checks1 ←
            (if negb (shallowEqual (params future) (params curr)) then
               match slotOutlet pom future with
               | Some o =>
                   Ok (checks ++ [CanDeactivate (outlet_component o) (DSnapshot curr);
                                  CanActivate path])
               | None => Throw TypeError
               end
             else Ok checks);
          traverseChildRoutes live futureNode currNode (childRegistry pom future)
            path checks1
        else
          checks1 ←
            match component curr with
            | Some _ =>
                deactivateOutletAndItChildren live (DSnapshot curr)
                  (slotOutlet pom future) checks
            | None => deactivateOutletMap live pom checks
            end;
          traverseChildRoutes live futureNode None (childRegistry pom future) path
            (checks1 ++ [CanActivate path])
    | None =>
        traverseChildRoutes live futureNode None (childRegistry pom future) path
          (checks ++ [CanActivate path])
    end.
Proof.
  destruct futureNode as [future cs]. cbn [traverseRoutes value].
  unfold traverseChildRoutes, childRegistry, slotOutlet. cbn [children].
  destruct currNode as [[curr ccs]|]; cbn [fmap option_fmap option_map value].
  - destruct (same_routeConfig _ _).
    + destruct (negb _).
      * destruct pom as [m|]; [|reflexivity].
        destruct (assoc_get _ m); [|reflexivity].
        cbn [mbind Res_bind]. by destruct (component future).
      * cbn [mbind Res_bind]. by destruct (component future).
    + destruct (component curr).
      * destruct (deactivateOutletAndItChildren _ _ _ _); [|reflexivity].
        cbn [mbind Res_bind]. by destruct (component future).
      * destruct (deactivateOutletMap _ _ _); [|reflexivity].
        cbn [mbind Res_bind]. by destruct (component future).
  - cbn [mbind Res_bind]. by destruct (component future).
Qed.

(** A reused node with the same parameters records nothing itself. *)
Lemma traverseRoutes_reuse_same_params futureNode currNode pom path checks :
  same_routeConfig (_routeConfig (value futureNode)) (_routeConfig (value currNode)) = true ->
  shallowEqual (params (value futureNode)) (params (value currNode)) = true ->
  traverseRoutes live futureNode (Some currNode) pom path checks
  = traverseChildRoutes live futureNode (Some currNode)
      (childRegistry pom (value futureNode)) path checks.
Proof. intros Hc Hp. rewrite traverseRoutes_eq. cbn zeta. by rewrite Hc, Hp. Qed.

(** A reused node with other parameters and an outlet at its slot records
    the deactivate-check of the old snapshot, then the activate-check of
    the new path. *)
Lemma traverseRoutes_reuse_other_params futureNode currNode pom path checks o :
  same_routeConfig (_routeConfig (value futureNode)) (_routeConfig (value currNode)) = true ->
  shallowEqual (params (value futureNode)) (params (value currNode)) = false ->
  slotOutlet pom (value futureNode) = Some o ->
  traverseRoutes live futureNode (Some currNode) pom path checks
  = traverseChildRoutes live futureNode (Some currNode)
      (childRegistry pom (value futureNode)) path
      (checks ++ [CanDeactivate (outlet_component o) (DSnapshot (value currNode));
                  CanActivate path]).
Proof. intros Hc Hp Ho. rewrite traverseRoutes_eq. cbn zeta. by rewrite Hc, Hp, Ho. Qed.

(** ... and without an outlet at its slot, the diff throws. *)
Lemma traverseRoutes_reuse_no_outlet futureNode currNode pom path checks :
  same_routeConfig (_routeConfig (value futureNode)) (_routeConfig (value currNode)) = true ->
  shallowEqual (params (value futureNode)) (params (value currNode)) = false ->
  slotOutlet pom (value futureNode) = None ->
  traverseRoutes live futureNode (Some currNode) pom path checks = Throw TypeError.
Proof. intros Hc Hp Ho. rewrite traverseRoutes_eq. cbn zeta. by rewrite Hc, Hp, Ho. Qed.

(** Replacing a componentless node records the teardown of the whole
    parent registry before the activate-check. *)
Lemma traverseRoutes_replace_componentless futureNode currNode m path checks :
  same_routeConfig (_routeConfig (value futureNode)) (_routeConfig (value currNode)) = false ->
  component (value currNode) = None ->
  registeredMap m ->
  traverseRoutes live futureNode (Some currNode) (Some m) path checks
  = traverseChildRoutes live futureNode None
      (childRegistry (Some m) (value futureNode)) path
      (checks ++ teardownChecks live (teardownMap m) ++ [CanActivate path]).
Proof.
  intros Hc Hcomp Hm. rewrite traverseRoutes_eq. cbn zeta. rewrite Hc, Hcomp.
  cbn [deactivateOutletMap]. rewrite deactivateOutlets_teardown by done.
  cbn [mbind Res_bind]. by rewrite <- app_assoc.
Qed.

(** Replacing a node with a component records the teardown of its own
    outlet only. *)
Lemma traverseRoutes_replace_component futureNode currNode pom path checks o :
  same_routeConfig (_routeConfig (value futureNode)) (_routeConfig (value currNode)) = false ->
  is_Some (component (value currNode)) ->
  slotOutlet pom (value futureNode) = Some o ->
  registered o ->
  traverseRoutes live futureNode (Some currNode) pom path checks
  = traverseChildRoutes live futureNode None
      (childRegistry pom (value futureNode)) path
      (checks ++ outletChecks live (DSnapshot (value currNode)) o ++ [CanActivate path]).
Proof.
  intros Hc [c Hcomp] Ho Hreg. rewrite traverseRoutes_eq. cbn zeta.
  rewrite Hc, Hcomp, Ho. cbn [deactivateOutletAndItChildren].
  rewrite deactivateOutlet_teardown by done.
  cbn [mbind Res_bind]. by rewrite <- app_assoc.
Qed.

Lemma childLoop_unchanged fcs ccs om path checks :
  Forall (fun f => forall c, sameRoutes f c -> forall pom path checks,
            traverseRoutes live f (Some c) pom path checks = Ok checks) fcs ->
  Forall2 sameRoutes fcs ccs ->
  NoDup (map (fun n => outlet (value n)) ccs) ->
  childLoop live (traverseRoutes live) om path fcs
    (map (fun n => (outlet (value n), n)) ccs) checks
  = Ok checks.
Proof.
  intros HP Hsame. revert HP. induction Hsame as [|f c fcs ccs Hfc Hsame IH];
    intros HP Hnd; [reflexivity|].
  apply Forall_cons in HP as [HPf HP]. cbn [map] in Hnd.
  apply NoDup_cons in Hnd as [Hnin Hnd].
  assert (outlet (value f) = outlet (value c)) as Hout.
  { destruct f, c. by apply sameRoutes_Node in Hfc as (_ & _ & ? & _). }
  cbn [childLoop map assoc_get assoc_del]. rewrite Hout, String.eqb_refl.
  rewrite (HPf c Hfc). cbn [mbind Res_bind].
  rewrite assoc_del_fresh; [by apply IH|].
  by rewrite map_map.
Qed.

(** A tree that is unchanged against the previous one records no check,
    whatever is mounted. *)
Lemma traverseRoutes_unchanged f :
  forall c, sameRoutes f c ->
  forall pom path checks, traverseRoutes live f (Some c) pom path checks = Ok checks.
Proof.
  induction f as [fv fcs IH] using TreeNode_nested_ind.
  intros [cv ccs] Hsame pom path checks.
  pose proof Hsame as (Hc & Hp & Hout & Hnd & Hch)%sameRoutes_Node.
  rewrite traverseRoutes_reuse_same_params by done.
  unfold traverseChildRoutes. cbn [children value].
  rewrite nodeChildrenAsMap_NoDup by done.
  by apply childLoop_unchanged.
Qed.

(** *** Every recorded activate-check has a node *)

Lemma deactivateOutlets_hasRoute m :
  Forall (fun kv => forall route checks checks',
            deactivateOutlet live route (snd kv) checks = Ok checks' ->
            Forall hasRoute checks -> Forall hasRoute checks') m ->
  forall checks checks',
    deactivateOutlets live m checks = Ok checks' ->
    Forall hasRoute checks -> Forall hasRoute checks'.
Proof.
  induction 1 as [|[k v] m HPv _ IH]; intros checks checks'; cbn [deactivateOutlets].
  { by intros [= <-]. }
  destruct (isActivated v); [|apply IH].
  intros (checks1 & H1 & H2)%bind_Ok Hwf.
  eapply IH; [exact H2|]. eapply HPv; [exact H1|done].
Qed.

Lemma deactivateOutlet_hasRoute o :
  forall route checks checks',
    deactivateOutlet live route o checks = Ok checks' ->
    Forall hasRoute checks -> Forall hasRoute checks'.
Proof.
  induction o as [a nested IH] using RouterOutlet_nested_ind.
  intros route checks checks'. rewrite deactivateOutlet_eq.
  destruct a as [[inst ref]|]; [|by intros [= <-]].
  intros (checks1 & H1 & [= <-])%bind_Ok Hwf.
  apply Forall_app. split; [|by repeat constructor].
  destruct nested as [m|]; [|done].
  by eapply (deactivateOutlets_hasRoute m (IH m eq_refl)).
Qed.

Lemma deactivateOutletAndItChildren_hasRoute route o checks checks' :
  deactivateOutletAndItChildren live route o checks = Ok checks' ->
  Forall hasRoute checks -> Forall hasRoute checks'.
Proof.
  destruct o as [o|]; [apply deactivateOutlet_hasRoute|by intros [= <-]].
Qed.

Lemma deactivateOutletMap_hasRoute om checks checks' :
  deactivateOutletMap live om checks = Ok checks' ->
  Forall hasRoute checks -> Forall hasRoute checks'.
Proof.
  destruct om as [m|]; [|done]. apply deactivateOutlets_hasRoute.
  apply Forall_forall. intros kv _. apply deactivateOutlet_hasRoute.
Qed.

Lemma deactivateLeftovers_hasRoute prev om checks checks' :
  deactivateLeftovers live prev om checks = Ok checks' ->
  Forall hasRoute checks -> Forall hasRoute checks'.
Proof.
  revert checks. induction prev as [|[k v] prev IH]; intros checks;
    cbn [deactivateLeftovers]; [by intros [= <-]|].
  destruct om as [m|]; [|done].
  intros (checks1 & H1 & H2)%bind_Ok Hwf.
  eapply IH; [exact H2|]. by eapply deactivateOutletAndItChildren_hasRoute.
Qed.

Lemma childLoop_hasRoute fcs :
  Forall (fun f => forall c pom path checks checks',
            path <> [] ->
            traverseRoutes live f c pom path checks = Ok checks' ->
            Forall hasRoute checks -> Forall hasRoute checks') fcs ->
  forall om path prev checks checks',
    childLoop live (traverseRoutes live) om path fcs prev checks = Ok checks' ->
    Forall hasRoute checks -> Forall hasRoute checks'.
Proof.
  induction 1 as [|f fcs HPf _ IH]; intros om path prev checks checks';
    cbn [childLoop].
  { apply deactivateLeftovers_hasRoute. }
  intros (checks1 & H1 & H2)%bind_Ok Hwf.
  eapply IH; [exact H2|]. eapply HPf; [|exact H1|done]. by destruct path.
Qed.

Lemma traverseRoutes_hasRoute f :
  forall c pom path checks checks',
    path <> [] ->
    traverseRoutes live f c pom path checks = Ok checks' ->
    Forall hasRoute checks -> Forall hasRoute checks'.
Proof.
  induction f as [fv fcs IH] using TreeNode_nested_ind.
  intros c pom path checks checks' Hpath. rewrite traverseRoutes_eq. cbn zeta.
  unfold traverseChildRoutes. cbn [children value].
  pose proof (childLoop_hasRoute fcs IH) as Hloop.
  assert (Forall hasRoute [CanActivate path]) as Hact by (by repeat constructor).
  destruct c as [c|].
  - destruct (same_routeConfig _ _).
    + intros (checks1 & H1 & H2)%bind_Ok Hwf. eapply Hloop; [exact H2|].
      destruct (negb _); [|by simplify_eq].
      destruct (slotOutlet pom fv); [|done]. simplify_eq.
      apply Forall_app. split; [done|]. by repeat constructor.
    + intros (checks1 & H1 & H2)%bind_Ok Hwf. eapply Hloop; [exact H2|].
      apply Forall_app. split; [|done].
      destruct (component (value c)).
      * by eapply deactivateOutletAndItChildren_hasRoute.
      * by eapply deactivateOutletMap_hasRoute.
  - intros H Hwf. eapply Hloop; [exact H|]. apply Forall_app. by split.
Qed.

(** The checks of [traverse] are ones [checkGuards] finds a node for. *)
Lemma traverse_hasRoute future curr om checks :
  traverse live future curr om = Ok checks -> Forall hasRoute checks.
Proof.
  unfold traverse, traverseChildRoutes. intros H.
  eapply (childLoop_hasRoute (children (snap_root future))); [|exact H|constructor].
  apply Forall_forall. intros f _. apply traverseRoutes_hasRoute.
Qed.
End Traverse.
End TraverseFacts.

(** ** The checks that are run *)

Module CheckFacts.
Import PreActivation.
Section Checks.
Variable guard : GuardCall -> Notifs JsVal.


(** C8: an activate-check for a node reached through [ancestors] (root
    first) runs the node's own can-activate predicates and then the
    can-activate-child predicates of the strict ancestors, nearest ancestor
    first, each ancestor with its whole list; the node itself contributes
    no can-activate-child predicate. *)
Theorem activate_check_runs_own_then_ancestors ancestors node log :
  guardsOf guard (CanActivate (ancestors ++ [node])) log
  = of_run (runAll guard
              (ownPredicates node ++ flat_map (childPredicates node) (rev ancestors))) log
  /\ (Forall (evaluatesTrue guard)
        (ownPredicates node ++ flat_map (childPredicates node) (rev ancestors)) ->
      snd (guardsOf guard (CanActivate (ancestors ++ [node])) log)
      = log ++ ownPredicates node ++ flat_map (childPredicates node) (rev ancestors))
  /\ exists made,
       snd (guardsOf guard (CanActivate (ancestors ++ [node])) log) = log ++ made
       /\ made `prefix_of`
            (ownPredicates node ++ flat_map (childPredicates node) (rev ancestors)).
Proof.
  assert (guardsOf guard (CanActivate (ancestors ++ [node])) log
          = of_run (runAll guard
              (ownPredicates node ++ flat_map (childPredicates node) (rev ancestors))) log)
    as Heq.
  { rewrite GuardFacts.guardsOf_runAll by (simpl; by destruct ancestors).
    cbn [predicatesOf]. rewrite last_snoc, removelast_last. reflexivity. }
  split; [exact Heq|]. rewrite Heq. unfold of_run. split.
  - intros H. by rewrite GuardFacts.runAll_pass.
  - destruct (GuardFacts.runAll_calls_prefix guard
      (ownPredicates node ++ flat_map (childPredicates node) (rev ancestors)) log)
      as (made & Hm & Hp).
    exists made. split; [|done].
    destruct (runAll guard _ log) as [[b|e] log']; exact Hm.
Qed.
End Checks.
End CheckFacts.

(** ** The commit-phase diff *)

Lemma emits_nil w : emits [] w = w.
Proof. destruct w. unfold emits. simpl. by rewrite app_nil_r. Qed.

Lemma emits_emits ops1 ops2 w : emits ops2 (emits ops1 w) = emits (ops1 ++ ops2) w.
Proof. unfold emits. simpl. by rewrite app_assoc. Qed.

Lemma emit_emits op ops w : emit op (emits ops w) = emits (ops ++ [op]) w.
Proof. unfold emit, emits. simpl. by rewrite app_assoc. Qed.

Module ActivateFacts.
Import ActivateRoutes.
Section Activate.
Variable template : Component -> list string.
Variable PRIMARY_OUTLET : string.

Lemma commit_deactivateOutlet_eq a nested w :
  deactivateOutlet (mkOutlet a nested) w
  = match a with
    | None => (mkOutlet a nested, w, None)
    | Some (inst, ref) =>
        match nested with
        | None => (mkOutlet a nested, w, Some TypeError)
        | Some m =>
            let '(m', w', e) := deactivateOutlets m w in
            match e with
            | Some _ => (mkOutlet (Some (inst, ref)) (Some m'), w', e)
            | None => (mkOutlet None None, emit (OpDeactivate inst) w', None)
            end
        end
    end.
Proof.
  destruct a as [[inst ref]|]; [|reflexivity].
  destruct nested as [m|]; [|reflexivity].
  cbn [deactivateOutlet].
  reflexivity.
Qed.

Lemma commit_deactivateOutlets_by_outlet m w :
  Forall (fun kv => registered (snd kv) -> forall w,
            deactivateOutlet (snd kv) w
            = (vacate (snd kv), emits (unmounts (teardown (snd kv))) w, None)) m ->
  registeredMap m ->
  deactivateOutlets m w
  = (map (fun kv => (fst kv, vacate (snd kv))) m, emits (unmounts (teardownMap m)) w, None).
Proof.
  intros HP Hm. revert w. induction m as [|[k v] m IH]; intros w.
  { cbn. by rewrite emits_nil. }
  apply Forall_cons in Hm as [Hv Hm]. apply Forall_cons in HP as [HPv HP].
  cbn [snd] in *. specialize (IH HP Hm). specialize (HPv Hv).
  cbn [deactivateOutlets]. rewrite HPv, IH. cbn [map fst snd].
  unfold teardownMap. cbn [flat_map snd]. unfold unmounts.
  by rewrite map_app, emits_emits.
Qed.

(** The teardown of an outlet unmounts what is mounted below it, deepest
    first, and its own component last. *)
Lemma commit_deactivateOutlet_teardown o :
  registered o ->
  forall w,
    deactivateOutlet o w = (vacate o, emits (unmounts (teardown o)) w, None).
Proof.
  induction o as [a nested IH] using RouterOutlet_nested_ind.
  intros Ho w. rewrite commit_deactivateOutlet_eq.
  destruct a as [[inst ref]|].
  2:{ cbn. by rewrite emits_nil. }
  destruct nested as [m|]; [|done].
  apply registered_activated in Ho.
  rewrite (commit_deactivateOutlets_by_outlet m w (IH m eq_refl) Ho).
  rewrite teardown_activated. unfold unmounts. rewrite map_app, emit_emits.
  reflexivity.
Qed.

Lemma commit_deactivateOutlets_teardown m w :
  registeredMap m ->
  deactivateOutlets m w
  = (map (fun kv => (fst kv, vacate (snd kv))) m, emits (unmounts (teardownMap m)) w, None).
Proof.
  intros Hm. apply commit_deactivateOutlets_by_outlet; [|done].
  apply Forall_forall. intros kv _. apply commit_deactivateOutlet_teardown.
Qed.



(** Replacing a componentless live route tears the whole parent registry
    down before anything is mounted. *)
Lemma activateRoutes_replace_componentless futureNode currNode m w :
  ar_ref (value futureNode) <> ar_ref (value currNode) ->
  ar_component (value currNode) = None ->
  registeredMap m ->
  activateRoutes template PRIMARY_OUTLET futureNode (Some currNode) (Some m) w
  = activateRoutes template PRIMARY_OUTLET futureNode None
      (Some (map (fun kv => (fst kv, vacate (snd kv))) m))
      (emits (unmounts (teardownMap m)) w).
Proof.
  destruct futureNode as [future cs]. destruct currNode as [curr ccs].
  cbn [value]. intros Href Hcomp Hm.
  cbn [activateRoutes fmap option_fmap option_map value].
  apply Nat.eqb_neq in Href. rewrite Href, Hcomp.
  cbn [deactivateOutletMap]. rewrite commit_deactivateOutlets_teardown by done.
  reflexivity.
Qed.




Lemma getOutlet_Ok pom route o :
  getOutlet PRIMARY_OUTLET pom route = Ok o ->
  exists m, pom = Some m /\ assoc_get (ar_outlet route) m = Some o.
Proof.
  unfold getOutlet. destruct pom as [m|]; [|done].
  destruct (assoc_get _ m) as [o'|] eqn:Ho.
  - intros [= ->]. eauto.
  - destruct (ar_component route); [|done]. by destruct (String.eqb _ _).
Qed.


End Activate.
End ActivateFacts.

(** ** The navigation pipeline *)

Module RouterFacts.
Import Router.
Section Router.
Context {UrlTree : Type}.
Variable C : Collaborators UrlTree.
Implicit Types (n : Navigation UrlTree) (r : Router UrlTree) (s : System UrlTree).

Ltac branches :=
  cbn [negb orb];
  repeat match goal with
    | |- context [PreActivation.traverse ?a ?b ?c ?d] =>
        destruct (PreActivation.traverse a b c d) eqn:?
    | |- context [PreActivation.checkGuards ?a ?b ?c] =>
        destruct (PreActivation.checkGuards a b c) eqn:?
    | |- context [Nat.eqb ?a ?b] => destruct (Nat.eqb a b) eqn:?
    | |- context [ActivateRoutes.activate ?a ?b ?c ?d ?e ?f] =>
        destruct (ActivateRoutes.activate a b c d e f) as [[? ?] [?|]] eqn:?
    | |- context [nav_preventPushState ?n] => destruct (nav_preventPushState n) eqn:?
    | |- context [isCurrentPathEqualTo ?p ?l] => destruct (isCurrentPathEqualTo p l) eqn:?
    end;
  cbn [negb orb fst snd setPhase nav_phase nav_id nav_url next setLocation setCurrent
       currentUrlTree currentRouterState navigationId routerEvents location outletMap
       world guardCalls current].

Ltac by_stage n :=
  unfold step, forEachCallback;
  destruct (nav_phase n)
    as [|? ? [[?|?]|? [?|?]|? [?|?]|? ? ? [[|]|?]|? ? [?|?]|? ?|?]|?] eqn:?;
  branches.

Lemma step_nav_id n r : nav_id (fst (step C n r)) = nav_id n.
Proof. by_stage n; reflexivity. Qed.

Lemma step_nav_url n r : nav_url (fst (step C n r)) = nav_url n.
Proof. by_stage n; reflexivity. Qed.

Lemma step_navigationId n r : navigationId (snd (step C n r)) = navigationId r.
Proof. by_stage n; reflexivity. Qed.




Lemma step_entry_superseded n r :
  nav_phase n = Scheduled ->
  nav_id n <> navigationId r ->
  step C n r
  = (setPhase (Done (Resolved false)) n,
     next (NavigationCancel (nav_id n) (serializeUrl C (nav_url n)))
       (setLocation (go (serializeUrl C (currentUrlTree r)) (location r)) r)).
Proof.
  intros Hn Hid. unfold step. apply Nat.eqb_neq in Hid. by rewrite Hn, Hid.
Qed.

(** A stage that fails hands the cause to the rejection handler. *)
Lemma step_failsWith n r ss su stage e :
  nav_phase n = Running ss su stage ->
  failsWith C n r = Some e ->
  nav_phase (fst (step C n r)) = Running ss su (ForEachRejected e)
  /\ routerEvents (snd (step C n r)) = routerEvents r
  /\ guardCalls (snd (step C n r)) = guardCalls r
  /\ location (snd (step C n r)) = location r
  /\ (current (snd (step C n r)) = current r
      \/ exists u state d,
           stage = ResolvingData u state (Ok d)
           /\ current (snd (step C n r)) = (state, u)).
Proof.
  intros Hn. unfold failsWith. by_stage n; intros Hf; simplify_eq;
    cbn [snd] in *; simplify_eq; repeat split; eauto 10.
Qed.

(** The rejection handler. *)
Lemma step_rejecting n r ss su e :
  nav_phase n = Running ss su (ForEachRejected e) ->
  step C n r
  = (setPhase (Done (Rejected e)) n,
     next (NavigationError (nav_id n) (serializeUrl C (nav_url n)) e)
       (setCurrent ss su r)).
Proof. intros Hn. unfold step. by rewrite Hn. Qed.

(** The fulfilment handler. *)
Lemma step_fulfilled n r ss su u b :
  nav_phase n = Running ss su (ForEachResolved u b) ->
  step C n r
  = (setPhase (Done (Resolved b)) n,
     next (NavigationEnd (nav_id n) (serializeUrl C (nav_url n)) (serializeUrl C u)) r).
Proof. intros Hn. unfold step. by rewrite Hn. Qed.

(** A guard check that delivers [false]. *)
Lemma step_guard_denied n r ss su u state checks :
  nav_phase n = Running ss su (Guarding u state checks (Ok false)) ->
  step C n r
  = (setPhase (Running ss su (ForEachResolved u false)) n,
     next (NavigationCancel (nav_id n) (serializeUrl C (nav_url n))) r).
Proof. intros Hn. unfold step, forEachCallback. by rewrite Hn. Qed.












(** C1: when the guard check of a navigation delivers [false], the
    callback of [forEach] emits [NavigationCancel] with the attempted URL
    and leaves the authoritative pair and the location alone, and the
    promise resolves to [false]; but the fulfilment handler that resolves
    it emits [NavigationEnd] for that navigation as well. *)
Theorem guard_denial_cancels_and_emits_NavigationEnd n r r2 ss su u state checks :
  nav_phase n = Running ss su (Guarding u state checks (Ok false)) ->
  let n1 := fst (step C n r) in
  let r1 := snd (step C n r) in
  nav_phase n1 = Running ss su (ForEachResolved u false)
  /\ current r1 = current r
  /\ location r1 = location r
  /\ routerEvents r1
     = routerEvents r ++ [NavigationCancel (nav_id n) (serializeUrl C (nav_url n))]
  /\ nav_phase (fst (step C n1 r2)) = Done (Resolved false)
  /\ current (snd (step C n1 r2)) = current r2
  /\ routerEvents (snd (step C n1 r2))
     = routerEvents r2
         ++ [NavigationEnd (nav_id n) (serializeUrl C (nav_url n)) (serializeUrl C u)].
Proof.
  intros Hn. cbn zeta. rewrite (step_guard_denied n r ss su u state checks Hn).
  cbn [fst snd]. repeat split.
  all: by rewrite (step_fulfilled _ r2 ss su u false eq_refl).
Qed.


(** C3, as amended: a turn of a navigation calls the location in two cases
    only.  A navigation found superseded at the entry of its pipeline calls
    [go] with the serialized current URL.  A navigation that commits calls,
    unless it was asked not to push state, [replaceState] when the
    serialized applied URL is the current path of the location and [go]
    otherwise.  Every other turn (a guard denial, a navigation found
    superseded right before the commit, a failing stage, the handlers that
    settle the promise) leaves the location alone. *)
Theorem location_updates n r :
  let n' := fst (step C n r) in
  let r' := snd (step C n r) in
  (nav_phase n = Scheduled -> nav_id n <> navigationId r ->
   location r' = go (serializeUrl C (currentUrlTree r)) (location r))
  /\ (forall ss su u,
        commits n n' -> nav_phase n' = Running ss su (ForEachResolved u true) ->
        location r'
        = if nav_preventPushState n then location r
          else if isCurrentPathEqualTo (serializeUrl C u) (location r)
               then replaceState (serializeUrl C u) (location r)
               else go (serializeUrl C u) (location r))
  /\ (~ (nav_phase n = Scheduled /\ nav_id n <> navigationId r) ->
      ~ commits n n' ->
      location r' = location r).
Proof.
  cbn zeta. split; [|split].
  - intros Hn Hid. by rewrite step_entry_superseded.
  - intros ss su u. unfold commits.
    by_stage n; intros Hc Hn'; simplify_eq; try done; congruence.
  - unfold commits. by_stage n; intros H1 H2; simplify_eq; try done.
    destruct H1. split; [done|]. by apply Nat.eqb_neq.
Qed.


(** C10: where a node reuses the previous node of its slot (the same route
    config) with other parameters, the guard-phase diff reads the component
    of the outlet of the parent outlet map at that slot without checking
    that there is one: when the parent outlet map is null or has no outlet
    at the slot, [traverseRoutes] throws and records nothing; and a diff
    that throws puts the navigation on its rejection path, with no guard
    run and an error event instead of a guard verdict. *)
Theorem reused_node_without_outlet_throws :
  (forall live futureNode currNode pom path checks,
     same_routeConfig (_routeConfig (value futureNode))
       (_routeConfig (value currNode)) = true ->
     shallowEqual (params (value futureNode)) (params (value currNode)) = false ->
     PreActivation.slotOutlet pom (value futureNode) = None ->
     PreActivation.traverseRoutes live futureNode (Some currNode) pom path checks
     = Throw TypeError)
  /\ (forall n r r2 ss su u snapshot e,
        nav_phase n = Running ss su (Resolving u (Ok snapshot)) ->
        PreActivation.traverse (w_live (world r))
          (rs_snapshot (createRouterState C snapshot (currentRouterState r)))
          (Some (rs_snapshot (currentRouterState r))) (Some (outletMap r))
        = Throw e ->
        nav_phase (fst (step C n r)) = Running ss su (ForEachRejected e)
        /\ guardCalls (snd (step C n r)) = guardCalls r
        /\ nav_phase (fst (step C (fst (step C n r)) r2)) = Done (Rejected e)
        /\ routerEvents (snd (step C (fst (step C n r)) r2))
           = routerEvents r2
               ++ [NavigationError (nav_id n) (serializeUrl C (nav_url n)) e]).
Proof.
  split; [exact TraverseFacts.traverseRoutes_reuse_no_outlet|].
  intros n r r2 ss su u snapshot e Hn Ht.
  assert (failsWith C n r = Some e) as Hf.
  { unfold failsWith. by rewrite Hn, Ht. }
  destruct (step_failsWith n r ss su _ e Hn Hf) as (H1 & _ & H2 & _).
  repeat split; [done..| |].
  - by rewrite (step_rejecting _ r2 ss su e H1).
  - rewrite (step_rejecting _ r2 ss su e H1). cbn.
    by rewrite step_nav_id, step_nav_url.
Qed.
End Router.
End RouterFacts.

(** ** The two diffs, node by node *)

Module DiffFacts.
Section Diff.
Variable live : gmap nat ActivatedRouteSnapshot.
Variable template : Component -> list string.
Variable PRIMARY_OUTLET : string.


(** C6: a node that reuses the previous node of its slot with other
    parameters, and has an outlet at its slot, records the deactivate-check
    of the old snapshot and right after it the activate-check of its path
    from the root, and nothing else of its own; without an outlet at the
    slot the diff throws, as it does from /group/1 to /group/2, where the
    componentless group route is reused under a root view without primary
    outlet, and from /team/33/user/11 to /team/33/user/22 under a team view
    that has no outlet. *)
Theorem reused_node_other_params_checks :
  (forall futureNode currNode pom path checks o,
     same_routeConfig (_routeConfig (value futureNode))
       (_routeConfig (value currNode)) = true ->
     shallowEqual (params (value futureNode)) (params (value currNode)) = false ->
     PreActivation.slotOutlet pom (value futureNode) = Some o ->
     PreActivation.traverseRoutes live futureNode (Some currNode) pom path checks
     = PreActivation.traverseChildRoutes live futureNode (Some currNode)
         (PreActivation.childRegistry pom (value futureNode)) path
         (checks ++ [CanDeactivate (outlet_component o) (DSnapshot (value currNode));
                     CanActivate path]))
  /\ PreActivation.traverse Scenario.liveGroup1
       (Scenario.stateSnapshot (Scenario.groupPanel "2"))
       (Some (Scenario.stateSnapshot (Scenario.groupPanel "1")))
       (Some Scenario.mountedGroup)
     = Throw TypeError
  /\ PreActivation.traverse Scenario.live11
       (Scenario.stateSnapshot (Scenario.teamUser "22"))
       (Some (Scenario.stateSnapshot (Scenario.teamUser "11")))
       (Some Scenario.mountedWithoutUserOutlet)
     = Throw TypeError.
Proof.
  split; [apply TraverseFacts.traverseRoutes_reuse_other_params|].
  split; vm_compute; reflexivity.
Qed.

(** C7: where the previous node of a slot is not reused and was
    componentless, the guard-phase diff records the teardown of the whole
    parent registry before the activate-check of the new node, where a
    previous node with a component has the teardown of the outlet at its
    slot only: every activated outlet of the registry is in the teardown,
    and the components mounted below an outlet come before the outlet's
    own.  The commit-phase
    teardown of an outlet unmounts in the same order, nested registries
    first and the outlet itself last, and the commit-phase diff tears the
    whole parent registry down in that case too. *)
Theorem componentless_replacement_tears_down_registry :
  (forall futureNode currNode m path checks,
     same_routeConfig (_routeConfig (value futureNode))
       (_routeConfig (value currNode)) = false ->
     component (value currNode) = None ->
     registeredMap m ->
     PreActivation.traverseRoutes live futureNode (Some currNode) (Some m) path checks
     = PreActivation.traverseChildRoutes live futureNode None
         (PreActivation.childRegistry (Some m) (value futureNode)) path
         (checks ++ PreActivation.teardownChecks live (teardownMap m)
            ++ [CanActivate path]))
  /\ (forall futureNode currNode pom path checks o,
        same_routeConfig (_routeConfig (value futureNode))
          (_routeConfig (value currNode)) = false ->
        is_Some (component (value currNode)) ->
        PreActivation.slotOutlet pom (value futureNode) = Some o ->
        registered o ->
        PreActivation.traverseRoutes live futureNode (Some currNode) pom path checks
        = PreActivation.traverseChildRoutes live futureNode None
            (PreActivation.childRegistry pom (value futureNode)) path
            (checks ++ PreActivation.outletChecks live (DSnapshot (value currNode)) o
               ++ [CanActivate path]))
  /\ (forall m k o a, (k, o) ∈ m -> activated o = Some a -> a ∈ teardownMap m)
  /\ (forall a m, teardown (mkOutlet (Some a) (Some m)) = teardownMap m ++ [a])
  /\ (forall o w,
        registered o ->
        ActivateRoutes.deactivateOutlet o w
        = (vacate o, emits (unmounts (teardown o)) w, None))
  /\ (forall futureNode currNode m w,
        ar_ref (value futureNode) <> ar_ref (value currNode) ->
        ar_component (value currNode) = None ->
        registeredMap m ->
        ActivateRoutes.activateRoutes template PRIMARY_OUTLET futureNode
          (Some currNode) (Some m) w
        = ActivateRoutes.activateRoutes template PRIMARY_OUTLET futureNode None
            (Some (map (fun kv => (fst kv, vacate (snd kv))) m))
            (emits (unmounts (teardownMap m)) w)).
Proof.
  split; [apply TraverseFacts.traverseRoutes_replace_componentless|].
  split; [apply TraverseFacts.traverseRoutes_replace_component|].
  split; [apply teardownMap_covers|].
  split; [apply teardown_activated|].
  split; [intros o w Ho; by apply ActivateFacts.commit_deactivateOutlet_teardown|].
  apply ActivateFacts.activateRoutes_replace_componentless.
Qed.
End Diff.
End DiffFacts.

(** ** The scenario, run *)

Module ScenarioFacts.
Import Scenario Router.

Example traverse_11_to_22 :
  PreActivation.traverse live11 (stateSnapshot (teamUser "22"))
    (Some (stateSnapshot (teamUser "11"))) (Some mounted11)
  = Ok [CanDeactivate (Some 11) (DSnapshot (user "11"));
        CanActivate [root; team "33"; user "22"]].
Proof. vm_compute. reflexivity. Qed.

Example first_navigation_mounts :
  let s := exec (collaborators allowAll)
             (Navigate "/team/33/user/11" false :: turns 0 7) start in
  (nav_phase <$> navigations s !! 0) = Some (Done (Resolved true))
  /\ currentUrlTree (router s) = "/team/33/user/11"
  /\ outletMap (router s) = mounted11
  /\ w_live (world (router s)) = live11
  /\ w_ops (world (router s))
     = [OpAdvance 0; OpAdvance 1; OpActivate 1 "TeamCmp" 10;
        OpAdvance 2; OpActivate 2 "UserCmp" 11]
  /\ loc_calls (location (router s)) = [LocGo "/team/33/user/11"].
Proof. vm_compute. repeat split. Qed.

Example second_navigation_advances :
  let s := exec (collaborators allowAll)
             ((Navigate "/team/33/user/11" false :: turns 0 7)
                ++ Navigate "/team/33/user/22" false :: turns 1 7) start in
  (nav_phase <$> navigations s !! 1) = Some (Done (Resolved true))
  /\ currentUrlTree (router s) = "/team/33/user/22"
  /\ outletMap (router s) = mounted11
  /\ w_ops (world (router s))
     = [OpAdvance 0; OpAdvance 1; OpActivate 1 "TeamCmp" 10;
        OpAdvance 2; OpActivate 2 "UserCmp" 11;
        OpAdvance 0; OpAdvance 1; OpAdvance 2]
  /\ guardCalls (router s)
     = [PreActivation.CallCanActivate "Auth" (user "11");
        PreActivation.CallCanActivate "Deny" (user "11");
        PreActivation.CallCanActivate "Late" (user "11");
        PreActivation.CallCanActivateChild "TeamChildGuard" (user "11");
        PreActivation.CallCanDeactivate "Leave" (Some 11) (user "11");
        PreActivation.CallCanActivate "Auth" (user "22");
        PreActivation.CallCanActivate "Deny" (user "22");
        PreActivation.CallCanActivate "Late" (user "22");
        PreActivation.CallCanActivateChild "TeamChildGuard" (user "22")].
Proof. vm_compute. repeat split. Qed.

Example navigate_denied :
  let s := exec (collaborators denying)
             (Navigate "/team/33/user/22" false :: turns 0 6) start in
  (nav_phase <$> navigations s !! 0) = Some (Done (Resolved false))
  /\ eventsOf 1 (routerEvents (router s))
     = [NavigationStart 1 "/team/33/user/22";
        RoutesRecognized 1 "/team/33/user/22" "/team/33/user/22"
          (stateSnapshot (teamUser "22"));
        NavigationCancel 1 "/team/33/user/22";
        NavigationEnd 1 "/team/33/user/22" "/team/33/user/22"]
  /\ currentUrlTree (router s) = "".
Proof. vm_compute. repeat split. Qed.

Lemma guard_denial_witness :
  nav_phase (fst (step (collaborators denying) denied at11))
  = Running (liveState (teamUser "11")) "/team/33/user/11"
      (ForEachResolved "/team/33/user/22" false)
  /\ routerEvents (snd (step (collaborators denying) denied at11))
     = [NavigationCancel 2 "/team/33/user/22"]
  /\ routerEvents
       (snd (step (collaborators denying)
               (fst (step (collaborators denying) denied at11)) at11))
     = [NavigationEnd 2 "/team/33/user/22" "/team/33/user/22"].
Proof.
  destruct (RouterFacts.guard_denial_cancels_and_emits_NavigationEnd
              (collaborators denying) denied at11 at11 _ _ _ _ _ eq_refl)
    as (H1 & _ & _ & H4 & _ & _ & H7).
  split; [exact H1|]. split; [exact H4|exact H7].
Defined.



(** The counterexample to C3 as stated: of two navigations issued back to
    back, the first is canceled at the entry of its pipeline, and the
    location is told to go to the current URL. *)
Lemma superseded_navigation_calls_go :
  (nav_phase <$> navigations (exec (collaborators allowAll) (turns 0 1) twoIssued) !! 0)
  = Some (Done (Resolved false))
  /\ eventsOf 1 (routerEvents (router (exec (collaborators allowAll) (turns 0 1) twoIssued)))
     = [NavigationStart 1 "/team/33/user/11"; NavigationCancel 1 "/team/33/user/11"]
  /\ loc_calls (location (router twoIssued)) = []
  /\ loc_calls (location (router (exec (collaborators allowAll) (turns 0 1) twoIssued)))
     = [LocGo ""].
Proof. vm_compute. repeat split. Qed.

Lemma location_updates_witness :
  location (snd (step (collaborators allowAll) first (router twoIssued)))
  = go "" (location (router twoIssued)).
Proof.
  apply (proj1 (RouterFacts.location_updates (collaborators allowAll) first
                  (router twoIssued))).
  - reflexivity.
  - vm_compute. lia.
Defined.



Lemma reused_user_witness :
  PreActivation.traverseRoutes live11 (Node (user "22") []) (Some (Node (user "11") []))
    (Some [("primary", userOutlet)]) [root; team "33"; user "22"] []
  = PreActivation.traverseChildRoutes live11 (Node (user "22") [])
      (Some (Node (user "11") [])) (Some []) [root; team "33"; user "22"]
      checks22.
Proof.
  apply (proj1 (DiffFacts.reused_node_other_params_checks live11)
           (Node (user "22") []) (Node (user "11") [])
           (Some [("primary", userOutlet)]) [root; team "33"; user "22"] []
           userOutlet).
  - reflexivity.
  - vm_compute. reflexivity.
  - reflexivity.
Defined.

Lemma componentless_replacement_witness :
  PreActivation.traverseRoutes live11 (Node home [])
    (Some (Node (group "1") [Node (team "33") [Node (user "11") []]]))
    (Some mounted11) [root; home] []
  = PreActivation.traverseChildRoutes live11 (Node home []) None
      (Some [("primary", userOutlet)]) [root; home]
      [CanDeactivate (Some 11) (DSnapshot (user "11"));
       CanDeactivate (Some 10) (DSnapshot (team "33"));
       CanActivate [root; home]].
Proof.
  apply (proj1 (DiffFacts.componentless_replacement_tears_down_registry live11
                  (fun _ => []) "primary")
           (Node home []) (Node (group "1") [Node (team "33") [Node (user "11") []]])
           mounted11 [root; home] []).
  - reflexivity.
  - reflexivity.
  - repeat constructor.
Defined.

Lemma activate_check_witness :
  snd (PreActivation.guardsOf allowAll (CanActivate ([root; team "33"] ++ [user "22"])) [])
  = [PreActivation.CallCanActivate "Auth" (user "22");
     PreActivation.CallCanActivate "Deny" (user "22");
     PreActivation.CallCanActivate "Late" (user "22");
     PreActivation.CallCanActivateChild "TeamChildGuard" (user "22")].
Proof.
  apply (proj1 (proj2 (CheckFacts.activate_check_runs_own_then_ancestors allowAll
                         [root; team "33"] (user "22") []))).
  repeat constructor.
Defined.


Lemma missing_outlet_witness :
  PreActivation.traverseRoutes live11 (Node (user "22") []) (Some (Node (user "11") []))
    (Some []) [root; team "33"; user "22"] []
  = Throw TypeError
  /\ nav_phase (fst (step (collaborators allowAll) resolvedGroup2 atGroup1))
     = Running (liveState (groupPanel "1")) "/group/1" (ForEachRejected TypeError)
  /\ guardCalls (snd (step (collaborators allowAll) resolvedGroup2 atGroup1)) = [].
Proof.
  destruct (RouterFacts.reused_node_without_outlet_throws (collaborators allowAll))
    as [Hnode Hnav].
  split.
  - apply Hnode; [reflexivity|vm_compute; reflexivity|reflexivity].
  - destruct (Hnav resolvedGroup2 atGroup1 atGroup1
                _ _ _ _ TypeError eq_refl ltac:(vm_compute; reflexivity)) as (H1 & H2 & _).
    split; [exact H1|exact H2].
Defined.
End ScenarioFacts.

(** * Further properties

    Properties of the helpers of the two diffs, of fresh activations, of the
    outlet registry and of the navigations of a router, read off the code. *)

(** ** The dictionary of the children of a node *)

Section ChildrenFacts.
Context {V : Type}.
Implicit Types (m : list (string * V)) (k : string).

Lemma assoc_get_set_ne k k' (v : V) m :
  k <> k' -> assoc_get k (assoc_set k' v m) = assoc_get k m.
Proof.
  intros Hne. induction m as [|[k0 v0] m IH]; simpl.
  - by destruct (String.eqb_spec k k').
  - destruct (String.eqb_spec k' k0) as [->|]; simpl.
    + by destruct (String.eqb_spec k k0).
    + by destruct (String.eqb_spec k k0).
Qed.

Lemma assoc_set_keys k (v : V) m x :
  x ∈ map fst (assoc_set k v m) -> x = k \/ x ∈ map fst m.
Proof.
  induction m as [|[k0 v0] m IH]; simpl.
  - intros ->%list_elem_of_singleton. by left.
  - destruct (String.eqb_spec k k0) as [->|]; simpl.
    + intros [->|?]%elem_of_cons; [by left|]. right. by apply elem_of_cons; right.
    + intros [->|?]%elem_of_cons; [right; by apply elem_of_cons; left|].
      destruct IH as [->|?]; [done|by left|]. right. by apply elem_of_cons; right.
Qed.

Lemma assoc_set_keys_NoDup k (v : V) m :
  NoDup (map fst m) -> NoDup (map fst (assoc_set k v m)).
Proof.
  induction m as [|[k0 v0] m IH]; simpl.
  - intros _. apply NoDup_singleton.
  - intros [Hnin Hnd]%NoDup_cons. destruct (String.eqb_spec k k0) as [->|Hne]; simpl.
    + by apply NoDup_cons.
    + apply NoDup_cons. split; [|by apply IH].
      intros [->|?]%assoc_set_keys; done.
Qed.

Lemma assoc_set_keys_same k (v : V) m :
  k ∈ map fst m -> map fst (assoc_set k v m) = map fst m.
Proof.
  induction m as [|[k0 v0] m IH]; simpl.
  - by intros ?%elem_of_nil.
  - destruct (String.eqb_spec k k0) as [->|Hne]; simpl; [done|].
    intros [->|?]%elem_of_cons; [done|]. f_equal. by apply IH.
Qed.

Lemma assoc_get_keys k m : is_Some (assoc_get k m) <-> k ∈ map fst m.
Proof.
  induction m as [|[k0 v0] m IH]; simpl.
  - split; [by intros [? ?]|by intros ?%elem_of_nil].
  - destruct (String.eqb_spec k k0) as [->|Hne].
    + split; [intros _; by apply elem_of_cons; left|by eauto].
    + rewrite IH, elem_of_cons. intuition congruence.
Qed.
End ChildrenFacts.

(** X1.  [nodeChildrenAsMap] keeps, for every outlet name, the last child of
    the node that goes to that outlet, and lists every name once: of two
    children in the same outlet only the later one is seen by the diffs. *)
Theorem nodeChildrenAsMap_keeps_last_child {A} (outletOf : A -> string)
    (node : TreeNode A) (k : string) :
  assoc_get k (nodeChildrenAsMap outletOf (Some node))
  = last (filter (fun c => outletOf (value c) = k) (children node))
  /\ NoDup (map fst (nodeChildrenAsMap outletOf (Some node))).
Proof.
  destruct node as [v cs]. cbn [nodeChildrenAsMap children].
  induction cs as [|c cs [IH1 IH2]] using rev_ind; [split; [done|constructor]|].
  rewrite foldl_app, filter_app. cbn [foldl]. split.
  - destruct (decide (outletOf (value c) = k)) as [<-|Hne].
    + rewrite assoc_get_set, filter_cons_True by done. by rewrite filter_nil, last_snoc.
    + rewrite assoc_get_set_ne, filter_cons_False by done.
      by rewrite filter_nil, app_nil_r.
  - by apply assoc_set_keys_NoDup.
Qed.

(** ** Conjunction of observables *)

Lemma andObservables_app (xs ys : list (PreActivation.Source JsVal))
    (log : list PreActivation.GuardCall) :
  PreActivation.andObservables (xs ++ ys) log
  = match PreActivation.andObservables xs log with
    | (Ok true, log') => PreActivation.andObservables ys log'
    | stopped => stopped
    end.
Proof.
  revert log. induction xs as [|o xs IH]; intros log; [reflexivity|].
  cbn [app PreActivation.andObservables]. destruct (o log) as [n log'].
  destruct (forallb is_true_val (PreActivation.emitted n)); [|reflexivity].
  destruct (PreActivation.failure n); [reflexivity|apply IH].
Qed.


(** ** Query parameters and fragment *)

(** X3.  After [pushQueryParamsAndFragment] the cells hold the query
    parameters and the fragment of the new state, nothing else has changed,
    and pushing the same state again publishes nothing. *)
Theorem pushQueryParamsAndFragment_settles (state : RouterState) (w : World) :
  let w' := pushQueryParamsAndFragment state w in
  w_queryParams w' = snap_queryParams (rs_snapshot state)
  /\ w_fragment w' = snap_fragment (rs_snapshot state)
  /\ w_live w' = w_live w /\ w_next w' = w_next w
  /\ pushQueryParamsAndFragment state w' = w'.
Proof.
  destruct w as [lv q f nx ops]. destruct state as [rt [sr sq sf]].
  unfold pushQueryParamsAndFragment, shallowEqual.
  cbn [rs_snapshot snap_queryParams snap_fragment w_queryParams w_fragment].
  repeat (case_bool_decide;
          cbn [negb emit w_live w_queryParams w_fragment w_next w_ops]);
    by simplify_eq.
Qed.

(** ** What the guard-phase diff records *)

Module RecordFacts.
Import PreActivation.
Section Record.
Variable live : gmap nat ActivatedRouteSnapshot.

Lemma childLoop_fresh cs om path checks :
  Forall (fun c => forall pom path checks,
            traverseRoutes live c None pom path checks
            = Ok (checks ++ map CanActivate (pathsBelow path c))) cs ->
  childLoop live (traverseRoutes live) om path cs [] checks
  = Ok (checks
          ++ map CanActivate (flat_map (fun c => pathsBelow (path ++ [value c]) c) cs)).
Proof.
  intros H. revert checks. induction H as [|c cs Hc _ IH]; intros checks.
  - cbn. by rewrite app_nil_r.
  - cbn [childLoop flat_map assoc_get assoc_del]. rewrite Hc. cbn [mbind Res_bind].
    by rewrite IH, map_app, app_assoc.
Qed.

Lemma traverseRoutes_fresh f :
  forall pom path checks,
    traverseRoutes live f None pom path checks
    = Ok (checks ++ map CanActivate (pathsBelow path f)).
Proof.
  induction f as [v cs IH] using TreeNode_nested_ind. intros pom path checks.
  rewrite TraverseFacts.traverseRoutes_eq. cbn zeta.
  unfold traverseChildRoutes. cbn [children value nodeChildrenAsMap].
  rewrite childLoop_fresh by done. cbn [pathsBelow map]. by rewrite <- app_assoc.
Qed.

(** X4.  Against no previous tree, or one that is only a root (the state
    of a router before its first navigation), [traverse] records one
    activate-check for every node below the root of the new tree, in
    pre-order and with the path from the root to that node, and nothing
    else; it does not look at the outlets and so cannot throw. *)
Theorem first_traverse_checks_every_node future curr om :
  (forall c, curr = Some c -> children (snap_root c) = []) ->
  traverse live future curr om = Ok (map CanActivate (pathsOf (snap_root future))).
Proof.
  intros Hcurr. unfold traverse, traverseChildRoutes, pathsOf.
  assert (nodeChildrenAsMap outlet (snap_root <$> curr) = []) as ->.
  { destruct curr as [c|]; [|done]. cbn [fmap option_fmap option_map nodeChildrenAsMap].
    by rewrite (Hcurr c eq_refl). }
  rewrite childLoop_fresh; [done|].
  apply Forall_forall. intros f _. apply traverseRoutes_fresh.
Qed.

(** *** The activate-checks follow the new tree *)

Lemma activatePaths_app xs ys : activatePaths (xs ++ ys) = activatePaths xs ++ activatePaths ys.
Proof. apply omap_app. Qed.

Lemma activatePaths_deactivate added : Forall isDeactivate added -> activatePaths added = [].
Proof. induction 1 as [|[] ? H]; by cbn in *. Qed.

Lemma deactivateOutlets_adds m :
  Forall (fun kv => forall route checks checks',
            deactivateOutlet live route (snd kv) checks = Ok checks' ->
            exists added, checks' = checks ++ added /\ Forall isDeactivate added) m ->
  forall checks checks',
    deactivateOutlets live m checks = Ok checks' ->
    exists added, checks' = checks ++ added /\ Forall isDeactivate added.
Proof.
  induction 1 as [|[k v] m HPv _ IH]; intros checks checks'; cbn [deactivateOutlets].
  { intros [= <-]. exists []. by rewrite app_nil_r. }
  destruct (isActivated v); [|apply IH].
  intros (checks1 & H1 & H2)%bind_Ok.
  apply HPv in H1 as (a1 & -> & Ha1). apply IH in H2 as (a2 & -> & Ha2).
  exists (a1 ++ a2). rewrite app_assoc. split; [done|]. by apply Forall_app.
Qed.

Lemma deactivateOutlet_adds o :
  forall route checks checks',
    deactivateOutlet live route o checks = Ok checks' ->
    exists added, checks' = checks ++ added /\ Forall isDeactivate added.
Proof.
  induction o as [a nested IH] using RouterOutlet_nested_ind.
  intros route checks checks'. rewrite TraverseFacts.deactivateOutlet_eq.
  destruct a as [[inst ref]|]; [|intros [= <-]; exists []; by rewrite app_nil_r].
  intros (checks1 & H1 & [= <-])%bind_Ok.
  destruct nested as [m|]; [|done].
  apply (deactivateOutlets_adds m (IH m eq_refl)) in H1 as (a1 & -> & Ha1).
  exists (a1 ++ [CanDeactivate (Some inst) route]). rewrite app_assoc. split; [done|].
  apply Forall_app. split; [done|]. by repeat constructor.
Qed.

Lemma deactivateOutletAndItChildren_adds route o checks checks' :
  deactivateOutletAndItChildren live route o checks = Ok checks' ->
  exists added, checks' = checks ++ added /\ Forall isDeactivate added.
Proof.
  destruct o as [o|]; [apply deactivateOutlet_adds|].
  intros [= <-]. exists []. by rewrite app_nil_r.
Qed.

Lemma deactivateOutletMap_adds om checks checks' :
  deactivateOutletMap live om checks = Ok checks' ->
  exists added, checks' = checks ++ added /\ Forall isDeactivate added.
Proof.
  destruct om as [m|]; [|done]. apply deactivateOutlets_adds.
  apply Forall_forall. intros kv _. apply deactivateOutlet_adds.
Qed.

Lemma deactivateLeftovers_adds prev om checks checks' :
  deactivateLeftovers live prev om checks = Ok checks' ->
  exists added, checks' = checks ++ added /\ Forall isDeactivate added.
Proof.
  revert checks. induction prev as [|[k v] prev IH]; intros checks;
    cbn [deactivateLeftovers].
  { intros [= <-]. exists []. by rewrite app_nil_r. }
  destruct om as [m|]; [|done].
  intros (checks1 & H1 & H2)%bind_Ok.
  apply deactivateOutletAndItChildren_adds in H1 as (a1 & -> & Ha1).
  apply IH in H2 as (a2 & -> & Ha2).
  exists (a1 ++ a2). rewrite app_assoc. split; [done|]. by apply Forall_app.
Qed.

Lemma childLoop_paths fcs :
  Forall (fun f => forall c pom path checks checks',
            traverseRoutes live f c pom path checks = Ok checks' ->
            exists added, checks' = checks ++ added
              /\ activatePaths added `sublist_of` pathsBelow path f) fcs ->
  forall om path prev checks checks',
    childLoop live (traverseRoutes live) om path fcs prev checks = Ok checks' ->
    exists added, checks' = checks ++ added
      /\ activatePaths added
           `sublist_of` flat_map (fun c => pathsBelow (path ++ [value c]) c) fcs.
Proof.
  induction 1 as [|f fcs HPf _ IH]; intros om path prev checks checks';
    cbn [childLoop flat_map].
  { intros (added & -> & Ha)%deactivateLeftovers_adds. exists added. split; [done|].
    by rewrite activatePaths_deactivate. }
  intros (checks1 & H1 & H2)%bind_Ok.
  apply HPf in H1 as (a1 & -> & Ha1). apply IH in H2 as (a2 & -> & Ha2).
  exists (a1 ++ a2). rewrite app_assoc. split; [done|].
  rewrite activatePaths_app. by apply sublist_app.
Qed.

Lemma traverseRoutes_paths f :
  forall c pom path checks checks',
    traverseRoutes live f c pom path checks = Ok checks' ->
    exists added, checks' = checks ++ added
      /\ activatePaths added `sublist_of` pathsBelow path f.
Proof.
  induction f as [fv fcs IH] using TreeNode_nested_ind.
  intros c pom path checks checks'. rewrite TraverseFacts.traverseRoutes_eq. cbn zeta.
  unfold traverseChildRoutes. cbn [children value pathsBelow].
  pose proof (childLoop_paths fcs IH) as Hloop.
  destruct c as [c|].
  - destruct (same_routeConfig _ _).
    + intros (checks1 & H1 & H2)%bind_Ok.
      apply Hloop in H2 as (a2 & -> & Ha2).
      destruct (negb _).
      * destruct (slotOutlet pom fv); [|done]. simplify_eq.
        eexists. rewrite <- app_assoc. split; [done|].
        rewrite activatePaths_app. cbn. by apply sublist_skip.
      * simplify_eq. exists a2. split; [done|]. by apply sublist_cons.
    + intros (checks1 & H1 & H2)%bind_Ok.
      apply Hloop in H2 as (a2 & -> & Ha2).
      assert (exists a1, checks1 = checks ++ a1 /\ Forall isDeactivate a1)
        as (a1 & -> & Ha1).
      { destruct (component (value c)).
        - by eapply deactivateOutletAndItChildren_adds.
        - by eapply deactivateOutletMap_adds. }
      exists (a1 ++ [CanActivate path] ++ a2). rewrite <- !app_assoc. split; [done|].
      rewrite !activatePaths_app, activatePaths_deactivate by done.
      cbn. by apply sublist_skip.
  - intros (a2 & -> & Ha2)%Hloop.
    exists ([CanActivate path] ++ a2). rewrite <- !app_assoc. split; [done|].
    rewrite activatePaths_app. cbn. by apply sublist_skip.
Qed.

(** X5.  Whatever the previous tree and the outlets are, the activate-checks
    [traverse] records are for nodes of the new tree, each with its path
    from the root, at most one per node, in pre-order. *)
Theorem activate_checks_follow_new_tree future curr om checks :
  traverse live future curr om = Ok checks ->
  activatePaths checks `sublist_of` pathsOf (snap_root future).
Proof.
  unfold traverse, traverseChildRoutes, pathsOf. intros H.
  eapply (childLoop_paths (children (snap_root future))) in H as (added & -> & Ha).
  - done.
  - apply Forall_forall. intros f _. apply traverseRoutes_paths.
Qed.
End Record.
End RecordFacts.

(** ** Guards that return values *)

Module WrapFacts.
Import PreActivation.
Section Wrap.
Variable guardFn : GuardCall -> Res (Returned JsVal).
Variable verdict : GuardCall -> JsVal.

Lemma runAll_values calls log :
  Forall (fun call => guardFn call = Ok (RetValue (verdict call))) calls ->
  runAll (wrapped guardFn) calls log
  = (Ok (forallb (fun c => is_true_val (verdict c)) calls),
     log ++ untilDenied verdict calls).
Proof.
  intros H. revert log. induction H as [|c calls Hc _ IH]; intros log.
  { cbn. by rewrite app_nil_r. }
  unfold runAll in *. cbn [map andObservables invoke forallb untilDenied].
  assert (wrapped guardFn c = of_val (verdict c)) as ->.
  { unfold wrapped. by rewrite Hc. }
  cbn [of_val emitted failure forallb]. rewrite andb_true_r.
  destruct (is_true_val (verdict c)); cbn [andb].
  - by rewrite IH, <- app_assoc.
  - reflexivity.
Qed.

(** X6.  When every guard of the checks returns a plain value
    ([wrapIntoObservable] makes it an observable of that one value),
    [checkGuards] delivers the conjunction of the tests [value === true],
    so that [false], [undefined], a number or a string all deny; the
    guards are called in the order of the checks up to the first that
    denies, and no later one. *)
Theorem checkGuards_of_values_is_conjunction checks log :
  Forall hasRoute checks ->
  Forall (fun call => guardFn call = Ok (RetValue (verdict call))) (flat_map predicatesOf checks) ->
  checkGuards (wrapped guardFn) checks log
  = (Ok (forallb (fun c => is_true_val (verdict c)) (flat_map predicatesOf checks)),
     log ++ untilDenied verdict (flat_map predicatesOf checks)).
Proof.
  intros Hwf Hval. rewrite GuardFacts.checkGuards_runAll by done.
  by apply runAll_values.
Qed.
Lemma untilDenied_all_true calls :
  Forall (fun call => is_true_val (verdict call) = true) calls ->
  forallb (fun c => is_true_val (verdict c)) calls = true
  /\ untilDenied verdict calls = calls.
Proof.
  induction 1 as [|c calls Hc _ [IH1 IH2]]; [done|].
  cbn [forallb untilDenied]. by rewrite Hc, IH1, IH2.
Qed.

(** X7.  When the guards before it have all returned [true] and a guard
    (or its lookup) throws, [checkGuards] fails with what was thrown
    instead of delivering a verdict, and no later guard is called. *)
Theorem failing_guard_fails_the_check checks log pre c post e :
  Forall hasRoute checks ->
  flat_map predicatesOf checks = pre ++ c :: post ->
  Forall (fun call => guardFn call = Ok (RetValue (verdict call))) pre ->
  Forall (fun call => is_true_val (verdict call) = true) pre ->
  guardFn c = Throw e ->
  checkGuards (wrapped guardFn) checks log = (Throw e, log ++ pre ++ [c]).
Proof.
  intros Hwf Hsplit Hval Htrue Hc. rewrite GuardFacts.checkGuards_runAll by done.
  rewrite Hsplit. unfold runAll. rewrite map_app, andObservables_app.
  fold (runAll (wrapped guardFn) pre). rewrite runAll_values by done.
  destruct (untilDenied_all_true pre Htrue) as [-> ->].
  cbn [map andObservables invoke].
  assert (wrapped guardFn c = of_error e) as ->.
  { unfold wrapped. by rewrite Hc. }
  cbn. by rewrite <- app_assoc.
Qed.
End Wrap.
End WrapFacts.

(** ** Resolved data *)

Module ResolveFacts.
Import Resolve.
Section Resolve.
Variable resolver : Token -> ActivatedRouteSnapshot -> Res JsVal.

Lemma resolveNode_lookup resolve route d :
  resolveNode resolver resolve route = Ok d ->
  forall k, assoc_get k d = assoc_get k resolve ≫= delivered resolver route.
Proof.
  revert d. induction resolve as [|[k0 t] resolve IH]; intros d; cbn [resolveNode].
  { by intros [= <-]. }
  intros (r & Hr & (rs & Hrs & [= <-])%bind_Ok)%bind_Ok k. cbn [assoc_get].
  destruct (String.eqb_spec k k0) as [->|Hne].
  - rewrite assoc_get_set. cbn. unfold delivered. by rewrite Hr.
  - rewrite assoc_get_set_ne by done. by apply IH.
Qed.

(** X8.  When [resolveData] succeeds it has resolved data for the routes of
    the activate-checks, in the order of the checks, and for nothing else;
    the bag of a route holds under each name of its [resolve] map what the
    resolver configured under that name delivered for this route. *)
Theorem resolveData_resolves_activated_routes checks ds :
  resolveData resolver checks = Ok ds ->
  Some <$> (fst <$> ds) = last <$> activatePaths checks
  /\ Forall (fun rd => forall k,
               assoc_get k (snd rd) = assoc_get k (_resolve (fst rd)) ≫= delivered resolver (fst rd))
       ds.
Proof.
  revert ds. induction checks as [|[path|comp route] checks IH]; intros ds;
    cbn [resolveData].
  - intros [= <-]. by split.
  - destruct (last path) as [route|] eqn:Hlast; [|done].
    intros (d & Hd & (ds' & Hds & [= <-])%bind_Ok)%bind_Ok.
    destruct (IH ds' Hds) as [IH1 IH2]. split.
    + cbn. rewrite Hlast. f_equal. exact IH1.
    + constructor; [|done]. cbn [fst snd]. by apply resolveNode_lookup.
  - intros Hds. by apply IH.
Qed.
End Resolve.
End ResolveFacts.

(** ** What activation does *)

Module CommitFacts.
Import ActivateRoutes.
Section Commit.
Variable template : Component -> list string.
Variable PRIMARY_OUTLET : string.

Lemma advanced_app xs ys : advanced (xs ++ ys) = advanced xs ++ advanced ys.
Proof. apply omap_app. Qed.

Lemma mounted_app xs ys : mounted (xs ++ ys) = mounted xs ++ mounted ys.
Proof. apply omap_app. Qed.

Lemma unmounted_app xs ys : unmounted (xs ++ ys) = unmounted xs ++ unmounted ys.
Proof. apply omap_app. Qed.

Lemma unmounts_only ops : Forall isUnmount ops -> advanced ops = [] /\ mounted ops = [].
Proof. induction 1 as [|[] ? H ? [? ?]]; by cbn in *. Qed.

(** [activateRoutes], with its two loops folded back into
    [activateChildRoutes]. *)
Lemma activateRoutes_eq futureNode currNode pom w :
  activateRoutes template PRIMARY_OUTLET futureNode currNode pom w
  = let future := value futureNode in
    let reuse :=
      match currNode with
      | Some c => Nat.eqb (ar_ref future) (ar_ref (value c))
      | None => false
      end in
    if reuse then
      let w1 := advanceActivatedRoute future w in
      match ar_component future with
      | Some _ =>
          match getOutlet PRIMARY_OUTLET pom future with
          | Throw e => (pom, w1, Some e)
          | Ok o =>
              let '(nested, w2, e) :=
                activateChildRoutes template PRIMARY_OUTLET futureNode currNode
                  (outletMap o) w1 in
              (withOutletMap (ar_outlet future) o pom nested, w2, e)
          end
      | None =>
          activateChildRoutes template PRIMARY_OUTLET futureNode currNode pom w1
      end
    else
      let '(om1, w1, e1) :=
        match currNode with
        | Some c =>
            match ar_component (value c) with
            | Some _ =>
                match getOutlet PRIMARY_OUTLET pom future with
                | Throw e => (pom, w, Some e)
                | Ok _ => deactivateOutletAt (ar_outlet future) pom w
                end
            | None => deactivateOutletMap pom w
            end
        | None => (pom, w, None)
        end in
      match e1 with
      | Some _ => (om1, w1, e1)
      | None =>
          let w2 := advanceActivatedRoute future w1 in
          match ar_component future with
          | Some comp =>
              match getOutlet PRIMARY_OUTLET om1 future with
              | Throw e => (om1, w2, Some e)
              | Ok _ =>
                  let '(o, w3) := placeComponentIntoOutlet template comp future w2 in
                  let '(nested, w4, e) :=
                    activateChildRoutes template PRIMARY_OUTLET futureNode None
                      (outletMap o) w3 in
                  (withOutletMap (ar_outlet future) o om1 nested, w4, e)
              end
          | None =>
              activateChildRoutes template PRIMARY_OUTLET futureNode None om1 w2
          end
      end.
Proof.
  destruct futureNode as [future cs]. cbn [activateRoutes value]. cbn zeta.
  unfold activateChildRoutes. cbn [children].
  destruct currNode as [[curr ccs]|]; cbn [fmap option_fmap option_map value].
  - destruct (Nat.eqb _ _); [reflexivity|].
    destruct (match ar_component curr with Some _ => _ | None => _ end) as [[om1 w1] [e1|]];
      [reflexivity|].
    by destruct (ar_component future).
  - by destruct (ar_component future).
Qed.

(** *** Teardowns only unmount *)

Lemma commit_deactivateOutlets_unmounts m :
  Forall (fun kv => forall w o' w' e,
            deactivateOutlet (snd kv) w = (o', w', e) ->
            exists ops, w' = emits ops w /\ Forall isUnmount ops) m ->
  forall w m' w' e,
    deactivateOutlets m w = (m', w', e) ->
    exists ops, w' = emits ops w /\ Forall isUnmount ops.
Proof.
  induction 1 as [|[k v] m HPv _ IH]; intros w m' w' e; cbn [deactivateOutlets].
  { intros [= <- <- <-]. exists []. by rewrite emits_nil. }
  cbn [snd] in HPv. destruct (deactivateOutlet v w) as [[v1 w1] e1] eqn:Hv.
  apply HPv in Hv as (ops1 & -> & H1). destruct e1 as [e1|].
  { intros [= <- <- <-]. eauto. }
  destruct (deactivateOutlets m (emits ops1 w)) as [[r w2] e2] eqn:Hm.
  apply IH in Hm as (ops2 & -> & H2). intros [= <- <- <-].
  exists (ops1 ++ ops2). rewrite emits_emits. split; [done|]. by apply Forall_app.
Qed.

Lemma commit_deactivateOutlet_unmounts o :
  forall w o' w' e,
    deactivateOutlet o w = (o', w', e) ->
    exists ops, w' = emits ops w /\ Forall isUnmount ops.
Proof.
  induction o as [a nested IH] using RouterOutlet_nested_ind.
  intros w o' w' e. rewrite ActivateFacts.commit_deactivateOutlet_eq.
  destruct a as [[inst ref]|].
  2:{ intros [= <- <- <-]. exists []. by rewrite emits_nil. }
  destruct nested as [m|].
  2:{ intros [= <- <- <-]. exists []. by rewrite emits_nil. }
  destruct (deactivateOutlets m w) as [[m1 w1] e1] eqn:Hm.
  apply (commit_deactivateOutlets_unmounts m (IH m eq_refl)) in Hm as (ops & -> & Hops).
  destruct e1 as [e1|]; intros [= <- <- <-]; [by eauto|].
  exists (ops ++ [OpDeactivate inst]). rewrite emit_emits. split; [done|].
  apply Forall_app. split; [done|]. by repeat constructor.
Qed.

Lemma commit_deactivateOutletMap_unmounts om w om' w' e :
  deactivateOutletMap om w = (om', w', e) ->
  exists ops, w' = emits ops w /\ Forall isUnmount ops.
Proof.
  destruct om as [m|]; cbn [deactivateOutletMap].
  2:{ intros [= <- <- <-]. exists []. by rewrite emits_nil. }
  destruct (deactivateOutlets m w) as [[m1 w1] e1] eqn:Hm. intros [= <- <- <-].
  eapply commit_deactivateOutlets_unmounts; [|exact Hm].
  apply Forall_forall. intros kv _. apply commit_deactivateOutlet_unmounts.
Qed.

Lemma commit_deactivateOutletAt_unmounts k om w om' w' e :
  deactivateOutletAt k om w = (om', w', e) ->
  exists ops, w' = emits ops w /\ Forall isUnmount ops.
Proof.
  destruct om as [m|]; cbn [deactivateOutletAt].
  2:{ intros [= <- <- <-]. exists []. by rewrite emits_nil. }
  destruct (assoc_get k m) as [o|].
  2:{ intros [= <- <- <-]. exists []. by rewrite emits_nil. }
  destruct (deactivateOutlet o w) as [[o1 w1] e1] eqn:Ho. intros [= <- <- <-].
  by eapply commit_deactivateOutlet_unmounts.
Qed.

Lemma commit_deactivateLeftovers_unmounts prev :
  forall om w om' w' e,
    deactivateLeftovers prev om w = (om', w', e) ->
    exists ops, w' = emits ops w /\ Forall isUnmount ops.
Proof.
  induction prev as [|[k v] prev IH]; intros om w om' w' e; cbn [deactivateLeftovers].
  { intros [= <- <- <-]. exists []. by rewrite emits_nil. }
  destruct (deactivateOutletAt k om w) as [[om1 w1] e1] eqn:H1.
  apply commit_deactivateOutletAt_unmounts in H1 as (ops1 & -> & Hops1).
  destruct e1 as [e1|]; [intros [= <- <- <-]; by eauto|].
  intros (ops2 & -> & Hops2)%IH. exists (ops1 ++ ops2). rewrite emits_emits.
  split; [done|]. by apply Forall_app.
Qed.

(** *** Every route of the new tree is advanced *)

Lemma refsOf_Node v cs : refsOf (Node v cs) = ar_ref v :: flat_map refsOf cs.
Proof.
  unfold refsOf. cbn [preorder map]. f_equal.
  induction cs as [|c cs IH]; [done|]. cbn [flat_map]. by rewrite map_app, IH.
Qed.

Lemma aw_unmounts ops w e : Forall isUnmount ops -> advancesWithin [] w (emits ops w) e.
Proof.
  intros [Ha _]%unmounts_only. exists ops. rewrite Ha. split; [done|].
  split; [done|]. by intros _.
Qed.

Lemma aw_seq t1 t2 w w1 w2 e :
  advancesWithin t1 w w1 None -> advancesWithin t2 w1 w2 e ->
  advancesWithin (t1 ++ t2) w w2 e.
Proof.
  intros (ops1 & Hw1 & _ & H1) (ops2 & Hw2 & Hp2 & H2). exists (ops1 ++ ops2).
  rewrite Hw2, Hw1, app_assoc, advanced_app, (H1 eq_refl). split; [done|].
  split; [by apply prefix_app|]. intros He. by rewrite H2.
Qed.

Lemma aw_stop t1 t2 w w1 e1 err :
  advancesWithin t1 w w1 e1 -> advancesWithin (t1 ++ t2) w w1 (Some err).
Proof.
  intros (ops1 & Hw1 & Hp & _). exists ops1. split; [done|].
  split; [by apply prefix_app_r|done].
Qed.

Lemma aw_advance route w :
  advancesWithin [ar_ref route] w (advanceActivatedRoute route w) None.
Proof. exists [OpAdvance (ar_ref route)]. by cbn. Qed.

Lemma aw_place comp future w :
  advancesWithin [] w (snd (placeComponentIntoOutlet template comp future w)) None.
Proof. exists [OpActivate (ar_ref future) comp (w_next w)]. by cbn. Qed.

Lemma aw_push state w : advancesWithin [] w (pushQueryParamsAndFragment state w) None.
Proof.
  unfold pushQueryParamsAndFragment.
  destruct (negb (shallowEqual _ _));
    cbn [emit w_live w_queryParams w_fragment w_next w_ops];
    destruct (negb (bool_decide _));
    cbn [emit w_live w_queryParams w_fragment w_next w_ops].
  - exists [OpPushQueryParams (snap_queryParams (rs_snapshot state));
            OpPushFragment (snap_fragment (rs_snapshot state))].
    split; [|done]. cbn. by rewrite <- app_assoc.
  - by exists [OpPushQueryParams (snap_queryParams (rs_snapshot state))].
  - by exists [OpPushFragment (snap_fragment (rs_snapshot state))].
  - exists []. by rewrite app_nil_r.
Qed.

Lemma commit_childLoop_advances fcs :
  Forall (fun f => forall c pom w om w' e,
            activateRoutes template PRIMARY_OUTLET f c pom w = (om, w', e) ->
            advancesWithin (refsOf f) w w' e) fcs ->
  forall prev om w om' w' e,
    childLoop (activateRoutes template PRIMARY_OUTLET) fcs prev om w = (om', w', e) ->
    advancesWithin (flat_map refsOf fcs) w w' e.
Proof.
  induction 1 as [|f fcs HPf _ IH]; intros prev om w om' w' e; cbn [childLoop flat_map].
  { intros (ops & -> & Hops)%commit_deactivateLeftovers_unmounts. by apply aw_unmounts. }
  destruct (activateRoutes _ _ f _ om w) as [[om1 w1] e1] eqn:H1.
  apply HPf in H1. destruct e1 as [e1|].
  { intros [= <- <- <-]. by eapply aw_stop. }
  intros H2%IH. by eapply aw_seq.
Qed.

Lemma activateRoutes_advances f :
  forall c pom w om w' e,
    activateRoutes template PRIMARY_OUTLET f c pom w = (om, w', e) ->
    advancesWithin (refsOf f) w w' e.
Proof.
  induction f as [fv fcs IH] using TreeNode_nested_ind.
  intros c pom w om w' e. rewrite activateRoutes_eq, refsOf_Node. cbn zeta.
  unfold activateChildRoutes. cbn [children value].
  pose proof (commit_childLoop_advances fcs IH) as Hloop.
  destruct (match c with Some c0 => Nat.eqb _ _ | None => false end).
  - pose proof (aw_advance fv w) as Hadv.
    destruct (ar_component fv) as [comp|].
    + destruct (getOutlet PRIMARY_OUTLET pom fv) as [o|err].
      * destruct (childLoop _ fcs _ (outletMap o) _) as [[nested w2] e2] eqn:H2.
        intros [= <- <- <-]. apply Hloop in H2.
        by eapply (aw_seq [ar_ref fv] (flat_map refsOf fcs)).
      * intros [= <- <- <-]. by eapply (aw_stop [ar_ref fv]).
    + intros H2%Hloop. by eapply (aw_seq [ar_ref fv] (flat_map refsOf fcs)).
  - destruct (match c with Some c0 => _ | None => _ end) as [[om1 w1] e1] eqn:H1.
    assert (exists ops, w1 = emits ops w /\ Forall isUnmount ops) as (ops & -> & Hops).
    { destruct c as [c|].
      - destruct (ar_component (value c)).
        + destruct (getOutlet PRIMARY_OUTLET pom fv).
          * by eapply commit_deactivateOutletAt_unmounts.
          * simplify_eq. exists []. by rewrite emits_nil.
        + by eapply commit_deactivateOutletMap_unmounts.
      - simplify_eq. exists []. by rewrite emits_nil. }
    destruct e1 as [e1|].
    { intros [= <- <- <-]. eapply (aw_stop []). by apply (aw_unmounts ops w None). }
    pose proof (aw_unmounts ops w None Hops) as Hun.
    pose proof (aw_advance fv (emits ops w)) as Hadv.
    pose proof (aw_seq [] [ar_ref fv] _ _ _ _ Hun Hadv) as Hsofar. cbn [app] in Hsofar.
    destruct (ar_component fv) as [comp|].
    + destruct (getOutlet PRIMARY_OUTLET om1 fv) as [o|err].
      * pose proof (aw_place comp fv (advanceActivatedRoute fv (emits ops w))) as Hpl.
        destruct (placeComponentIntoOutlet _ _ _ _) as [o' w3]. cbn [snd] in Hpl.
        destruct (childLoop _ fcs _ (outletMap o') _) as [[nested w4] e4] eqn:H4.
        intros [= <- <- <-]. apply Hloop in H4.
        pose proof (aw_seq [ar_ref fv] [] _ _ _ _ Hsofar Hpl) as Hsofar'.
        by eapply (aw_seq ([ar_ref fv] ++ []) (flat_map refsOf fcs)).
      * intros [= <- <- <-]. by eapply (aw_stop [ar_ref fv]).
    + intros H2%Hloop. by eapply (aw_seq [ar_ref fv] (flat_map refsOf fcs)).
Qed.

(** X9.  [activate] advances every live route of the new tree once, the
    root first and then in pre-order, whatever is reused, replaced, mounted
    or torn down on the way; when it throws, the routes advanced so far are
    a prefix of that order and stay advanced. *)
Theorem activation_advances_every_route futureState currState pom w om w' e :
  activate template PRIMARY_OUTLET futureState currState pom w = (om, w', e) ->
  exists ops,
    w_ops w' = w_ops w ++ ops
    /\ advanced ops `prefix_of` refsOf (rs_root futureState)
    /\ (e = None -> advanced ops = refsOf (rs_root futureState)).
Proof.
  unfold activate, activateChildRoutes. intros H.
  eapply (commit_childLoop_advances (children (rs_root futureState))) in H.
  2:{ apply Forall_forall. intros f _. apply activateRoutes_advances. }
  destruct (rs_root futureState) as [v cs]. rewrite refsOf_Node. cbn [value children] in *.
  pose proof (aw_seq [] [ar_ref v] _ _ _ _ (aw_push futureState w)
                (aw_advance v (pushQueryParamsAndFragment futureState w))) as Hroot.
  exact (aw_seq [ar_ref v] (flat_map refsOf cs) _ _ _ _ Hroot H).
Qed.
End Commit.
End CommitFacts.

(** ** A first activation *)

Module MountFacts.
Import ActivateRoutes.
Section Mount.
Variable template : Component -> list string.
Variable PRIMARY_OUTLET : string.

Lemma fits_Node slots v cs :
  fits template slots (Node v cs) <->
  match ar_component v with
  | Some comp => ar_outlet v ∈ slots /\ Forall (fits template (template comp)) cs
  | None => Forall (fits template slots) cs
  end.
Proof.
  cbn [fits]. destruct (ar_component v) as [comp|].
  - apply and_iff_compat_l.
    induction cs as [|c cs IH]; [by split; [constructor|]|].
    by rewrite Forall_cons, IH.
  - induction cs as [|c cs IH]; [by split; [constructor|]|].
    by rewrite Forall_cons, IH.
Qed.

Lemma componentsOf_Node v cs :
  componentsOf (Node v cs)
  = match ar_component v with Some comp => [(ar_ref v, comp)] | None => [] end
    ++ flat_map componentsOf cs.
Proof.
  unfold componentsOf. cbn [preorder omap list_omap].
  assert (omap (fun r => match ar_component r with
                         | Some comp => Some (ar_ref r, comp)
                         | None => None
                         end) (flat_map preorder cs)
          = flat_map componentsOf cs) as ->.
  { induction cs as [|c cs IH]; [done|]. cbn [flat_map]. by rewrite omap_app, IH. }
  by destruct (ar_component v).
Qed.

Lemma childLoop_mounts fcs slots :
  Forall (fun f => forall slots, fits template slots f -> forall m w,
            map fst m = slots ->
            mountsAll [f] m w (activateRoutes template PRIMARY_OUTLET f None (Some m) w))
    fcs ->
  Forall (fits template slots) fcs ->
  forall m w,
    map fst m = slots ->
    mountsAll fcs m w
      (childLoop (activateRoutes template PRIMARY_OUTLET) fcs [] (Some m) w).
Proof.
  intros HP Hfit. revert HP. induction Hfit as [|f fcs Hf _ IH]; intros HP m w Hm.
  { exists m, w, []. by rewrite app_nil_r. }
  apply Forall_cons in HP as [HPf HP]. cbn [childLoop assoc_get assoc_del].
  destruct (HPf slots Hf m w Hm) as (m1 & w1 & ops1 & -> & Hm1 & Hw1 & Hmo1 & Hun1).
  destruct (IH HP m1 w1) as (m2 & w2 & ops2 & -> & Hm2 & Hw2 & Hmo2 & Hun2);
    [congruence|].
  exists m2, w2, (ops1 ++ ops2). split; [done|]. split; [congruence|].
  split; [by rewrite Hw2, Hw1, app_assoc|].
  rewrite CommitFacts.mounted_app, CommitFacts.unmounted_app, Hmo1, Hmo2, Hun1, Hun2.
  cbn [flat_map]. by rewrite app_nil_r.
Qed.

Lemma activateRoutes_mounts f :
  forall slots, fits template slots f -> forall m w,
    map fst m = slots ->
    mountsAll [f] m w (activateRoutes template PRIMARY_OUTLET f None (Some m) w).
Proof.
  induction f as [fv fcs IH] using TreeNode_nested_ind.
  intros slots Hfit m w Hm. apply fits_Node in Hfit.
  rewrite CommitFacts.activateRoutes_eq. cbn zeta.
  unfold activateChildRoutes, mountsAll. cbn [children value nodeChildrenAsMap flat_map].
  rewrite app_nil_r, componentsOf_Node.
  destruct (ar_component fv) as [comp|] eqn:Hcomp.
  - destruct Hfit as [Hslot Hfit].
    assert (is_Some (assoc_get (ar_outlet fv) m)) as [o Ho].
    { apply assoc_get_keys. by rewrite Hm. }
    cbn [getOutlet]. rewrite Ho. cbn [placeComponentIntoOutlet outletMap].
    set (fresh := map (fun name => (name, mkOutlet None None)) (template comp)).
    set (w3 := emit _ _).
    destruct (childLoop_mounts fcs (template comp) IH Hfit fresh w3)
      as (m2 & w2 & ops2 & -> & Hm2 & Hw2 & Hmo2 & Hun2).
    { unfold fresh. rewrite map_map. cbn [fst]. apply map_id. }
    eexists _, w2, ([OpAdvance (ar_ref fv); OpActivate (ar_ref fv) comp (w_next w)] ++ ops2).
    split; [reflexivity|]. split.
    { cbn [fmap option_fmap option_map]. apply assoc_set_keys_same.
      apply assoc_get_keys. by eauto. }
    split.
    { rewrite Hw2. unfold w3. cbn. by rewrite <- !app_assoc. }
    rewrite CommitFacts.mounted_app, CommitFacts.unmounted_app, Hmo2, Hun2. by cbn.
  - destruct (childLoop_mounts fcs slots IH Hfit m (advanceActivatedRoute fv w) Hm)
      as (m2 & w2 & ops2 & -> & Hm2 & Hw2 & Hmo2 & Hun2).
    exists m2, w2, ([OpAdvance (ar_ref fv)] ++ ops2).
    split; [done|]. split; [done|]. split.
    { rewrite Hw2. cbn. by rewrite <- !app_assoc. }
    rewrite CommitFacts.mounted_app, CommitFacts.unmounted_app, Hmo2, Hun2. by cbn.
Qed.
Lemma childLoop_fits fcs :
  Forall (fun f => forall m w om w',
            activateRoutes template PRIMARY_OUTLET f None (Some m) w = (om, w', None) ->
            fits template (map fst m) f) fcs ->
  forall m w om w',
    childLoop (activateRoutes template PRIMARY_OUTLET) fcs [] (Some m) w = (om, w', None) ->
    Forall (fits template (map fst m)) fcs.
Proof.
  induction 1 as [|f fcs HPf HP IH]; intros m w om w';
    cbn [childLoop assoc_get assoc_del]; [by constructor|].
  destruct (activateRoutes _ _ f None (Some m) w) as [[om1 w1] [e1|]] eqn:H1; [done|].
  pose proof (HPf _ _ _ _ H1) as Hf.
  destruct (activateRoutes_mounts f _ Hf m w eq_refl) as (m1 & w1' & ops & Heq & Hkeys & _).
  rewrite H1 in Heq. injection Heq as -> ->.
  intros H2%IH. constructor; [done|]. by rewrite <- Hkeys.
Qed.

Lemma activateRoutes_fits f :
  forall m w om w',
    activateRoutes template PRIMARY_OUTLET f None (Some m) w = (om, w', None) ->
    fits template (map fst m) f.
Proof.
  induction f as [fv fcs IH] using TreeNode_nested_ind.
  intros m w om w'. rewrite CommitFacts.activateRoutes_eq, fits_Node. cbn zeta.
  unfold activateChildRoutes. cbn [children value nodeChildrenAsMap].
  pose proof (childLoop_fits fcs IH) as Hloop.
  destruct (ar_component fv) as [comp|]; [|by apply Hloop].
  destruct (getOutlet PRIMARY_OUTLET (Some m) fv) as [o|err] eqn:Hget; [|done].
  apply ActivateFacts.getOutlet_Ok in Hget as (m0 & [= <-] & Ho).
  cbn [placeComponentIntoOutlet outletMap].
  destruct (childLoop _ fcs _ _ _) as [[nested w4] [e4|]] eqn:H4; [done|].
  intros _. split; [apply assoc_get_keys; by eauto|].
  apply Hloop in H4. by rewrite map_map, map_id in H4.
Qed.

(** X10.  A first activation throws exactly when some component of the new
    tree finds no outlet at its slot ([getOutlet] throws for it). *)
Theorem first_activation_throws_iff_outlet_missing futureState currState m w :
  (forall c, currState = Some c -> children (rs_root c) = []) ->
  snd (activate template PRIMARY_OUTLET futureState currState (Some m) w) = None
  <-> Forall (fits template (map fst m)) (children (rs_root futureState)).
Proof.
  intros Hcurr. split.
  - unfold activate, activateChildRoutes.
    assert (nodeChildrenAsMap ar_outlet (rs_root <$> currState) = []) as ->.
    { destruct currState as [c|]; [|done].
      cbn [fmap option_fmap option_map nodeChildrenAsMap]. by rewrite (Hcurr c eq_refl). }
    destruct (childLoop _ _ _ _ _) as [[om w'] e] eqn:H. cbn [snd]. intros ->.
    eapply childLoop_fits; [|exact H].
    apply Forall_forall. intros f _. apply activateRoutes_fits.
  - intros Hfit.
    destruct (childLoop_mounts (children (rs_root futureState)) (map fst m))
      with (m := m)
           (w := advanceActivatedRoute (value (rs_root futureState))
                   (pushQueryParamsAndFragment futureState w))
      as (m' & w' & ops & Heq & _); [|done|done|].
    { apply Forall_forall. intros f _. apply activateRoutes_mounts. }
    unfold activate, activateChildRoutes.
    assert (nodeChildrenAsMap ar_outlet (rs_root <$> currState) = []) as ->.
    { destruct currState as [c|]; [|done].
      cbn [fmap option_fmap option_map nodeChildrenAsMap]. by rewrite (Hcurr c eq_refl). }
    by rewrite Heq.
Qed.

Lemma push_publishes_only state w :
  exists ops,
    w_ops (pushQueryParamsAndFragment state w) = w_ops w ++ ops
    /\ mounted ops = [] /\ unmounted ops = [].
Proof.
  unfold pushQueryParamsAndFragment.
  destruct (negb (shallowEqual _ _));
    cbn [emit w_live w_queryParams w_fragment w_next w_ops];
    destruct (negb (bool_decide _));
    cbn [emit w_live w_queryParams w_fragment w_next w_ops].
  - exists [OpPushQueryParams (snap_queryParams (rs_snapshot state));
            OpPushFragment (snap_fragment (rs_snapshot state))].
    split; [|done]. cbn. by rewrite <- app_assoc.
  - by exists [OpPushQueryParams (snap_queryParams (rs_snapshot state))].
  - by exists [OpPushFragment (snap_fragment (rs_snapshot state))].
  - exists []. by rewrite app_nil_r.
Qed.

(** X11.  A first activation (no previous state, or one that is only a root)
    of a tree in which every component finds an outlet at its slot: the
    outlets of the registry it is given, then those the views of the
    mounted parents register.  It does not throw, mounts every component of
    the tree once, a parent before its children and siblings from left to
    right, unmounts nothing and leaves the registry with the outlets it
    had. *)
Theorem first_activation_mounts_every_component futureState currState m w :
  (forall c, currState = Some c -> children (rs_root c) = []) ->
  Forall (fits template (map fst m)) (children (rs_root futureState)) ->
  exists m' w' ops,
    activate template PRIMARY_OUTLET futureState currState (Some m) w = (Some m', w', None)
    /\ map fst m' = map fst m
    /\ w_ops w' = w_ops w ++ ops
    /\ mounted ops = flat_map componentsOf (children (rs_root futureState))
    /\ unmounted ops = [].
Proof.
  intros Hcurr Hfit. unfold activate, activateChildRoutes.
  assert (nodeChildrenAsMap ar_outlet (rs_root <$> currState) = []) as ->.
  { destruct currState as [c|]; [|done].
    cbn [fmap option_fmap option_map nodeChildrenAsMap]. by rewrite (Hcurr c eq_refl). }
  destruct (push_publishes_only futureState w) as (ops0 & Hw0 & Hmo0 & Hun0).
  set (w2 := advanceActivatedRoute _ _).
  destruct (childLoop_mounts (children (rs_root futureState)) (map fst m)) with (m := m) (w := w2)
    as (m' & w' & ops & -> & Hm' & Hw' & Hmo & Hun); [|done|done|].
  { apply Forall_forall. intros f _. apply activateRoutes_mounts. }
  exists m', w', (ops0 ++ [OpAdvance (ar_ref (value (rs_root futureState)))] ++ ops).
  split; [done|]. split; [done|]. split.
  { rewrite Hw'. unfold w2. cbn. rewrite Hw0. by rewrite <- !app_assoc. }
  rewrite !CommitFacts.mounted_app, !CommitFacts.unmounted_app, Hmo0, Hun0, Hmo, Hun.
  by cbn.
Qed.
End Mount.
End MountFacts.

(** ** The invariant of the slot registry *)

Module RegistryFacts.
Section Registry.
Variable live : gmap nat ActivatedRouteSnapshot.
Variable template : Component -> list string.
Variable PRIMARY_OUTLET : string.

Lemma registered_dec o : registered o \/ ~ registered o.
Proof.
  induction o as [a nested IH] using RouterOutlet_nested_ind.
  destruct a as [a|]; [|by left]. destruct nested as [m|]; [|right; intros []].
  rewrite registered_activated. specialize (IH m eq_refl). unfold registeredMap.
  induction IH as [|kv m [Hkv|Hkv] _ [IH|IH]].
  - left. constructor.
  - left. by constructor.
  - right. by intros [_ ?]%Forall_cons.
  - right. by intros [? _]%Forall_cons.
  - right. by intros [? _]%Forall_cons.
Qed.

(** *** Tearing down a registry that breaks the invariant *)

Lemma deactivateOutlets_unregistered m :
  Forall (fun kv => ~ registered (snd kv) -> forall route checks,
            PreActivation.deactivateOutlet live route (snd kv) checks = Throw TypeError) m ->
  ~ registeredMap m ->
  forall checks, PreActivation.deactivateOutlets live m checks = Throw TypeError.
Proof.
  induction 1 as [|[k v] m HPv _ IH]; intros Hm checks.
  { destruct Hm. constructor. }
  cbn [PreActivation.deactivateOutlets]. cbn [snd] in HPv.
  destruct (registered_dec v) as [Hv|Hv].
  - assert (~ registeredMap m) as Hm' by (intros ?; apply Hm; by constructor).
    destruct (isActivated v); [|by apply IH].
    cbn [PreActivation.deactivateOutletAndItChildren].
    rewrite TraverseFacts.deactivateOutlet_teardown by done. cbn [mbind Res_bind].
    by apply IH.
  - destruct v as [[a|] nested]; [|by destruct Hv]. cbn [isActivated activated].
    cbn [PreActivation.deactivateOutletAndItChildren]. by rewrite HPv.
Qed.

Lemma deactivateOutlet_unregistered o :
  ~ registered o ->
  forall route checks, PreActivation.deactivateOutlet live route o checks = Throw TypeError.
Proof.
  induction o as [a nested IH] using RouterOutlet_nested_ind.
  intros Ho route checks. rewrite TraverseFacts.deactivateOutlet_eq.
  destruct a as [[inst ref]|]; [|by destruct Ho].
  destruct nested as [m|]; [|done]. rewrite registered_activated in Ho.
  cbn [PreActivation.deactivateOutletMap].
  by rewrite (deactivateOutlets_unregistered m (IH m eq_refl) Ho).
Qed.

Lemma commit_deactivateOutlets_unregistered m :
  Forall (fun kv => ~ registered (snd kv) -> forall w,
            snd (ActivateRoutes.deactivateOutlet (snd kv) w) = Some TypeError) m ->
  ~ registeredMap m ->
  forall w, snd (ActivateRoutes.deactivateOutlets m w) = Some TypeError.
Proof.
  induction 1 as [|[k v] m HPv _ IH]; intros Hm w.
  { destruct Hm. constructor. }
  cbn [ActivateRoutes.deactivateOutlets]. cbn [snd] in HPv.
  destruct (registered_dec v) as [Hv|Hv].
  - assert (~ registeredMap m) as Hm' by (intros ?; apply Hm; by constructor).
    rewrite ActivateFacts.commit_deactivateOutlet_teardown by done.
    specialize (IH Hm' (emits (unmounts (teardown v)) w)).
    by destruct (ActivateRoutes.deactivateOutlets m _) as [[? ?] ?].
  - specialize (HPv Hv w).
    destruct (ActivateRoutes.deactivateOutlet v w) as [[? ?] ?]. cbn [snd] in HPv.
    by subst.
Qed.

Lemma commit_deactivateOutlet_unregistered o :
  ~ registered o ->
  forall w, snd (ActivateRoutes.deactivateOutlet o w) = Some TypeError.
Proof.
  induction o as [a nested IH] using RouterOutlet_nested_ind.
  intros Ho w. rewrite ActivateFacts.commit_deactivateOutlet_eq.
  destruct a as [[inst ref]|]; [|by destruct Ho].
  destruct nested as [m|]; [|done]. rewrite registered_activated in Ho.
  pose proof (commit_deactivateOutlets_unregistered m (IH m eq_refl) Ho w) as H.
  destruct (ActivateRoutes.deactivateOutlets m w) as [[? ?] ?]. cbn [snd] in H.
  by subst.
Qed.

(** X12.  Both diffs tear a registry down without throwing exactly when
    every activated outlet in it, at any depth below activated outlets, has
    a nested registry; otherwise both throw a [TypeError]. *)
Theorem teardown_throws_exactly_when_unregistered m checks w :
  (registeredMap m <->
     exists checks', PreActivation.deactivateOutlets live m checks = Ok checks')
  /\ (registeredMap m <-> snd (ActivateRoutes.deactivateOutlets m w) = None)
  /\ (~ registeredMap m ->
      PreActivation.deactivateOutlets live m checks = Throw TypeError
      /\ snd (ActivateRoutes.deactivateOutlets m w) = Some TypeError).
Proof.
  assert (~ registeredMap m ->
          PreActivation.deactivateOutlets live m checks = Throw TypeError
          /\ snd (ActivateRoutes.deactivateOutlets m w) = Some TypeError) as Hno.
  { intros Hm. split.
    - apply deactivateOutlets_unregistered; [|done].
      apply Forall_forall. intros kv _. apply deactivateOutlet_unregistered.
    - apply commit_deactivateOutlets_unregistered; [|done].
      apply Forall_forall. intros kv _. apply commit_deactivateOutlet_unregistered. }
  assert (registeredMap m \/ ~ registeredMap m) as Hdec.
  { destruct (registered_dec (mkOutlet (Some (0, 0)) (Some m))) as [H|H];
      rewrite registered_activated in H; by eauto. }
  split; [|split; [|done]].
  - split.
    + intros Hm. rewrite TraverseFacts.deactivateOutlets_teardown by done. by eauto.
    + intros [checks' Hok]. destruct Hdec as [|Hm]; [done|].
      destruct (Hno Hm) as [Hthrow _]. congruence.
  - split.
    + intros Hm. by rewrite ActivateFacts.commit_deactivateOutlets_teardown.
    + intros Hok. destruct Hdec as [|Hm]; [done|].
      destruct (Hno Hm) as [_ Hthrow]. congruence.
Qed.
End Registry.
End RegistryFacts.

(** *** Activation keeps the invariant *)

Module KeepFacts.
Import ActivateRoutes.
Section Keep.
Variable template : Component -> list string.
Variable PRIMARY_OUTLET : string.

Lemma keeps_refl pom : keepsRegistered pom pom.
Proof. destruct pom as [m|]; [|done]. by exists m. Qed.

Lemma keeps_trans a b c :
  keepsRegistered a b -> keepsRegistered b c -> keepsRegistered a c.
Proof.
  destruct a as [m|]; cbn.
  - intros (m1 & -> & H1) (m2 & -> & H2). exists m2. by auto.
  - by intros ->.
Qed.

Lemma vacate_registered o : registered (vacate o).
Proof. by destruct o as [[a|] nested]. Qed.

Lemma assoc_set_registered k o m :
  registered o -> registeredMap m -> registeredMap (assoc_set k o m).
Proof.
  intros Ho. unfold registeredMap. induction 1 as [|[k0 v0] m Hv Hm IH]; cbn [assoc_set].
  - by repeat constructor.
  - destruct (String.eqb k k0); by constructor.
Qed.

Lemma assoc_get_registered k m o :
  registeredMap m -> assoc_get k m = Some o -> registered o.
Proof.
  unfold registeredMap. induction 1 as [|[k0 v0] m Hv Hm IH]; cbn [assoc_get]; [done|].
  destruct (String.eqb k k0); [by intros [= <-]|done].
Qed.

Lemma vacated_registered m :
  registeredMap (map (fun kv : string * RouterOutlet => (fst kv, vacate (snd kv))) m).
Proof.
  unfold registeredMap. apply Forall_forall. intros kv (kv' & <- & _)%list_elem_of_In%in_map_iff.
  apply vacate_registered.
Qed.

Lemma commit_deactivateOutletMap_keeps om w om' w' e :
  deactivateOutletMap om w = (om', w', e) -> keepsRegistered om om'.
Proof.
  destruct om as [m|]; cbn [deactivateOutletMap keepsRegistered]; [|by intros [= <- _ _]].
  destruct (deactivateOutlets m w) as [[m1 w1] e1] eqn:Hm. intros [= <- _ _].
  exists m1. split; [done|]. intros Hreg.
  rewrite ActivateFacts.commit_deactivateOutlets_teardown in Hm by done.
  injection Hm as <- _ _. apply vacated_registered.
Qed.

Lemma commit_deactivateOutletAt_keeps k om w om' w' e :
  deactivateOutletAt k om w = (om', w', e) -> keepsRegistered om om'.
Proof.
  destruct om as [m|]; cbn [deactivateOutletAt keepsRegistered]; [|by intros [= <- _ _]].
  destruct (assoc_get k m) as [o|] eqn:Ho; [|intros [= <- _ _]; by eauto].
  destruct (deactivateOutlet o w) as [[o1 w1] e1] eqn:Hd. intros [= <- _ _].
  eexists. split; [done|]. intros Hreg.
  pose proof (assoc_get_registered k m o Hreg Ho) as Hro.
  rewrite ActivateFacts.commit_deactivateOutlet_teardown in Hd by done.
  injection Hd as <- _ _. apply assoc_set_registered; [apply vacate_registered|done].
Qed.

Lemma commit_deactivateLeftovers_keeps prev :
  forall om w om' w' e,
    deactivateLeftovers prev om w = (om', w', e) -> keepsRegistered om om'.
Proof.
  induction prev as [|[k v] prev IH]; intros om w om' w' e; cbn [deactivateLeftovers].
  { intros [= <- _ _]. apply keeps_refl. }
  destruct (deactivateOutletAt k om w) as [[om1 w1] e1] eqn:H1.
  apply commit_deactivateOutletAt_keeps in H1.
  destruct e1 as [e1|]; [by intros [= <- _ _]|].
  intros H2%IH. by eapply keeps_trans.
Qed.

Lemma commit_childLoop_keeps fcs :
  Forall (fun f => forall c pom w om w' e,
            activateRoutes template PRIMARY_OUTLET f c pom w = (om, w', e) ->
            keepsRegistered pom om) fcs ->
  forall prev om w om' w' e,
    childLoop (activateRoutes template PRIMARY_OUTLET) fcs prev om w = (om', w', e) ->
    keepsRegistered om om'.
Proof.
  induction 1 as [|f fcs HPf _ IH]; intros prev om w om' w' e; cbn [childLoop].
  { apply commit_deactivateLeftovers_keeps. }
  destruct (activateRoutes _ _ f _ om w) as [[om1 w1] e1] eqn:H1.
  apply HPf in H1. destruct e1 as [e1|]; [by intros [= <- _ _]|].
  intros H2%IH. by eapply keeps_trans.
Qed.

(** The outlet a node went through, with the registry of its children
    stored back, satisfies the invariant if it did before. *)
Lemma withOutletMap_keeps name o m nested :
  assoc_get name m = Some o ->
  keepsRegistered (outletMap o) nested ->
  keepsRegistered (Some m) (withOutletMap name o (Some m) nested).
Proof.
  intros Ho Hnested. cbn. eexists. split; [done|]. intros Hreg.
  apply assoc_set_registered; [|done].
  pose proof (assoc_get_registered name m o Hreg Ho) as Hro.
  destruct o as [[a|] n]; [|done]. destruct n as [m0|]; [|done].
  cbn in Hnested. destruct Hnested as (m0' & -> & Hm0).
  cbn [activated]. apply registered_activated, Hm0. by apply registered_activated in Hro.
Qed.

Lemma activateRoutes_keeps f :
  forall c pom w om w' e,
    activateRoutes template PRIMARY_OUTLET f c pom w = (om, w', e) ->
    keepsRegistered pom om.
Proof.
  induction f as [fv fcs IH] using TreeNode_nested_ind.
  intros c pom w om w' e. rewrite CommitFacts.activateRoutes_eq. cbn zeta.
  unfold activateChildRoutes. cbn [children value].
  pose proof (commit_childLoop_keeps fcs IH) as Hloop.
  destruct (match c with Some c0 => Nat.eqb _ _ | None => false end).
  - destruct (ar_component fv) as [comp|]; [|by apply Hloop].
    destruct (getOutlet PRIMARY_OUTLET pom fv) as [o|err] eqn:Hget.
    2:{ intros [= <- _ _]. apply keeps_refl. }
    apply ActivateFacts.getOutlet_Ok in Hget as (m & -> & Ho).
    destruct (childLoop _ fcs _ (outletMap o) _) as [[nested w2] e2] eqn:H2.
    intros [= <- _ _]. apply Hloop in H2. by apply withOutletMap_keeps.
  - destruct (match c with Some c0 => _ | None => _ end) as [[om1 w1] e1] eqn:H1.
    assert (keepsRegistered pom om1) as Hk1.
    { destruct c as [c|].
      - destruct (ar_component (value c)).
        + destruct (getOutlet PRIMARY_OUTLET pom fv).
          * by eapply commit_deactivateOutletAt_keeps.
          * simplify_eq. apply keeps_refl.
        + by eapply commit_deactivateOutletMap_keeps.
      - simplify_eq. apply keeps_refl. }
    destruct e1 as [e1|]; [by intros [= <- _ _]|].
    destruct (ar_component fv) as [comp|].
    + destruct (getOutlet PRIMARY_OUTLET om1 fv) as [o|err] eqn:Hget.
      2:{ by intros [= <- _ _]. }
      apply ActivateFacts.getOutlet_Ok in Hget as (m1 & -> & Ho).
      cbn [placeComponentIntoOutlet outletMap].
      destruct (childLoop _ fcs _ _ _) as [[nested w4] e4] eqn:H4.
      intros [= <- _ _]. apply Hloop in H4. eapply keeps_trans; [exact Hk1|].
      cbn. eexists. split; [done|]. intros Hreg.
      apply assoc_set_registered; [|done].
      cbn in H4. destruct H4 as (n' & -> & Hn'). apply registered_activated, Hn'.
      apply Forall_forall. by intros kv (name & <- & _)%list_elem_of_In%in_map_iff.
    + intros H2%Hloop. by eapply keeps_trans.
Qed.

Lemma activate_keeps futureState currState pom w om w' e :
  activate template PRIMARY_OUTLET futureState currState pom w = (om, w', e) ->
  keepsRegistered pom om.
Proof.
  unfold activate, activateChildRoutes.
  apply commit_childLoop_keeps, Forall_forall. intros f _. apply activateRoutes_keeps.
Qed.
End Keep.
End KeepFacts.

(** ** Turns and executions *)

Module TurnFacts.
Import Router Protocol.

Ltac turn_branches :=
  cbn [negb orb];
  repeat match goal with
    | |- context [PreActivation.traverse ?a ?b ?c ?d] =>
        destruct (PreActivation.traverse a b c d) eqn:?
    | |- context [PreActivation.checkGuards ?a ?b ?c] =>
        destruct (PreActivation.checkGuards a b c) eqn:?
    | |- context [Nat.eqb ?a ?b] => destruct (Nat.eqb a b) eqn:?
    | |- context [ActivateRoutes.activate ?a ?b ?c ?d ?e ?f] =>
        destruct (ActivateRoutes.activate a b c d e f) as [[? ?] [?|]] eqn:?
    | |- context [nav_preventPushState ?n] => destruct (nav_preventPushState n) eqn:?
    | |- context [isCurrentPathEqualTo ?p ?l] => destruct (isCurrentPathEqualTo p l) eqn:?
    end;
  cbn [negb orb fst snd setPhase nav_phase nav_id nav_url next setLocation setCurrent
       currentUrlTree currentRouterState navigationId routerEvents location outletMap
       world guardCalls current].

Ltac by_turn n :=
  unfold step, forEachCallback;
  destruct (nav_phase n)
    as [|? ? [[?|?]|? [?|?]|? [?|?]|? ? ? [[|]|?]|? ? [?|?]|? ?|?]|?] eqn:?;
  turn_branches.

Section Turn.
Context {UrlTree : Type}.
Variable C : Collaborators UrlTree.

(** X13.  A turn of [runNavigate] touches the outlet registry and the
    mounted components only when it is the callback of [forEach] run for
    the navigation the counter is at: a superseded navigation never mounts
    or unmounts anything.  Guards are called only in the turn in which the
    new state is diffed; that turn does not look at the counter, so that a
    superseded navigation still consults its guards; and the log of guard
    calls only grows. *)
Theorem only_the_commit_turn_touches_the_ui n r :
  (nav_id n <> navigationId r \/ ~ atCommit n ->
   outletMap (snd (step C n r)) = outletMap r /\ world (snd (step C n r)) = world r)
  /\ (~ atDiff n -> guardCalls (snd (step C n r)) = guardCalls r)
  /\ (forall ss su u snapshot checks,
        nav_phase n = Running ss su (Resolving u (Ok snapshot)) ->
        PreActivation.traverse (w_live (world r))
          (rs_snapshot (createRouterState C snapshot (currentRouterState r)))
          (Some (rs_snapshot (currentRouterState r))) (Some (outletMap r)) = Ok checks ->
        guardCalls (snd (step C n r))
        = snd (PreActivation.checkGuards (guard C) checks (guardCalls r)))
  /\ exists made, guardCalls (snd (step C n r)) = guardCalls r ++ made.
Proof.
  unfold atCommit, atDiff. split; [|split; [|split]].
  - intros Hn. by_turn n; try done.
    all: destruct Hn as [Hn|Hn];
      [match goal with H : Nat.eqb _ _ = true |- _ => by apply Nat.eqb_eq in H end
      |by destruct Hn].
  - by_turn n; intros Hn; try done.
    all: match goal with H : nav_phase _ = _ |- _ => rewrite H in Hn end; by destruct Hn.
  - intros ss su u snapshot checks Hn Htr. unfold step. rewrite Hn, Htr.
    by destruct (PreActivation.checkGuards _ _ _).
  - by_turn n; try (by exists []; rewrite app_nil_r).
    all: match goal with
         | H : PreActivation.checkGuards ?g ?checks ?log = (_, ?l) |- _ =>
             pose proof (GuardFacts.runAll_calls_prefix g
                           (flat_map (PreActivation.predicatesOf) checks) log)
               as (made & Hmade & _);
             rewrite <- GuardFacts.checkGuards_runAll in Hmade
               by (by eapply TraverseFacts.traverse_hasRoute);
             rewrite H in Hmade; by exists made
         end.
Qed.

(** *** Invariants of an execution *)

Lemma exec_invariant (P : System UrlTree -> Prop) :
  (forall a s, P s -> P (act C a s)) ->
  forall acts s, P s -> P (exec C acts s).
Proof.
  intros Hact acts. induction acts as [|a acts IH]; intros s Hs; [done|].
  cbn [exec foldl]. by apply IH, Hact.
Qed.

Lemma step_registered n r :
  registeredMap (outletMap r) -> registeredMap (outletMap (snd (step C n r))).
Proof.
  intros Hr. by_turn n; try done.
  all: match goal with
       | H : ActivateRoutes.activate _ _ _ _ _ _ = _ |- _ =>
           apply KeepFacts.activate_keeps in H as (m' & -> & Hm')
       end; by apply Hm'.
Qed.

(** X14.  The invariant of the slot registry (an activated outlet has a
    nested registry, and so have the activated outlets below it) holds of
    the router's outlet map after every turn of every navigation if it
    held before the first: activation stores a registry with every
    component it mounts and takes none away from an activated outlet, also
    when it throws half-way. *)
Theorem registry_invariant_is_kept acts s :
  registeredMap (outletMap (router s)) ->
  registeredMap (outletMap (router (exec C acts s))).
Proof.
  apply (exec_invariant (fun s => registeredMap (outletMap (router s)))).
  clear. intros a s Hs. destruct a as [url prevent|i]; cbn [act].
  - done.
  - destruct (navigations s !! i) as [n|]; [|done].
    pose proof (step_registered n (router s) Hs) as H.
    by destruct (step C n (router s)).
Qed.

(** *** The events of a navigation *)

Lemma trace_app id events evs : trace id (events ++ evs) = trace id events ++ trace id evs.
Proof. unfold trace, eventsOf. by rewrite filter_app, fmap_app. Qed.

Lemma trace_own id evs :
  Forall (fun ev => event_id ev = id) evs -> trace id evs = kindOf <$> evs.
Proof.
  unfold trace, eventsOf. induction 1 as [|ev evs Hev _ IH]; [done|].
  rewrite filter_cons_True by done. cbn. by rewrite IH.
Qed.

Lemma trace_other id evs : Forall (fun ev => event_id ev <> id) evs -> trace id evs = [].
Proof.
  unfold trace, eventsOf. induction 1 as [|ev evs Hev _ IH]; [done|].
  by rewrite filter_cons_False.
Qed.

Lemma step_emits n r :
  exists evs,
    routerEvents (snd (step C n r)) = routerEvents r ++ evs
    /\ Forall (fun ev => event_id ev = nav_id n) evs
    /\ forall t, traceAt (nav_phase n) t ->
         traceAt (nav_phase (fst (step C n r))) (t ++ (kindOf <$> evs)).
Proof.
  by_turn n;
    (first [exists []; split; [by rewrite app_nil_r|]
           |eexists [_]; split; [reflexivity|]]);
    (split; [by repeat constructor|]); intros t Ht;
    try match goal with H : nav_phase _ = _ |- _ => rewrite H end;
    repeat match goal with b : bool |- _ => destruct b end;
    cbn in Ht |- *; rewrite ?app_nil_r;
    repeat match goal with H : _ \/ _ |- _ => destruct H end;
    subst; cbn; auto.
Qed.

Lemma act_wellNumbered a s : wellNumbered s -> wellNumbered (act C a s).
Proof.
  intros (Hnd & Hids & Hevs). destruct a as [url prevent|i]; cbn [act].
  - unfold wellNumbered, scheduleNavigation.
    cbn [router navigations next navigationId routerEvents].
    split; [|split].
    + rewrite fmap_app. apply NoDup_app. split; [done|]. split; [|apply NoDup_singleton].
      intros id (n & -> & Hn)%list_elem_of_fmap ?%list_elem_of_singleton.
      rewrite Forall_forall in Hids. specialize (Hids n Hn). cbn in *. lia.
    + apply Forall_app. split; [|by repeat constructor].
      eapply Forall_impl; [exact Hids|]. cbn. lia.
    + apply Forall_app. split; [|by repeat constructor].
      eapply Forall_impl; [exact Hevs|]. cbn. lia.
  - destruct (navigations s !! i) as [n|] eqn:Hi; [|done].
    pose proof (RouterFacts.step_nav_id C n (router s)) as Hid.
    pose proof (RouterFacts.step_navigationId C n (router s)) as Hnid.
    pose proof (step_emits n (router s)) as (evs & Hevs' & Hown & _).
    destruct (step C n (router s)) as [n' r'] eqn:Hstep. cbn [fst snd] in *.
    unfold wellNumbered. cbn [router navigations].
    pose proof (Forall_lookup_1 _ _ _ _ Hids Hi) as Hn. cbn in Hn.
    split; [|split].
    + rewrite list_fmap_insert, Hid, list_insert_id; [done|].
      by rewrite list_lookup_fmap, Hi.
    + rewrite Hnid. apply Forall_insert; [done|]. by rewrite Hid.
    + rewrite Hevs', Hnid. apply Forall_app. split; [done|].
      eapply Forall_impl; [exact Hown|]. cbn. by intros ev ->.
Qed.

Lemma act_onProtocol a s : wellNumbered s -> onProtocol s -> onProtocol (act C a s).
Proof.
  intros (Hnd & Hids & Hevs) Hp. unfold onProtocol in *.
  destruct a as [url prevent|i]; cbn [act].
  - unfold scheduleNavigation. cbn [router navigations next navigationId routerEvents].
    apply Forall_app. split.
    + rewrite Forall_forall in Hp, Hids |- *. intros n Hn.
      rewrite trace_app, (trace_other _ [_]), app_nil_r; [by apply Hp|].
      repeat constructor. cbn. specialize (Hids n Hn). cbn in Hids. lia.
    + repeat constructor. cbn [nav_phase nav_id traceAt].
      rewrite trace_app, (trace_other _ (routerEvents _)), (trace_own _ [_]);
        [done|by repeat constructor|].
      eapply Forall_impl; [exact Hevs|]. cbn. lia.
  - destruct (navigations s !! i) as [n|] eqn:Hi; [|done].
    pose proof (RouterFacts.step_nav_id C n (router s)) as Hid.
    pose proof (step_emits n (router s)) as (evs & Hevs' & Hown & Htr).
    destruct (step C n (router s)) as [n' r'] eqn:Hstep. cbn [fst snd] in *.
    cbn [router navigations]. apply Forall_lookup_2. intros j x Hj.
    apply list_lookup_insert_Some in Hj as [(-> & <- & Hlt)|(Hne & Hj)].
    + rewrite Hevs', trace_app, Hid, (trace_own _ evs) by done.
      apply Htr. by apply (Forall_lookup_1 _ _ _ _ Hp Hi).
    + rewrite Hevs', trace_app, (trace_other _ evs), app_nil_r.
      { by apply (Forall_lookup_1 _ _ _ _ Hp Hj). }
      eapply Forall_impl; [exact Hown|]. cbn. intros ev -> Heq. apply Hne.
      eapply (NoDup_lookup _ _ _ _ Hnd); rewrite list_lookup_fmap.
      * by rewrite Hi.
      * rewrite Hj. cbn. by rewrite Heq.
Qed.

(** X15.  However navigations are issued and their turns interleave, the
    navigations in flight keep different ids, none above the counter, the
    counter never goes down, and no event bears the id of a navigation that
    is still to be issued. *)
Theorem navigation_ids_stay_distinct acts s :
  wellNumbered s ->
  wellNumbered (exec C acts s)
  /\ navigationId (router s) <= navigationId (router (exec C acts s)).
Proof.
  intros Hs.
  apply (exec_invariant
           (fun s' => wellNumbered s'
                      /\ navigationId (router s) <= navigationId (router s')));
    [|by split].
  clear Hs. intros a s' [Hs' Hle]. split; [by apply act_wellNumbered|].
  destruct a as [url prevent|i]; cbn [act].
  - cbn. lia.
  - destruct (navigations s' !! i) as [n|]; [|done].
    pose proof (RouterFacts.step_navigationId C n (router s')) as Hnid.
    destruct (step C n (router s')). cbn [snd router] in *. lia.
Qed.

Lemma exec_settled acts s i n res :
  navigations s !! i = Some n ->
  nav_phase n = Done res ->
  navigations (exec C acts s) !! i = Some n.
Proof.
  intros Hi Hn.
  apply (exec_invariant (fun s' => navigations s' !! i = Some n)); [|done].
  clear s Hi. intros a s Hi. destruct a as [url prevent|j]; cbn [act].
  - cbn [scheduleNavigation navigations].
    by rewrite lookup_app_l by (by eapply lookup_lt_Some).
  - destruct (navigations s !! j) as [m|] eqn:Hj; [|done].
    destruct (decide (j = i)) as [->|Hne].
    + simplify_eq. unfold step. rewrite Hn. cbn [navigations].
      by rewrite list_insert_id.
    + destruct (step C m (router s)). cbn [navigations].
      by rewrite list_lookup_insert_ne.
Qed.

(** X16.  The events of a navigation follow one protocol, whatever the other
    navigations do in between: [NavigationStart] first; [RoutesRecognized]
    once the URL is recognized; a navigation that resolves [true] ends with
    [NavigationEnd]; one that resolves [false] has emitted
    [NavigationCancel], alone when it was found superseded at entry and
    followed by [NavigationEnd] otherwise; one that is rejected ends with
    [NavigationError].  A settled navigation stays as it is, and so emits
    nothing more. *)
Theorem navigation_events_follow_protocol acts s :
  wellNumbered s -> onProtocol s ->
  onProtocol (exec C acts s)
  /\ forall i n res,
       navigations s !! i = Some n -> nav_phase n = Done res ->
       navigations (exec C acts s) !! i = Some n.
Proof.
  intros Hw Hp. split; [|intros i n res; apply exec_settled].
  apply (exec_invariant (fun s' => wellNumbered s' /\ onProtocol s')); [|by split].
  clear. intros a s [Hw Hp]. split; [by apply act_wellNumbered|by apply act_onProtocol].
Qed.

(** *** A navigation that nothing disturbs *)

(** X17.  A navigation that is the current one when its pipeline starts, all
    of whose stages succeed, whose guards all allow and whose activation
    does not throw, and during which no other navigation is issued, settles
    in seven turns: it resolves [true], the router is at the new state and
    the redirected URL, the outlet map and the mounted components are as
    activation left them, [RoutesRecognized] (with the snapshot as
    recognized) and [NavigationEnd] have been emitted, and the location has
    been updated unless push state is prevented. *)
Theorem undisturbed_navigation_commits n r u recognized resolved checks calls data om w :
  nav_phase n = Scheduled ->
  nav_id n = navigationId r ->
  applyRedirects C (nav_url n) = Ok u ->
  recognize C u = Ok recognized ->
  resolve C recognized = Ok resolved ->
  PreActivation.traverse (w_live (world r))
    (rs_snapshot (createRouterState C resolved (currentRouterState r)))
    (Some (rs_snapshot (currentRouterState r))) (Some (outletMap r)) = Ok checks ->
  PreActivation.checkGuards (guard C) checks (guardCalls r) = (Ok true, calls) ->
  Resolve.resolveData (resolver C) checks = Ok data ->
  ActivateRoutes.activate (template C) (PRIMARY_OUTLET C)
    (createRouterState C resolved (currentRouterState r)) (Some (currentRouterState r))
    (Some (outletMap r)) (world r) = (om, w, None) ->
  let n' := fst (runTurns C 7 n r) in
  let r' := snd (runTurns C 7 n r) in
  nav_phase n' = Done (Resolved true)
  /\ current r' = (createRouterState C resolved (currentRouterState r), u)
  /\ routerEvents r'
     = routerEvents r
         ++ [RoutesRecognized (nav_id n) (serializeUrl C (nav_url n)) (serializeUrl C u)
               recognized;
             NavigationEnd (nav_id n) (serializeUrl C (nav_url n)) (serializeUrl C u)]
  /\ outletMap r' = default (outletMap r) om
  /\ world r' = w
  /\ guardCalls r' = calls
  /\ location r'
     = if nav_preventPushState n then location r
       else if isCurrentPathEqualTo (serializeUrl C u) (location r)
            then replaceState (serializeUrl C u) (location r)
            else go (serializeUrl C u) (location r).
Proof.
  intros Hphase Hid Hredirect Hrecognize Hresolve Htraverse Hguards Hdata Hactivate.
  destruct n as [id url prevent phase]. destruct r as [cu cs nid evs loc outlets wd gc].
  cbn [nav_phase nav_id nav_url nav_preventPushState currentUrlTree currentRouterState
       navigationId routerEvents location outletMap world guardCalls] in *.
  subst phase id.
  set (state := createRouterState C resolved cs) in *.
  set (loc' := if prevent then loc
               else if isCurrentPathEqualTo (serializeUrl C u) loc
                    then replaceState (serializeUrl C u) loc
                    else go (serializeUrl C u) loc).
  assert (runTurns C 7 (mkNavigation nid url prevent Scheduled)
            (mkRouter cu cs nid evs loc outlets wd gc)
          = (mkNavigation nid url prevent (Done (Resolved true)),
             mkRouter u state nid
               (evs ++ [RoutesRecognized nid (serializeUrl C url) (serializeUrl C u)
                          recognized;
                        NavigationEnd nid (serializeUrl C url) (serializeUrl C u)])
               loc' (default outlets om) w calls)) as ->; [|done].
  cbn [runTurns].
  unfold step at 1. cbn [nav_phase nav_id navigationId]. rewrite Nat.eqb_refl.
  cbn [negb setPhase nav_id nav_url nav_preventPushState currentRouterState currentUrlTree].
  rewrite Hredirect.
  unfold step at 1. cbn [setPhase nav_phase nav_id nav_url nav_preventPushState].
  rewrite Hrecognize.
  unfold step at 1. cbn [setPhase nav_phase nav_id nav_url nav_preventPushState next
                         currentRouterState currentUrlTree navigationId routerEvents
                         location outletMap world guardCalls].
  rewrite Hresolve.
  unfold step at 1. cbn [setPhase nav_phase nav_id nav_url nav_preventPushState next
                         currentRouterState currentUrlTree navigationId routerEvents
                         location outletMap world guardCalls].
  fold state. rewrite Htraverse, Hguards.
  unfold step at 1. cbn [setPhase nav_phase nav_id nav_url nav_preventPushState].
  rewrite Hdata.
  unfold step at 1, forEachCallback.
  cbn [setPhase nav_phase nav_id nav_url nav_preventPushState next
       currentRouterState currentUrlTree navigationId routerEvents
       location outletMap world guardCalls negb orb].
  rewrite Nat.eqb_refl, Hactivate. cbn [negb orb].
  unfold step at 1. cbn [setPhase nav_phase nav_id nav_url nav_preventPushState].
  unfold loc'. destruct prevent; cbn [negb].
  - unfold next. cbn [currentUrlTree currentRouterState navigationId routerEvents
                      location outletMap world guardCalls].
    by rewrite <- app_assoc.
  - destruct (isCurrentPathEqualTo (serializeUrl C u) loc);
      unfold next, setLocation;
      cbn [currentUrlTree currentRouterState navigationId routerEvents
           location outletMap world guardCalls];
      by rewrite <- app_assoc.
Qed.
End Turn.
End TurnFacts.

(** ** A slot the new tree leaves empty *)

Module VacatedFacts.
Import PreActivation.
Section Vacated.
Variable live : gmap nat ActivatedRouteSnapshot.
Variable guard : GuardCall -> Notifs JsVal.

Lemma checkGuards_snoc_node cs comp v log :
  checkGuards guard (cs ++ [CanDeactivate comp (DTreeNode v)]) log
  = checkGuards guard cs log.
Proof.
  destruct cs as [|c cs]; [reflexivity|].
  cbn [app checkGuards].
  change (c :: cs ++ [CanDeactivate comp (DTreeNode v)])
    with ((c :: cs) ++ [CanDeactivate comp (DTreeNode v)]).
  rewrite map_app, andObservables_app.
  by destruct (andObservables (map (guardsOf guard) (c :: cs)) log) as [[[]|] log'].
Qed.

(** X18.  When the new tree has no child for a slot the previous tree filled
    ([v] is the previous child, mounted in an outlet of the registry),
    [traverseChildRoutes] records the teardown of what is mounted below
    that outlet and then a deactivate-check that holds the tree node [v]
    where a route is expected; [checkGuards] finds no route config on it
    and so runs no guard for it: the can-deactivate guards of the route
    that leaves the slot are not consulted. *)
Theorem vacated_slot_asks_no_guard futureNode currNode v m inst ref nested path checks :
  children futureNode = [] ->
  children currNode = [v] ->
  assoc_get (outlet (value v)) m = Some (mkOutlet (Some (inst, ref)) (Some nested)) ->
  registeredMap nested ->
  traverseChildRoutes live futureNode (Some currNode) (Some m) path checks
  = Ok (checks ++ teardownChecks live (teardownMap nested)
          ++ [CanDeactivate (Some inst) (DTreeNode v)])
  /\ forall cs log,
       checkGuards guard (cs ++ [CanDeactivate (Some inst) (DTreeNode v)]) log
       = checkGuards guard cs log.
Proof.
  intros Hf Hc Ho Hreg. split; [|intros cs log; apply checkGuards_snoc_node].
  unfold traverseChildRoutes, nodeChildrenAsMap. rewrite Hf, Hc.
  cbn [foldl assoc_set childLoop deactivateLeftovers]. rewrite Ho.
  cbn [deactivateOutletAndItChildren].
  rewrite TraverseFacts.deactivateOutlet_teardown by (by apply registered_activated).
  reflexivity.
Qed.
End Vacated.
End VacatedFacts.

(** ** Navigating to what is already there *)

Module UnchangedFacts.
Import Router.
Section Unchanged.
Context {UrlTree : Type}.
Variable C : Collaborators UrlTree.

Lemma traverse_unchanged live future curr om :
  sameRoutes (snap_root future) (snap_root curr) ->
  PreActivation.traverse live future (Some curr) om = Ok [].
Proof.
  unfold PreActivation.traverse, PreActivation.traverseChildRoutes.
  cbn [fmap option_fmap option_map].
  destruct (snap_root future) as [fv fcs], (snap_root curr) as [cv ccs].
  intros (_ & _ & _ & Hnd & Hch)%sameRoutes_Node. cbn [children value].
  rewrite nodeChildrenAsMap_NoDup by done.
  apply TraverseFacts.childLoop_unchanged; [|done..].
  apply Forall_forall. intros f _. apply TraverseFacts.traverseRoutes_unchanged.
Qed.

(** X19.  A navigation whose recognized tree is the tree the router is at
    (the same route configs in the same slots with the same parameters)
    records no check: the turn that diffs the trees calls no guard and
    delivers [true], and the turn after it has no data to resolve. *)
Theorem unchanged_tree_consults_no_guard n r ss su u snapshot :
  nav_phase n = Running ss su (Resolving u (Ok snapshot)) ->
  sameRoutes
    (snap_root (rs_snapshot (createRouterState C snapshot (currentRouterState r))))
    (snap_root (rs_snapshot (currentRouterState r))) ->
  let state := createRouterState C snapshot (currentRouterState r) in
  step C n r = (setPhase (Running ss su (Guarding u state [] (Ok true))) n, r)
  /\ step C (fst (step C n r)) r
     = (setPhase (Running ss su (ResolvingData u state (Ok []))) n, r).
Proof.
  intros Hn Hsame state.
  assert (step C n r = (setPhase (Running ss su (Guarding u state [] (Ok true))) n, r))
    as Hstep.
  { unfold step. rewrite Hn. fold state.
    rewrite (traverse_unchanged _ _ _ _ Hsame). cbn. by destruct r. }
  split; [done|]. rewrite Hstep. cbn [fst]. unfold step. by destruct n.
Qed.
End Unchanged.
End UnchangedFacts.

(** ** Location changes *)

Module ApiFacts.
Import Router Api.
Section Api.
Context {UrlTree : Type}.
Variable C : Collaborators UrlTree.
Variable parse : string -> Res UrlTree.
Variable toString : UrlTree -> string.

(** X20.  The location-change listener compares the changed URL with the
    URL the router has committed to, not with the navigations in flight: a
    change to the committed URL schedules nothing, while a change to
    another URL that is delivered twice before a turn has run schedules
    two navigations with consecutive ids and the [pop] flag of the change;
    the first of them is then found superseded at its entry, where it
    resolves [false] and calls [location.go] with the committed URL.
    [navigateByUrl] does not compare at all. *)
Theorem repeated_location_change_schedules_twice change tree s :
  parse (change_url change) = Ok tree ->
  (toString (currentUrlTree (router s)) = toString tree ->
   onLocationChange C parse toString change s = Ok s)
  /\ (toString (currentUrlTree (router s)) <> toString tree ->
      let id := navigationId (router s) in
      let n1 := mkNavigation (S id) tree (change_pop change) Scheduled in
      let n2 := mkNavigation (S (S id)) tree (change_pop change) Scheduled in
      exists s1 s2,
        onLocationChange C parse toString change s = Ok s1
        /\ onLocationChange C parse toString change s1 = Ok s2
        /\ navigations s2 = navigations s ++ [n1; n2]
        /\ navigationId (router s2) = S (S id)
        /\ let s3 := act C (Advance (length (navigations s))) s2 in
           navigations s3 = navigations s ++ [setPhase (Done (Resolved false)) n1; n2]
           /\ location (router s3)
              = go (serializeUrl C (currentUrlTree (router s))) (location (router s)))
  /\ exists s',
       navigateByUrl C parse (inr (currentUrlTree (router s))) s = Ok s'
       /\ navigations s'
          = navigations s
              ++ [mkNavigation (S (navigationId (router s))) (currentUrlTree (router s))
                    false Scheduled].
Proof.
  intros Hparse. destruct s as [[cu cs nid evs loc om w gc] navs].
  unfold onLocationChange. rewrite Hparse.
  cbn [mbind Res_bind router currentUrlTree navigationId navigations location].
  split; [|split].
  - intros ->. by rewrite String.eqb_refl.
  - intros Hne%String.eqb_neq. rewrite Hne. cbn [negb].
    eexists _, _. split; [reflexivity|].
    cbn [act scheduleNavigation router next currentUrlTree navigations navigationId
         currentRouterState routerEvents location outletMap world guardCalls].
    rewrite Hne. cbn [negb]. split; [reflexivity|].
    cbn [act scheduleNavigation router next currentUrlTree navigations navigationId
         currentRouterState routerEvents location outletMap world guardCalls].
    rewrite <- app_assoc. cbn [app]. split; [reflexivity|]. split; [reflexivity|].
    rewrite lookup_app_r by done. rewrite Nat.sub_diag. cbn [lookup list_lookup].
    assert (Nat.eqb nid (S nid) = false) as Hid by (apply Nat.eqb_neq; lia).
    unfold step. cbn. rewrite Hid. cbn. split; [|reflexivity].
    rewrite insert_app_r_alt by done. by rewrite Nat.sub_diag.
  - eexists. split; reflexivity.
Qed.
End Api.
End ApiFacts.

(** ** Events as text *)

Section EventText.
Variable showState : RouterStateSnapshot -> string.

Lemma pretty_N_char_noComma x : pretty_N_char x <> ","%char.
Proof. unfold pretty_N_char. by repeat case_match. Qed.

Lemma pretty_N_go_noComma x s : noComma s -> noComma (pretty_N_go x s).
Proof.
  revert s. induction (N.lt_wf_0 x) as [x _ IH]; intros s Hs.
  destruct (decide (x = 0)%N) as [->|Hx]; [by rewrite pretty_N_go_0|].
  rewrite pretty_N_go_step by lia. apply IH.
  - apply N.div_lt; lia.
  - split; [apply pretty_N_char_noComma|done].
Qed.

Lemma pretty_nat_noComma (n : nat) : noComma (pretty n).
Proof.
  unfold pretty, pretty_nat, pretty, pretty_N. case_decide.
  - by repeat split.
  - by apply pretty_N_go_noComma.
Qed.

Lemma untilComma_app ds rest : noComma ds -> untilComma (ds +:+ String "," rest) = ds.
Proof.
  induction ds as [|c ds IH]; simpl.
  { done. }
  intros [Hc Hds]. destruct (Ascii.eqb_spec c ","); [done|]. by rewrite IH.
Qed.

Lemma printed_id_inj (id1 id2 : nat) rest1 rest2 :
  pretty id1 +:+ String "," rest1 = pretty id2 +:+ String "," rest2 -> id1 = id2.
Proof.
  intros H%(f_equal untilComma).
  rewrite !untilComma_app in H by apply pretty_nat_noComma. by apply (inj pretty).
Qed.

(** X21.  The text of an event tells its class and the id of its navigation:
    two events that print the same are of the same class and of the same
    navigation. *)
Theorem printed_event_tells_kind_and_id e1 e2 :
  Event_toString showState e1 = Event_toString showState e2 ->
  kindOf e1 = kindOf e2 /\ event_id e1 = event_id e2.
Proof.
  destruct e1, e2; cbn [Event_toString String.append kindOf event_id]; intros H;
    try discriminate H.
  all: split; [done|].
  all: apply (inj (String.append _)) in H; eapply printed_id_inj; exact H.
Qed.
End EventText.

(** ** The scenarios, run *)

Module CaseFacts.
Import Scenario Cases.

Lemma first_traverse_witness :
  PreActivation.traverse ∅ (stateSnapshot (teamUser "11"))
    (Some (stateSnapshot (Node root []))) (Some emptyOutlets)
  = Ok [CanActivate [root; team "33"]; CanActivate [root; team "33"; user "11"]].
Proof.
  apply (RecordFacts.first_traverse_checks_every_node ∅ (stateSnapshot (teamUser "11"))
           (Some (stateSnapshot (Node root []))) (Some emptyOutlets)).
  intros c [= <-]. reflexivity.
Defined.

Lemma activate_checks_witness :
  activatePaths checks22 `sublist_of` pathsOf (teamUser "22").
Proof.
  apply (RecordFacts.activate_checks_follow_new_tree live11
           (stateSnapshot (teamUser "22")) (Some (stateSnapshot (teamUser "11")))
           (Some mounted11) checks22).
  vm_compute. reflexivity.
Defined.

Lemma values_witness :
  PreActivation.checkGuards (wrapped answering) checks22 []
  = (Ok false,
     [PreActivation.CallCanDeactivate "Leave" (Some 11) (user "11");
      PreActivation.CallCanActivate "Auth" (user "22");
      PreActivation.CallCanActivate "Deny" (user "22")]).
Proof.
  apply (WrapFacts.checkGuards_of_values_is_conjunction answering answers checks22 []).
  - repeat constructor; done.
  - cbn. repeat constructor.
Defined.

Lemma failing_guard_witness :
  PreActivation.checkGuards (wrapped throwing) checks22 []
  = (Throw "not signed in",
     [PreActivation.CallCanDeactivate "Leave" (Some 11) (user "11");
      PreActivation.CallCanActivate "Auth" (user "22")]).
Proof.
  apply (WrapFacts.failing_guard_fails_the_check throwing answers checks22 []
           [PreActivation.CallCanDeactivate "Leave" (Some 11) (user "11")]
           (PreActivation.CallCanActivate "Auth" (user "22"))
           [PreActivation.CallCanActivate "Deny" (user "22");
            PreActivation.CallCanActivate "Late" (user "22");
            PreActivation.CallCanActivateChild "TeamChildGuard" (user "22")]
           "not signed in").
  - repeat constructor; done.
  - reflexivity.
  - repeat constructor.
  - repeat constructor.
  - reflexivity.
Defined.

Lemma resolveData_witness :
  Some <$> (fst <$> [(profile, [("prefs", JNum 7); ("user", JStr "alice")])])
  = last <$> activatePaths profileChecks
  /\ Forall (fun rd => forall k,
               assoc_get k (snd rd)
               = assoc_get k (_resolve (fst rd)) ≫= delivered resolvers (fst rd))
       [(profile, [("prefs", JNum 7); ("user", JStr "alice")])].
Proof.
  apply (ResolveFacts.resolveData_resolves_activated_routes resolvers profileChecks).
  vm_compute. reflexivity.
Defined.

Lemma activation_advances_witness :
  exists ops,
    w_ops (snd (fst (ActivateRoutes.activate (template (collaborators allowAll)) "primary"
                       (liveState (teamUser "11")) (Some (liveState (Node root [])))
                       (Some emptyOutlets) emptyWorld)))
    = w_ops emptyWorld ++ ops
    /\ advanced ops `prefix_of` refsOf (liveTree (teamUser "11"))
    /\ (snd (ActivateRoutes.activate (template (collaborators allowAll)) "primary"
               (liveState (teamUser "11")) (Some (liveState (Node root [])))
               (Some emptyOutlets) emptyWorld) = None ->
        advanced ops = refsOf (liveTree (teamUser "11"))).
Proof.
  apply (CommitFacts.activation_advances_every_route
           (template (collaborators allowAll)) "primary"
           (liveState (teamUser "11")) (Some (liveState (Node root [])))
           (Some emptyOutlets) emptyWorld
           (fst (fst (ActivateRoutes.activate (template (collaborators allowAll)) "primary"
                        (liveState (teamUser "11")) (Some (liveState (Node root [])))
                        (Some emptyOutlets) emptyWorld)))).
  vm_compute. reflexivity.
Defined.

Lemma first_activation_witness :
  exists m' w' ops,
    ActivateRoutes.activate (template (collaborators allowAll)) "primary"
      (liveState (teamUser "11")) (Some (liveState (Node root [])))
      (Some emptyOutlets) emptyWorld
    = (Some m', w', None)
    /\ map fst m' = ["primary"]
    /\ w_ops w' = [] ++ ops
    /\ mounted ops = [(1, "TeamCmp"); (2, "UserCmp")]
    /\ unmounted ops = [].
Proof.
  apply (MountFacts.first_activation_mounts_every_component
           (template (collaborators allowAll)) "primary"
           (liveState (teamUser "11")) (Some (liveState (Node root [])))
           emptyOutlets emptyWorld).
  - intros c [= <-]. reflexivity.
  - cbn. repeat constructor.
Defined.

Lemma outlet_missing_witness :
  (snd (ActivateRoutes.activate noOutlets "primary" (liveState (teamUser "11"))
          (Some (liveState (Node root []))) (Some emptyOutlets) emptyWorld) = None
   <-> Forall (fits noOutlets ["primary"]) [liveTree (Node (team "33") [Node (user "11") []])])
  /\ snd (ActivateRoutes.activate noOutlets "primary" (liveState (teamUser "11"))
            (Some (liveState (Node root []))) (Some emptyOutlets) emptyWorld)
     = Some "Cannot find primary outlet to load 'UserCmp'".
Proof.
  split.
  - apply (MountFacts.first_activation_throws_iff_outlet_missing noOutlets "primary"
             (liveState (teamUser "11")) (Some (liveState (Node root [])))
             emptyOutlets emptyWorld).
    intros c [= <-]. reflexivity.
  - vm_compute. reflexivity.
Defined.

Lemma undisturbed_witness :
  Router.nav_phase (fst (Protocol.runTurns (collaborators allowAll) 7 first issued))
  = Router.Done (Resolved true)
  /\ Router.current (snd (Protocol.runTurns (collaborators allowAll) 7 first issued))
     = (liveState (teamUser "11"), "/team/33/user/11")
  /\ Router.routerEvents (snd (Protocol.runTurns (collaborators allowAll) 7 first issued))
     = [NavigationStart 1 "/team/33/user/11";
        RoutesRecognized 1 "/team/33/user/11" "/team/33/user/11"
          (stateSnapshot (teamUser "11"));
        NavigationEnd 1 "/team/33/user/11" "/team/33/user/11"].
Proof.
  destruct (TurnFacts.undisturbed_navigation_commits (collaborators allowAll) first issued
              "/team/33/user/11" (stateSnapshot (teamUser "11"))
              (stateSnapshot (teamUser "11"))
              [CanActivate [root; team "33"]; CanActivate [root; team "33"; user "11"]]
              [PreActivation.CallCanActivate "Auth" (user "11");
               PreActivation.CallCanActivate "Deny" (user "11");
               PreActivation.CallCanActivate "Late" (user "11");
               PreActivation.CallCanActivateChild "TeamChildGuard" (user "11")]
              [(team "33", []); (user "11", [])]
              (Some mounted11)
              (mkWorld live11 ∅ None 12
                 [OpAdvance 0; OpAdvance 1; OpActivate 1 "TeamCmp" 10;
                  OpAdvance 2; OpActivate 2 "UserCmp" 11])
              eq_refl eq_refl eq_refl eq_refl eq_refl
              ltac:(vm_compute; reflexivity) ltac:(vm_compute; reflexivity)
              ltac:(vm_compute; reflexivity) ltac:(vm_compute; reflexivity))
    as (H1 & H2 & H3 & _).
  split; [exact H1|]. split; [exact H2|exact H3].
Defined.

Lemma registry_witness :
  registeredMap
    (Router.outletMap
       (Router.router (Router.exec (collaborators allowAll) interleaved start))).
Proof.
  apply (TurnFacts.registry_invariant_is_kept (collaborators allowAll) interleaved start).
  repeat constructor.
Defined.

Lemma navigation_ids_witness :
  Protocol.wellNumbered (Router.exec (collaborators allowAll) interleaved start)
  /\ 0 <= Router.navigationId
            (Router.router (Router.exec (collaborators allowAll) interleaved start)).
Proof.
  apply (TurnFacts.navigation_ids_stay_distinct (collaborators allowAll) interleaved start).
  repeat split; constructor.
Defined.

Lemma protocol_witness :
  Protocol.onProtocol (Router.exec (collaborators allowAll) interleaved start).
Proof.
  apply (proj1 (TurnFacts.navigation_events_follow_protocol (collaborators allowAll)
                  interleaved start
                  ltac:(repeat split; constructor) ltac:(constructor))).
Defined.

Lemma vacated_slot_witness :
  PreActivation.traverseChildRoutes live11 teamOnly (Some teamWithUser)
    (Some [("primary", userOutlet)]) [root; team "33"] []
  = Ok [CanDeactivate (Some 11) (DTreeNode (Node (user "11") []))]
  /\ forall cs log,
       PreActivation.checkGuards denying
         (cs ++ [CanDeactivate (Some 11) (DTreeNode (Node (user "11") []))]) log
       = PreActivation.checkGuards denying cs log.
Proof.
  apply (VacatedFacts.vacated_slot_asks_no_guard live11 denying teamOnly teamWithUser
           (Node (user "11") []) [("primary", userOutlet)] 11 2 [] [root; team "33"] []).
  - reflexivity.
  - reflexivity.
  - reflexivity.
  - constructor.
Defined.

Lemma unchanged_tree_witness :
  Router.step (collaborators denying) again at11
  = (Router.setPhase
       (Router.Running (liveState (teamUser "11")) "/team/33/user/11"
          (Router.Guarding "/team/33/user/11" (liveState (teamUser "11")) [] (Ok true)))
       again, at11)
  /\ Router.step (collaborators denying)
       (fst (Router.step (collaborators denying) again at11)) at11
     = (Router.setPhase
          (Router.Running (liveState (teamUser "11")) "/team/33/user/11"
             (Router.ResolvingData "/team/33/user/11" (liveState (teamUser "11")) (Ok [])))
          again, at11).
Proof.
  apply (UnchangedFacts.unchanged_tree_consults_no_guard (collaborators denying) again at11
           (liveState (teamUser "11")) "/team/33/user/11" "/team/33/user/11"
           (stateSnapshot (teamUser "11"))).
  - reflexivity.
  - vm_compute. repeat split; repeat constructor; set_solver.
Defined.

Lemma location_change_witness :
  exists s1 s2,
    Api.onLocationChange (collaborators allowAll) parseAny printTree backTo22
      (Router.mkSystem at11 []) = Ok s1
    /\ Api.onLocationChange (collaborators allowAll) parseAny printTree backTo22 s1 = Ok s2
    /\ Router.navigations s2
       = [Router.mkNavigation 2 "/team/33/user/22" true Router.Scheduled;
          Router.mkNavigation 3 "/team/33/user/22" true Router.Scheduled]
    /\ Router.navigationId (Router.router s2) = 3
    /\ Router.navigations (Router.act (collaborators allowAll) (Router.Advance 0) s2)
       = [Router.mkNavigation 2 "/team/33/user/22" true (Router.Done (Resolved false));
          Router.mkNavigation 3 "/team/33/user/22" true Router.Scheduled]
    /\ Router.location
         (Router.router (Router.act (collaborators allowAll) (Router.Advance 0) s2))
       = go "/team/33/user/11" (Router.location at11).
Proof.
  destruct (ApiFacts.repeated_location_change_schedules_twice (collaborators allowAll)
              parseAny printTree backTo22 "/team/33/user/22" (Router.mkSystem at11 [])
              eq_refl) as (_ & Htwice & _).
  apply Htwice. vm_compute. discriminate.
Defined.

Lemma printed_event_witness :
  kindOf (NavigationCancel 2 "/team/33/user/22") = Canceled
  /\ event_id (NavigationCancel 2 "/team/33/user/22") = 2.
Proof.
  apply (printed_event_tells_kind_and_id showNothing
           (NavigationCancel 2 "/team/33/user/22") (NavigationCancel 2 "/team/33/user/22")).
  reflexivity.
Defined.
End CaseFacts.
